(** * Flashblocks confirmation race demo: a shallow embedding

    The development follows the TypeScript sources of the demo:

    - [src/lib/demo-tx.ts] (latest revision): the spoof engine
      ([buildSpoofTxHash], [parseSpoofTxHash]), the confirmation check
      ([checkLaneConfirmation]), the send queue ([enqueueSendTransaction])
      and the nonce recovery of [sendLaneTransaction]; of the oldest
      revision in that file, the live confirmation check;
    - of the same file, the demo key ([resolvePrivateKeyFromEnv],
      [normalizePrivateKey]) and the wallet snapshot
      ([getDemoWalletSnapshot]);
    - the start route ([parseDurationSeconds], [POST] and the stream it
      answers with), the send, confirm and wallet routes;
    - the client component [ConfirmationRaceDemo] (run token, [stopRun],
      [startRun], [runLaneLoop] and the per-lane metrics).

    Conventions.  A JavaScript string is a [string] whose characters are the
    code units below 256 (Latin-1); integral numbers are [Z]; numbers that
    may carry a fraction (performance clock, latencies, durations) are exact
    rationals [Q], so rounding of IEEE doubles is not part of the model.
    Effects are explicit: clocks, random bytes and network answers are
    arguments, asynchronous code is a step function over suspended loops. *)

From Stdlib Require Import ZArith NArith QArith Qround Qminmax Bool List Lia.
From Stdlib Require Import Ascii String DecimalString.
Import ListNotations.

Local Open Scope string_scope.
Local Open Scope Z_scope.

Set Warnings "-register-all".

(** ** JavaScript strings *)

Module JsString.

(** [s.slice(n)] for a non-negative [n]. *)
Fixpoint drop (n : nat) (s : string) : string :=
  match n, s with
  | O, _ => s
  | S _, EmptyString => EmptyString
  | S n', String _ s' => drop n' s'
  end.

Fixpoint take (n : nat) (s : string) : string :=
  match n, s with
  | O, _ => EmptyString
  | S _, EmptyString => EmptyString
  | S n', String c s' => String c (take n' s')
  end.

(** [s.slice(b, e)] for non-negative [b] and [e] (empty when [e <= b]). *)
Definition slice (b e : nat) (s : string) : string :=
  take (e - b) (drop b s).

(** [s.slice(-n)]: the last [n] characters (all of [s] when it is shorter). *)
Definition sliceLast (n : nat) (s : string) : string :=
  drop (String.length s - n) s.

Fixpoint replicate (n : nat) (c : ascii) : string :=
  match n with
  | O => EmptyString
  | S n' => String c (replicate n' c)
  end.

(** [s.padStart(n, c)] with a one-character filler. *)
Definition padStart (n : nat) (c : ascii) (s : string) : string :=
  replicate (n - String.length s) c ++ s.

(** [toLowerCase] on Latin-1 code units: A-Z and the accented capitals
    0xC0-0xDE (the multiplication sign 0xD7 apart) move up by 32. *)
Definition lowerChar (c : ascii) : ascii :=
  let n := nat_of_ascii c in
  if ((65 <=? n) && (n <=? 90))%nat then ascii_of_nat (n + 32)
  else if ((192 <=? n) && (n <=? 222) && negb (n =? 215))%nat
       then ascii_of_nat (n + 32)
  else c.

Fixpoint toLowerCase (s : string) : string :=
  match s with
  | EmptyString => EmptyString
  | String c s' => String (lowerChar c) (toLowerCase s')
  end.

Fixpoint startsWith (p s : string) : bool :=
  match p, s with
  | EmptyString, _ => true
  | String _ _, EmptyString => false
  | String a p', String b s' => Ascii.eqb a b && startsWith p' s'
  end.

(** [s.includes(p)]. *)
Fixpoint includes (p s : string) : bool :=
  startsWith p s ||
  match s with
  | EmptyString => false
  | String _ s' => includes p s'
  end.

(** The value of one hexadecimal digit, in either case. *)
Definition hexValue (c : ascii) : option Z :=
  let n := Z.of_nat (nat_of_ascii c) in
  if (48 <=? n) && (n <=? 57) then Some (n - 48)
  else if (97 <=? n) && (n <=? 102) then Some (n - 87)
  else if (65 <=? n) && (n <=? 70) then Some (n - 55)
  else None.

(** The lower-case digit of a value below 16. *)
Definition hexDigit (d : Z) : ascii :=
  if d <? 10 then ascii_of_nat (Z.to_nat (d + 48))
  else ascii_of_nat (Z.to_nat (d + 87)).

(** Digits of a non-negative integer, most significant first; [fuel]
    bounds the number of digits produced. *)
Fixpoint hexDigits (fuel : nat) (n : Z) (acc : string) : string :=
  match fuel with
  | O => acc
  | S fuel' =>
      let acc' := String (hexDigit (n mod 16)) acc in
      if n <? 16 then acc' else hexDigits fuel' (n / 16) acc'
  end.

(** [n.toString(16)] for an integral number [n]: a minus sign and the
    digits of the magnitude.  [S (log2 |n|)] digits always suffice. *)
Definition toString16 (n : Z) : string :=
  let m := Z.abs n in
  let digits := hexDigits (S (Z.to_nat (Z.log2 m))) m EmptyString in
  if n <? 0 then String "-" digits else digits.

(** White space skipped by [parseInt], among the Latin-1 code units. *)
Definition isWhiteSpace (c : ascii) : bool :=
  let n := nat_of_ascii c in
  (((9 <=? n) && (n <=? 13)) || (n =? 32) || (n =? 160))%nat.

Fixpoint trimStart (s : string) : string :=
  match s with
  | EmptyString => EmptyString
  | String c s' => if isWhiteSpace c then trimStart s' else s
  end.

(** Reads the longest prefix of hexadecimal digits; [None] when there is
    no digit at all. *)
Fixpoint readHex (acc : option Z) (s : string) : option Z :=
  match s with
  | EmptyString => acc
  | String c s' =>
      match hexValue c with
      | Some d =>
          readHex (Some (match acc with Some a => a * 16 + d | None => d end)) s'
      | None => acc
      end
  end.

(** The sign read by [parseInt] and the rest of the string. *)
Definition stripSign (s : string) : Z * string :=
  match s with
  | String c r =>
      if Ascii.eqb c "-" then (-1, r)
      else if Ascii.eqb c "+" then (1, r)
      else (1, s)
  | EmptyString => (1, s)
  end.

(** The [0x] or [0X] that [parseInt] drops when the radix is 16. *)
Definition stripHexPrefix (s : string) : string :=
  match s with
  | String a (String b r) =>
      if Ascii.eqb a "0" && (Ascii.eqb b "x" || Ascii.eqb b "X") then r
      else s
  | _ => s
  end.

(** [Number.parseInt(s, 16)]; [None] stands for NaN.  The steps are those
    of the language definition: skip white space, read a sign, drop one
    [0x] or [0X], read the digits.  The result is exact as long as there
    are at most 13 digits, which holds for every use below. *)
Definition parseInt16 (s : string) : option Z :=
  let '(sign, s2) := stripSign (trimStart s) in
  match readHex None (stripHexPrefix s2) with
  | Some v => Some (sign * v)
  | None => None
  end.

End JsString.

(** ** Lists updated by position *)

Module ListOps.

(** [l[i] = x] on a position in range; out of range nothing changes. *)
Fixpoint setNth {A} (i : nat) (x : A) (l : list A) : list A :=
  match i, l with
  | _, [] => []
  | O, _ :: l' => x :: l'
  | S i', y :: l' => y :: setNth i' x l'
  end.

Fixpoint removeNth {A} (i : nat) (l : list A) : list A :=
  match i, l with
  | _, [] => []
  | O, _ :: l' => l'
  | S i', y :: l' => y :: removeNth i' l'
  end.

End ListOps.

(** ** The transaction library ([src/lib/demo-tx.ts]) *)

Module DemoTx.

Inductive DemoLane := flashblocks | normal.

Definition DemoLane_eqb (a b : DemoLane) : bool :=
  match a, b with
  | flashblocks, flashblocks | normal, normal => true
  | _, _ => false
  end.

Definition Hex := string.

Definition SPOOF_CONFIRMATION_DELAY_MS_BY_LANE (lane : DemoLane) : Z :=
  match lane with
  | flashblocks => 800
  | normal => 2500
  end.

Inductive ConfirmationMethod := pending | latest | receipt | none.

Definition SPOOF_METHOD_BY_LANE (lane : DemoLane) : ConfirmationMethod :=
  match lane with
  | flashblocks => receipt
  | normal => latest
  end.

Definition SPOOF_FROM_BY_LANE (lane : DemoLane) : Hex :=
  match lane with
  | flashblocks => "0x00000000000000000000000000000000000000F1"
  | normal => "0x00000000000000000000000000000000000000F2"
  end.

Definition SPOOF_LANE_CODE (lane : DemoLane) : string :=
  match lane with
  | flashblocks => "f1"
  | normal => "f2"
  end.

(** [buffer.toString('hex')]: two lower-case digits per byte. *)
Fixpoint bytesToHex (bs : list Byte.byte) : string :=
  match bs with
  | [] => EmptyString
  | b :: bs' =>
      let n := Z.of_N (Byte.to_N b) in
      String (JsString.hexDigit (n / 16))
        (String (JsString.hexDigit (n mod 16)) (bytesToHex bs'))
  end.

(** [buildSpoofTxHash]; [randomBytes] is the outcome of
    [crypto.randomBytes(25)]. *)
Definition buildSpoofTxHash (lane : DemoLane) (createdAtMs : Q)
    (randomBytes : list Byte.byte) : Hex :=
  let laneCode := SPOOF_LANE_CODE lane in
  let timestampHex :=
    JsString.sliceLast 12
      (JsString.padStart 12 "0" (JsString.toString16 (Qfloor createdAtMs))) in
  let randomHex := bytesToHex randomBytes in
  "0x" ++ laneCode ++ timestampHex ++ randomHex.

Record SpoofTx := { spoofLane : DemoLane; spoofCreatedAtMs : Z }.

Definition decodeLaneCode (laneCode : string) : option DemoLane :=
  if String.eqb laneCode "f1" then Some flashblocks
  else if String.eqb laneCode "f2" then Some normal
  else None.

(** The two characters of a handle that carry the lane. *)
Definition laneCodeOf (txHash : Hex) : string :=
  JsString.slice 0 2 (JsString.toLowerCase (JsString.drop 2 txHash)).

Definition parseSpoofTxHash (txHash : Hex) : option SpoofTx :=
  let raw := JsString.toLowerCase (JsString.drop 2 txHash) in
  let laneCode := JsString.slice 0 2 raw in
  let timestampHex := JsString.slice 2 14 raw in
  match decodeLaneCode laneCode with
  | None => None
  | Some lane =>
      match JsString.parseInt16 timestampHex with
      | None => None
      | Some createdAtMs =>
          Some {| spoofLane := lane; spoofCreatedAtMs := createdAtMs |}
      end
  end.

(** *** Thrown values and settled promises *)

(** What a [catch] clause can observe of a thrown value: whether it is an
    instance of [Error] (with its [name] and [message]), some other object
    (with the string under its [name] property, if any), or a primitive. *)
Inductive JsThrown :=
| ErrorObject (name message : string)
| PlainObject (name : option string)
| Primitive.

(** A settled promise. *)
Inductive Outcome (A : Type) :=
| Fulfilled (a : A)
| Rejected (e : JsThrown).
Arguments Fulfilled {A} a.
Arguments Rejected {A} e.

Record RpcPendingBlock := {
  number : option Hex;
  transactions : list Hex
}.

Record RpcTransactionReceipt := {
  receiptBlockNumber : option Hex
}.

(** The answers of the node to the two queries of the confirmation check. *)
Record PublicClient := {
  eth_getTransactionReceipt : Hex -> Outcome (option RpcTransactionReceipt);
  eth_getBlockByNumber : ConfirmationMethod -> Outcome (option RpcPendingBlock)
}.

Record ConfirmationResult := {
  confirmed : bool;
  method : ConfirmationMethod;
  blockNumber : option Z
}.

Definition NORMAL_BLOCK_TAG : ConfirmationMethod := latest.

Definition unconfirmed : ConfirmationResult :=
  {| confirmed := false; method := none; blockNumber := None |}.

Section CheckLaneConfirmation.

(** [process.env.DEMO_SPOOF_TRANSACTIONS === 'true'] *)
Variable spoofTransactions : bool.
(** viem's [hexToNumber], which throws on a malformed quantity. *)
Variable hexToNumber : Hex -> Outcome Z.
Variable publicClient : PublicClient.

(** [x !== null && x !== undefined ? hexToNumber(x) : null], followed by
    the rest of the function. *)
Definition withBlockNumber (n : option Hex)
    (k : option Z -> ConfirmationResult) : Outcome ConfirmationResult :=
  match n with
  | Some h =>
      match hexToNumber h with
      | Fulfilled v => Fulfilled (k (Some v))
      | Rejected e => Rejected e
      end
  | None => Fulfilled (k None)
  end.

(** [checkLaneConfirmation(lane, txHash)], with [now] the value of
    [Date.now()] at the call. *)
Definition checkLaneConfirmation (now : Z) (lane : DemoLane) (txHash : Hex)
    : Outcome ConfirmationResult :=
  if spoofTransactions then
    match parseSpoofTxHash txHash with
    | None => Fulfilled unconfirmed
    | Some spoofTx =>
        if negb (DemoLane_eqb (spoofLane spoofTx) lane) then
          Fulfilled unconfirmed
        else if now - spoofCreatedAtMs spoofTx
                <? SPOOF_CONFIRMATION_DELAY_MS_BY_LANE lane then
          Fulfilled unconfirmed
        else
          Fulfilled {| confirmed := true;
                       method := SPOOF_METHOD_BY_LANE lane;
                       blockNumber := None |}
    end
  else
    match lane with
    | flashblocks =>
        match eth_getTransactionReceipt publicClient txHash with
        | Rejected e => Rejected e
        | Fulfilled (Some r) =>
            withBlockNumber (receiptBlockNumber r)
              (fun n => {| confirmed := true; method := receipt;
                           blockNumber := n |})
        | Fulfilled None => Fulfilled unconfirmed
        end
    | normal =>
        match eth_getBlockByNumber publicClient NORMAL_BLOCK_TAG with
        | Rejected e => Rejected e
        | Fulfilled block =>
            let inBlock :=
              match block with
              | Some b =>
                  existsb
                    (fun candidateTxHash =>
                       String.eqb (JsString.toLowerCase candidateTxHash)
                                  (JsString.toLowerCase txHash))
                    (transactions b)
              | None => false
              end in
            if inBlock then
              withBlockNumber
                (match block with Some b => number b | None => None end)
                (fun n => {| confirmed := true; method := latest;
                             blockNumber := n |})
            else Fulfilled unconfirmed
        end
    end.

End CheckLaneConfirmation.

(** *** Sending *)

Record SendResult := { txHash : Hex; from : Hex }.

(** The spoof branch of [sendLaneTransaction]: [now] is [Date.now()]. *)
Definition sendLaneTransactionSpoof (lane : DemoLane) (now : Z)
    (randomBytes : list Byte.byte) : SendResult :=
  {| txHash := buildSpoofTxHash lane (inject_Z now) randomBytes;
     from := SPOOF_FROM_BY_LANE lane |}.

Definition isNonceSyncError (error : JsThrown) : bool :=
  match error with
  | ErrorObject _ msg =>
      let message := JsString.toLowerCase msg in
      JsString.includes "nonce provided for the transaction is lower" message
      || JsString.includes "nonce too low" message
      || JsString.includes "already known" message
  | _ => false
  end.

(** The asynchronous body handed to the send queue, as a tree of its
    effects: an awaited [walletClient.sendTransaction] (continued with the
    way it settles) and a [nonceManager.reset]. *)
Inductive SendProg :=
| Return (hash : Hex)
| Throw (e : JsThrown)
| WalletSend (k : Outcome Hex -> SendProg)
| NonceReset (k : SendProg).

(** How the second [sendTransaction()], returned from the [catch] clause
    without a handler of its own, settles the body. *)
Definition settleAsSend (r : Outcome Hex) : SendProg :=
  match r with
  | Fulfilled hash => Return hash
  | Rejected e => Throw e
  end.

(** [return sendTransaction();] in the [catch] clause. *)
Definition sendTransactionTail : SendProg := WalletSend settleAsSend.

(** What follows [await sendTransaction()] in the [try] block: the hash,
    or the [catch] clause. *)
Definition recoverNonce (r : Outcome Hex) : SendProg :=
  match r with
  | Fulfilled hash => Return hash
  | Rejected error =>
      if negb (isNonceSyncError error) then Throw error
      else NonceReset sendTransactionTail
  end.

(** The body passed to [enqueueSendTransaction] in [sendLaneTransaction]. *)
Definition sendOperation : SendProg := WalletSend recoverNonce.

Inductive SendAction := ActSend | ActReset.

(** Runs a body against the answers of the wallet client, in order.  The
    result is the trace of effects and the way the body settles; [None]
    when the answers run out while a send is awaited. *)
Fixpoint runSend (p : SendProg) (answers : list (Outcome Hex))
    : list SendAction * option (Outcome Hex) :=
  match p with
  | Return hash => ([], Some (Fulfilled hash))
  | Throw e => ([], Some (Rejected e))
  | WalletSend k =>
      match answers with
      | [] => ([ActSend], None)
      | a :: answers' =>
          let '(tr, r) := runSend (k a) answers' in (ActSend :: tr, r)
      end
  | NonceReset k =>
      let '(tr, r) := runSend k answers in (ActReset :: tr, r)
  end.

(** The result of [sendLaneTransaction] in live mode, from the way the
    queued body settles and the address of the demo account.  (Reading the
    private key from the environment is taken to succeed.) *)
Definition sendLaneTransactionLive (accountAddress : Hex)
    (answers : list (Outcome Hex)) : option (Outcome SendResult) :=
  match snd (runSend sendOperation answers) with
  | Some (Fulfilled hash) =>
      Some (Fulfilled {| txHash := hash; from := accountAddress |})
  | Some (Rejected e) => Some (Rejected e)
  | None => None
  end.

(** *** The oldest revision of the live check

    The first revision of [checkLaneConfirmation] in the file: a scan of
    the block under [flashblocksBlockTag] for the flashblocks lane, then,
    for both lanes, a receipt poll guarded by [receipt?.blockNumber]. *)
Section FirstRevision.

Variable flashblocksBlockTag : ConfirmationMethod.
Variable hexToNumber : Hex -> Outcome Z.
Variable publicClient : PublicClient.

(** Truthiness of [receipt?.blockNumber]: present and not the empty string. *)
Definition truthyBlockNumber (r : option RpcTransactionReceipt) : option Hex :=
  match r with
  | Some rc =>
      match receiptBlockNumber rc with
      | Some h => if String.eqb h "" then None else Some h
      | None => None
      end
  | None => None
  end.

Definition receiptPollFirstRevision (txHash : Hex) : Outcome ConfirmationResult :=
  match eth_getTransactionReceipt publicClient txHash with
  | Rejected e => Rejected e
  | Fulfilled r =>
      match truthyBlockNumber r with
      | Some h =>
          match hexToNumber h with
          | Fulfilled v =>
              Fulfilled {| confirmed := true; method := receipt;
                           blockNumber := Some v |}
          | Rejected e => Rejected e
          end
      | None => Fulfilled unconfirmed
      end
  end.

Definition checkLaneConfirmationFirstRevision (lane : DemoLane) (txHash : Hex)
    : Outcome ConfirmationResult :=
  match lane with
  | flashblocks =>
      match eth_getBlockByNumber publicClient flashblocksBlockTag with
      | Rejected e => Rejected e
      | Fulfilled pendingBlock =>
          let inPendingBlock :=
            match pendingBlock with
            | Some b =>
                existsb
                  (fun pendingTxHash =>
                     String.eqb (JsString.toLowerCase pendingTxHash)
                                (JsString.toLowerCase txHash))
                  (transactions b)
            | None => false
            end in
          if inPendingBlock then
            withBlockNumber hexToNumber
              (match pendingBlock with Some b => number b | None => None end)
              (fun n => {| confirmed := true; method := flashblocksBlockTag;
                           blockNumber := n |})
          else receiptPollFirstRevision txHash
      end
  | normal => receiptPollFirstRevision txHash
  end.

End FirstRevision.

End DemoTx.

(** ** The start route ([POST /api/demo/start]) *)

Module StartRoute.
Import DemoTx.

(** A JavaScript number: the three non-finite values and the finite ones. *)
Inductive JsNumber :=
| JsNaN
| JsPosInfinity
| JsNegInfinity
| JsFinite (q : Q).

(** A value of type [unknown], as [request.json()] can produce it. *)
Inductive JsValue :=
| JsUndefined
| JsNull
| JsBoolean (b : bool)
| JsNum (n : JsNumber)
| JsString (s : string)
| JsArray (items : list JsValue)
| JsObject (fields : list (string * JsValue)).

Definition isFinite (n : JsNumber) : bool :=
  match n with
  | JsFinite _ => true
  | _ => false
  end.

(** [a < b] on numbers; every comparison with NaN is false. *)
Definition jsLt (a b : JsNumber) : bool :=
  match a, b with
  | JsNaN, _ | _, JsNaN => false
  | JsPosInfinity, _ => false
  | _, JsNegInfinity => false
  | JsNegInfinity, _ => true
  | _, JsPosInfinity => true
  | JsFinite x, JsFinite y => negb (Qle_bool y x)
  end.

Definition MIN_DURATION_SECONDS : JsNumber := JsFinite 1.
Definition MAX_DURATION_SECONDS : JsNumber := JsFinite 60.

(** [parseDurationSeconds]; [None] is the [null] result. *)
Definition parseDurationSeconds (value : JsValue) : option JsNumber :=
  match value with
  | JsNum n =>
      if negb (isFinite n) then None
      else if jsLt n MIN_DURATION_SECONDS || jsLt MAX_DURATION_SECONDS n
      then None
      else Some n
  | _ => None
  end.

Fixpoint lookupField (key : string) (fields : list (string * JsValue))
    : JsValue :=
  match fields with
  | [] => JsUndefined
  | (k, v) :: rest => if String.eqb k key then v else lookupField key rest
  end.

(** [body.durationSeconds]: the property of an object, [undefined] on the
    other values, and a [TypeError] on [null] and [undefined]. *)
Definition getDurationSeconds (body : JsValue) : Outcome JsValue :=
  match body with
  | JsObject fields => Fulfilled (lookupField "durationSeconds" fields)
  | JsNull | JsUndefined =>
      Rejected (ErrorObject "TypeError"
                  "Cannot read properties of null (reading 'durationSeconds')")
  | _ => Fulfilled JsUndefined
  end.

(** [Math.round(x)] on a finite number: the nearest integer, halves up. *)
Definition mathRound (n : JsNumber) : Z :=
  match n with
  | JsFinite q => Qfloor (q + (1 # 2))
  | _ => 0
  end.

Definition jsTimes1000 (n : JsNumber) : JsNumber :=
  match n with
  | JsFinite q => JsFinite (q * 1000)
  | other => other
  end.

(** What the handler does with a request. *)
Inductive StartResponse :=
| ErrorResponse (error : string) (status : Z)
| RaceStream (durationMs : Z)
| Uncaught (e : JsThrown).

(** [POST]: [json] is the way [request.json()] settles.  [RaceStream d]
    stands for the streamed response, whose start invokes the run core
    [runDemoRace] with [durationMs = d]; the core itself is outside this
    file and is not invoked on any other path. *)
Definition POST (json : Outcome JsValue) : StartResponse :=
  match json with
  | Rejected _ => ErrorResponse "Invalid JSON body" 400
  | Fulfilled body =>
      match getDurationSeconds body with
      | Rejected e => Uncaught e
      | Fulfilled value =>
          match parseDurationSeconds value with
          | None =>
              ErrorResponse "durationSeconds must be a number between 1 and 60"
                400
          | Some durationSeconds =>
              RaceStream (mathRound (jsTimes1000 durationSeconds))
          end
      end
  end.

End StartRoute.

(** ** The client component ([ConfirmationRaceDemo]) *)

Module RaceDemo.
Import ListOps DemoTx.

Inductive LaneStatus := idle | sending | waiting | confirmed | error | stopped.

Record LaneState := {
  status : LaneStatus;
  sendsAttempted : Z;
  confirmationsObserved : Z;
  latestLatencyMs : option Q;
  averageLatencyMs : option Q;
  lastConfirmationMethod : option ConfirmationMethod;
  lastError : option string;
  sendAnimationTick : Z;
  confirmAnimationTick : Z
}.

(** [Record<DemoLane, A>]. *)
Record ByLane (A : Type) := { onFlashblocks : A; onNormal : A }.
Arguments onFlashblocks {A} _.
Arguments onNormal {A} _.

Definition getLane {A} (lane : DemoLane) (m : ByLane A) : A :=
  match lane with
  | flashblocks => onFlashblocks m
  | normal => onNormal m
  end.

(** [{ ...m, [lane]: x }]. *)
Definition setLane {A} (lane : DemoLane) (x : A) (m : ByLane A) : ByLane A :=
  match lane with
  | flashblocks => {| onFlashblocks := x; onNormal := onNormal m |}
  | normal => {| onFlashblocks := onFlashblocks m; onNormal := x |}
  end.

Definition LaneMap := ByLane LaneState.

Definition MAX_RUNTIME_MS : Z := 8000.
Definition CONFIRM_POLL_MS : Z := 90.
Definition LANE_PACKET_ANIMATION_MS (lane : DemoLane) : Q :=
  match lane with
  | flashblocks => 420
  | normal => 560
  end.

Definition initialLane : LaneState :=
  {| status := idle;
     sendsAttempted := 0;
     confirmationsObserved := 0;
     latestLatencyMs := None;
     averageLatencyMs := None;
     lastConfirmationMethod := None;
     lastError := None;
     sendAnimationTick := 0;
     confirmAnimationTick := 0 |}.

Definition INITIAL_LANES : LaneMap :=
  {| onFlashblocks := initialLane; onNormal := initialLane |}.

Definition asErrorMessage (error : JsThrown) : string :=
  match error with
  | ErrorObject _ message => message
  | _ => "Unexpected request failure"
  end.

Definition isInsufficientFundsError (message : string) : bool :=
  let normalized := JsString.toLowerCase message in
  JsString.includes "insufficient funds" normalized
  || JsString.includes "exceeds the balance of the account" normalized
  || JsString.includes "gas * price + value" normalized.

Definition isAbortError (error : JsThrown) : bool :=
  match error with
  | ErrorObject name _ => String.eqb name "AbortError"
  | PlainObject (Some name) => String.eqb name "AbortError"
  | PlainObject None => false
  | Primitive => false
  end.

(** *** The updaters handed to [updateLane] and [setLanes] *)

(** [{ ...current, status: 'sending', sendsAttempted: current.sendsAttempted
    + 1, lastError: null }] *)
Definition toSending (current : LaneState) : LaneState :=
  {| status := sending;
     sendsAttempted := sendsAttempted current + 1;
     confirmationsObserved := confirmationsObserved current;
     latestLatencyMs := latestLatencyMs current;
     averageLatencyMs := averageLatencyMs current;
     lastConfirmationMethod := lastConfirmationMethod current;
     lastError := None;
     sendAnimationTick := sendAnimationTick current;
     confirmAnimationTick := confirmAnimationTick current |}.

(** [{ ...current, status }] *)
Definition withStatus (s : LaneStatus) (current : LaneState) : LaneState :=
  {| status := s;
     sendsAttempted := sendsAttempted current;
     confirmationsObserved := confirmationsObserved current;
     latestLatencyMs := latestLatencyMs current;
     averageLatencyMs := averageLatencyMs current;
     lastConfirmationMethod := lastConfirmationMethod current;
     lastError := lastError current;
     sendAnimationTick := sendAnimationTick current;
     confirmAnimationTick := confirmAnimationTick current |}.

(** [{ ...current, status: 'error', lastError: message }] *)
Definition toError (message : string) (current : LaneState) : LaneState :=
  {| status := error;
     sendsAttempted := sendsAttempted current;
     confirmationsObserved := confirmationsObserved current;
     latestLatencyMs := latestLatencyMs current;
     averageLatencyMs := averageLatencyMs current;
     lastConfirmationMethod := lastConfirmationMethod current;
     lastError := Some message;
     sendAnimationTick := sendAnimationTick current;
     confirmAnimationTick := confirmAnimationTick current |}.

(** [{ ...current, sendAnimationTick: current.sendAnimationTick + 1 }] *)
Definition tickSendAnimation (current : LaneState) : LaneState :=
  {| status := status current;
     sendsAttempted := sendsAttempted current;
     confirmationsObserved := confirmationsObserved current;
     latestLatencyMs := latestLatencyMs current;
     averageLatencyMs := averageLatencyMs current;
     lastConfirmationMethod := lastConfirmationMethod current;
     lastError := lastError current;
     sendAnimationTick := sendAnimationTick current + 1;
     confirmAnimationTick := confirmAnimationTick current |}.

(** The updater run on a confirmation, with the latency of the cycle and
    the method reported by the confirm route. *)
Definition toConfirmed (latencyMs : Q) (confirmationMethod : ConfirmationMethod)
    (current : LaneState) : LaneState :=
  let nextConfirmations := confirmationsObserved current + 1 in
  let totalLatency :=
    ((match averageLatencyMs current with Some a => a | None => 0 end)
     * inject_Z (confirmationsObserved current) + latencyMs)%Q in
  {| status := confirmed;
     sendsAttempted := sendsAttempted current;
     confirmationsObserved := nextConfirmations;
     latestLatencyMs := Some latencyMs;
     averageLatencyMs := Some (totalLatency / inject_Z nextConfirmations)%Q;
     lastConfirmationMethod :=
       match confirmationMethod with
       | none => None
       | m => Some m
       end;
     lastError := lastError current;
     sendAnimationTick := sendAnimationTick current;
     confirmAnimationTick := confirmAnimationTick current + 1 |}.

(** *** The state of the component

    The state and the refs the run logic reads and writes.  The wallet
    snapshot and its polling, the interval that refreshes [remainingMs]
    and the clean-up on unmount are left out, as is the set of abort
    controllers: aborting only makes pending requests settle with an
    [AbortError], and a pending request may here settle in any way at any
    time. *)

(** A pending send-animation timer: the lane and token its callback
    closes over, and its delay. *)
Record AnimationTimer := {
  timerLane : DemoLane;
  timerToken : Z;
  timerDelayMs : Q
}.

Record Component := {
  isRunning : bool;
  lanes : LaneMap;
  remainingMs : Z;
  fatalErrorMessage : option string;
  runTokenRef : Z;
  runDeadlineRef : option Z;
  (** whether an auto-stop timer is armed (the ref holds its identifier) *)
  stopTimerRef : bool;
  confirmAnimationUntilRef : ByLane Q;
  animationTimersRef : list AnimationTimer
}.

(** The readings of [Date.now()] and [performance.now()] during one
    uninterrupted piece of execution. *)
Record Clock := { dateNow : Z; performanceNow : Q }.

Definition withLanes (f : LaneMap -> LaneMap) (c : Component) : Component :=
  {| isRunning := isRunning c;
     lanes := f (lanes c);
     remainingMs := remainingMs c;
     fatalErrorMessage := fatalErrorMessage c;
     runTokenRef := runTokenRef c;
     runDeadlineRef := runDeadlineRef c;
     stopTimerRef := stopTimerRef c;
     confirmAnimationUntilRef := confirmAnimationUntilRef c;
     animationTimersRef := animationTimersRef c |}.

(** [updateLane(lane, updater)] *)
Definition updateLane (lane : DemoLane) (updater : LaneState -> LaneState)
    (c : Component) : Component :=
  withLanes (fun current => setLane lane (updater (getLane lane current)) current) c.

Definition isActiveRun (c : Component) (clk : Clock) (token : Z) : bool :=
  match runDeadlineRef c with
  | Some deadline => (runTokenRef c =? token) && (dateNow clk <? deadline)
  | None => false
  end.

Definition setStoppedStatuses (current : LaneMap) : LaneMap :=
  {| onFlashblocks := withStatus stopped (onFlashblocks current);
     onNormal := withStatus stopped (onNormal current) |}.

Definition stopRun (c : Component) : Component :=
  {| isRunning := false;
     lanes := setStoppedStatuses (lanes c);
     remainingMs := 0;
     fatalErrorMessage := fatalErrorMessage c;
     runTokenRef := runTokenRef c + 1;
     runDeadlineRef := None;
     stopTimerRef := false;
     confirmAnimationUntilRef := {| onFlashblocks := 0%Q; onNormal := 0%Q |};
     animationTimersRef := [] |}.

Definition setFatalErrorMessage (message : string) (c : Component) : Component :=
  {| isRunning := isRunning c;
     lanes := lanes c;
     remainingMs := remainingMs c;
     fatalErrorMessage := Some message;
     runTokenRef := runTokenRef c;
     runDeadlineRef := runDeadlineRef c;
     stopTimerRef := stopTimerRef c;
     confirmAnimationUntilRef := confirmAnimationUntilRef c;
     animationTimersRef := animationTimersRef c |}.

(** [triggerLaneSendAnimation] with [scheduleLaneSendAnimation]: one more
    pending timer. *)
Definition triggerLaneSendAnimation (clk : Clock) (lane : DemoLane) (token : Z)
    (c : Component) : Component :=
  let blockedUntil := getLane lane (confirmAnimationUntilRef c) in
  let delayMs := Qmax 0 (blockedUntil - performanceNow clk) in
  {| isRunning := isRunning c;
     lanes := lanes c;
     remainingMs := remainingMs c;
     fatalErrorMessage := fatalErrorMessage c;
     runTokenRef := runTokenRef c;
     runDeadlineRef := runDeadlineRef c;
     stopTimerRef := stopTimerRef c;
     confirmAnimationUntilRef := confirmAnimationUntilRef c;
     animationTimersRef :=
       animationTimersRef c ++
       [{| timerLane := lane; timerToken := token; timerDelayMs := delayMs |}] |}.

(** [confirmAnimationUntilRef.current[lane] = until] *)
Definition setConfirmAnimationUntil (lane : DemoLane) (until : Q)
    (c : Component) : Component :=
  {| isRunning := isRunning c;
     lanes := lanes c;
     remainingMs := remainingMs c;
     fatalErrorMessage := fatalErrorMessage c;
     runTokenRef := runTokenRef c;
     runDeadlineRef := runDeadlineRef c;
     stopTimerRef := stopTimerRef c;
     confirmAnimationUntilRef := setLane lane until (confirmAnimationUntilRef c);
     animationTimersRef := animationTimersRef c |}.

Definition laneName (lane : DemoLane) : string :=
  match lane with
  | flashblocks => "flashblocks"
  | normal => "normal"
  end.

(** *** [runLaneLoop] as a resumable computation

    A call of [runLaneLoop] runs until its next [await] and is resumed
    when the awaited promise settles.  [LoopPoint] names the awaits of the
    function, with the local variables alive across them. *)

Inductive LoopPoint :=
| AwaitSend (sendStartAt : Q)
| SleepAfterError
| AwaitConfirm (sendStartAt : Q) (txHash : Hex) (wasConfirmed : bool)
    (confirmationMethod : ConfirmationMethod)
| SleepBetweenPolls (sendStartAt : Q) (txHash : Hex) (wasConfirmed : bool)
    (confirmationMethod : ConfirmationMethod)
| Returned.

(** A request issued to one of the two routes, with the token of the loop
    that issued it. *)
Inductive Call :=
| SendCall (lane : DemoLane) (token : Z)
| ConfirmCall (lane : DemoLane) (token : Z) (txHash : Hex).

Definition callToken (c : Call) : Z :=
  match c with
  | SendCall _ token => token
  | ConfirmCall _ token _ => token
  end.

Definition Resumed : Type := Component * LoopPoint * list Call.

(** The head of the outer [while]: the test, the [sending] update and the
    send request, up to [await postJson('/api/demo/send')]. *)
Definition loopHead (clk : Clock) (lane : DemoLane) (token : Z)
    (c : Component) : Resumed :=
  if isActiveRun c clk token then
    let sendStartAt := performanceNow clk in
    (updateLane lane toSending c, AwaitSend sendStartAt, [SendCall lane token])
  else (c, Returned, []).

(** After the inner [while]: [continue] without a confirmation, or record
    the confirmation; then the head of the outer loop again. *)
Definition afterPoll (clk : Clock) (lane : DemoLane) (token : Z)
    (sendStartAt : Q) (wasConfirmed : bool)
    (confirmationMethod : ConfirmationMethod) (c : Component) : Resumed :=
  if negb wasConfirmed || negb (isActiveRun c clk token) then
    loopHead clk lane token c
  else
    let latencyMs := (performanceNow clk - sendStartAt)%Q in
    let c1 :=
      setConfirmAnimationUntil lane
        (performanceNow clk + LANE_PACKET_ANIMATION_MS lane)%Q c in
    let c2 := updateLane lane (toConfirmed latencyMs confirmationMethod) c1 in
    loopHead clk lane token c2.

(** The head of the inner [while]: the test and the confirm request, up to
    [await postJson('/api/demo/confirm')]. *)
Definition pollHead (clk : Clock) (lane : DemoLane) (token : Z)
    (sendStartAt : Q) (txHash : Hex) (wasConfirmed : bool)
    (confirmationMethod : ConfirmationMethod) (c : Component) : Resumed :=
  if isActiveRun c clk token && negb wasConfirmed then
    (c, AwaitConfirm sendStartAt txHash wasConfirmed confirmationMethod,
     [ConfirmCall lane token txHash])
  else afterPoll clk lane token sendStartAt wasConfirmed confirmationMethod c.

(** The end of the body of the inner [while]: sleep, or test again. *)
Definition afterAttempt (clk : Clock) (lane : DemoLane) (token : Z)
    (sendStartAt : Q) (txHash : Hex) (wasConfirmed : bool)
    (confirmationMethod : ConfirmationMethod) (c : Component) : Resumed :=
  if negb wasConfirmed && isActiveRun c clk token then
    (c, SleepBetweenPolls sendStartAt txHash wasConfirmed confirmationMethod, [])
  else pollHead clk lane token sendStartAt txHash wasConfirmed
         confirmationMethod c.

(** Resumption after [await postJson('/api/demo/send')]. *)
Definition afterSend (clk : Clock) (lane : DemoLane) (token : Z)
    (sendStartAt : Q) (r : Outcome SendResult) (c : Component) : Resumed :=
  match r with
  | Fulfilled sendResult =>
      if negb (isActiveRun c clk token) then (c, Returned, [])
      else
        let c1 := triggerLaneSendAnimation clk lane token c in
        let c2 := updateLane lane (withStatus waiting) c1 in
        pollHead clk lane token sendStartAt (txHash sendResult) false none c2
  | Rejected err =>
      if negb (isActiveRun c clk token) || isAbortError err then
        (c, Returned, [])
      else
        let message := asErrorMessage err in
        if isInsufficientFundsError message then
          let c1 := updateLane lane (toError message) c in
          let c2 :=
            setFatalErrorMessage
              ("Demo wallet is out of gas funds (" ++ laneName lane ++
               " lane send failed). Fund the wallet and try again.") c1 in
          (stopRun c2, Returned, [])
        else
          (updateLane lane (toError message) c, SleepAfterError, [])
  end.

(** Resumption after [await postJson('/api/demo/confirm')]. *)
Definition afterConfirm (clk : Clock) (lane : DemoLane) (token : Z)
    (sendStartAt : Q) (txHash : Hex) (wasConfirmed : bool)
    (confirmationMethod : ConfirmationMethod)
    (r : Outcome ConfirmationResult) (c : Component) : Resumed :=
  match r with
  | Fulfilled confirmationResult =>
      afterAttempt clk lane token sendStartAt txHash
        (DemoTx.confirmed confirmationResult) (method confirmationResult) c
  | Rejected err =>
      if negb (isActiveRun c clk token) || isAbortError err then
        (c, Returned, [])
      else
        afterAttempt clk lane token sendStartAt txHash wasConfirmed
          confirmationMethod c
  end.

(** What wakes a suspended loop. *)
Inductive Wakeup :=
| SendSettled (r : Outcome SendResult)
| ConfirmSettled (r : Outcome ConfirmationResult)
| SleepElapsed.

(** Resumes a loop; [None] when the loop is not waiting for this. *)
Definition resume (clk : Clock) (lane : DemoLane) (token : Z)
    (point : LoopPoint) (w : Wakeup) (c : Component) : option Resumed :=
  match point, w with
  | AwaitSend sendStartAt, SendSettled r =>
      Some (afterSend clk lane token sendStartAt r c)
  | SleepAfterError, SleepElapsed => Some (loopHead clk lane token c)
  | AwaitConfirm sendStartAt txHash wasConfirmed confirmationMethod,
    ConfirmSettled r =>
      Some (afterConfirm clk lane token sendStartAt txHash wasConfirmed
              confirmationMethod r c)
  | SleepBetweenPolls sendStartAt txHash wasConfirmed confirmationMethod,
    SleepElapsed =>
      Some (pollHead clk lane token sendStartAt txHash wasConfirmed
              confirmationMethod c)
  | _, _ => None
  end.

(** *** The component with its suspended loops *)

Record Loop := {
  loopLane : DemoLane;
  loopToken : Z;
  loopPoint : LoopPoint
}.

Record System := {
  component : Component;
  loops : list Loop
}.

Inductive Event :=
| StartClicked
| StopClicked
| StopTimerFired
| LoopWakes (i : nat) (w : Wakeup)
| AnimationTimerFired (k : nat).

(** [startRun]: both loops run to their first [await]. *)
Definition startRun (clk : Clock) (s : System) : System * list Call :=
  let c := component s in
  if isRunning c then (s, [])
  else
    let token := runTokenRef c + 1 in
    let deadline := dateNow clk + MAX_RUNTIME_MS in
    let c1 :=
      {| isRunning := true;
         lanes := INITIAL_LANES;
         remainingMs := MAX_RUNTIME_MS;
         fatalErrorMessage := None;
         runTokenRef := token;
         runDeadlineRef := Some deadline;
         stopTimerRef := true;
         confirmAnimationUntilRef := {| onFlashblocks := 0%Q; onNormal := 0%Q |};
         animationTimersRef := animationTimersRef c |} in
    let '(c2, point1, calls1) := loopHead clk flashblocks token c1 in
    let '(c3, point2, calls2) := loopHead clk normal token c2 in
    ({| component := c3;
        loops := loops s ++
                 [{| loopLane := flashblocks; loopToken := token;
                     loopPoint := point1 |};
                  {| loopLane := normal; loopToken := token;
                     loopPoint := point2 |}] |},
     (calls1 ++ calls2)%list).

(** The callback of a send-animation timer. *)
Definition animationTimerCallback (clk : Clock) (t : AnimationTimer)
    (c : Component) : Component :=
  if negb (isActiveRun c clk (timerToken t)) then c
  else updateLane (timerLane t) tickSendAnimation c.

Definition forgetAnimationTimer (k : nat) (c : Component) : Component :=
  {| isRunning := isRunning c;
     lanes := lanes c;
     remainingMs := remainingMs c;
     fatalErrorMessage := fatalErrorMessage c;
     runTokenRef := runTokenRef c;
     runDeadlineRef := runDeadlineRef c;
     stopTimerRef := stopTimerRef c;
     confirmAnimationUntilRef := confirmAnimationUntilRef c;
     animationTimersRef := removeNth k (animationTimersRef c) |}.

(** One event, handled to completion.  An event that is not enabled (a
    timer that is not pending, a loop that waits for something else)
    leaves the system as it is. *)
Definition step (clk : Clock) (e : Event) (s : System) : System * list Call :=
  match e with
  | StartClicked => startRun clk s
  | StopClicked =>
      ({| component := stopRun (component s); loops := loops s |}, [])
  | StopTimerFired =>
      if stopTimerRef (component s) then
        ({| component := stopRun (component s); loops := loops s |}, [])
      else (s, [])
  | LoopWakes i w =>
      match nth_error (loops s) i with
      | Some l =>
          match resume clk (loopLane l) (loopToken l) (loopPoint l) w
                  (component s) with
          | Some (c', point', calls) =>
              ({| component := c';
                  loops := setNth i {| loopLane := loopLane l;
                                       loopToken := loopToken l;
                                       loopPoint := point' |} (loops s) |},
               calls)
          | None => (s, [])
          end
      | None => (s, [])
      end
  | AnimationTimerFired k =>
      match nth_error (animationTimersRef (component s)) k with
      | Some t =>
          ({| component :=
                animationTimerCallback clk t
                  (forgetAnimationTimer k (component s));
              loops := loops s |}, [])
      | None => (s, [])
      end
  end.

(** A sequence of events, each with the clock readings at its time; the
    requests issued on the way, in order. *)
Fixpoint run (s : System) (events : list (Clock * Event))
    : System * list Call :=
  match events with
  | [] => (s, [])
  | (clk, e) :: rest =>
      let '(s1, calls1) := step clk e s in
      let '(s2, calls2) := run s1 rest in
      (s2, (calls1 ++ calls2)%list)
  end.

Definition initialComponent : Component :=
  {| isRunning := false;
     lanes := INITIAL_LANES;
     remainingMs := MAX_RUNTIME_MS;
     fatalErrorMessage := None;
     runTokenRef := 0;
     runDeadlineRef := None;
     stopTimerRef := false;
     confirmAnimationUntilRef := {| onFlashblocks := 0%Q; onNormal := 0%Q |};
     animationTimersRef := [] |}.

Definition initialSystem : System :=
  {| component := initialComponent; loops := [] |}.

End RaceDemo.

(** ** The send queue of [demo-tx.ts] ([enqueueSendTransaction])

    [sendTransactionQueue] is a promise; [enqueueSendTransaction(operation)]
    registers [operation] as the reaction, on fulfilment and on rejection
    alike, of the promise the variable holds, and replaces it by a promise
    that settles, always by fulfilment, when the result of [operation]
    has settled.  The queue below keeps, for each call in order, the
    promise its body is chained on and how far its body has run. *)

Module SendQueue.
Import ListOps DemoTx.

(** Modelled from the spec: the nonce state of the shared signer, kept by
    the nonce manager of the wallet library, which is not part of these
    sources.  It tracks the next nonce to use; a send uses that nonce; the
    state advances on every successful send; the reset re-reads the next
    nonce from the authoritative source. *)
Record NonceState := { nextNonce : Z }.

(** Modelled from the spec: the state after a successful send. *)
Definition advance (n : NonceState) : NonceState :=
  {| nextNonce := nextNonce n + 1 |}.

(** Modelled from the spec: the state after a reset, [source] being the
    next nonce the authoritative source reports. *)
Definition resetFromSource (source : Z) : NonceState :=
  {| nextNonce := source |}.

Inductive OpState :=
| Queued
| Running (k : Outcome Hex -> SendProg)
| Settled (r : Outcome Hex).

(** One call of [enqueueSendTransaction], made by [sendLaneTransaction]
    for the lane [caller]: [chainedOn] is the value of
    [sendTransactionQueue] at the call, [None] for the initial
    [Promise.resolve()] and [Some j] for the promise left by call [j]. *)
Record Entry := {
  caller : DemoLane;
  chainedOn : option nat;
  opState : OpState
}.

Record Queue := {
  entries : list Entry;
  sendTransactionQueue : option nat;
  nonceState : NonceState
}.

Definition emptyQueue (n : NonceState) : Queue :=
  {| entries := []; sendTransactionQueue := None; nonceState := n |}.

Inductive Observation :=
| SendIssued (i : nat) (nonce : Z)
| SendAnswered (i : nat) (ok : bool)
| NonceWasReset (i : nat).

Definition isSettled (st : OpState) : bool :=
  match st with
  | Settled _ => true
  | _ => false
  end.

(** Whether a queue promise has settled: the promise left by call [j]
    settles when the body of call [j] has. *)
Definition promiseSettled (q : Queue) (p : option nat) : bool :=
  match p with
  | None => true
  | Some j =>
      match nth_error (entries q) j with
      | Some e => isSettled (opState e)
      | None => false
      end
  end.

(** [enqueueSendTransaction(operation)], called for [lane]. *)
Definition enqueueSendTransaction (lane : DemoLane) (q : Queue) : Queue :=
  {| entries := entries q ++
                [{| caller := lane; chainedOn := sendTransactionQueue q;
                    opState := Queued |}];
     sendTransactionQueue := Some (List.length (entries q));
     nonceState := nonceState q |}.

(** Runs the body of call [i] up to its next awaited send, or to its end.
    A send is issued with the next nonce; [source] is what a re-read of
    the authoritative source gives. *)
Fixpoint progress (i : nat) (source : Z) (p : SendProg) (n : NonceState)
    : OpState * NonceState * list Observation :=
  match p with
  | Return hash => (Settled (Fulfilled hash), n, [])
  | Throw e => (Settled (Rejected e), n, [])
  | WalletSend k => (Running k, n, [SendIssued i (nextNonce n)])
  | NonceReset k =>
      let '(st, n', obs) := progress i source k (resetFromSource source) in
      (st, n', NonceWasReset i :: obs)
  end.

Definition isFulfilled {A} (r : Outcome A) : bool :=
  match r with
  | Fulfilled _ => true
  | Rejected _ => false
  end.

Inductive QueueEvent :=
| Enqueue (lane : DemoLane)
| Start (i : nat)
| Answer (i : nat) (r : Outcome Hex).

Definition setEntry (i : nat) (e : Entry) (n : NonceState) (q : Queue) : Queue :=
  {| entries := setNth i e (entries q);
     sendTransactionQueue := sendTransactionQueue q;
     nonceState := n |}.

(** One event.  [Start i] runs the reaction of call [i], which can happen
    only once the promise it is chained on has settled; [Answer i r]
    settles the send awaited by call [i].  An event that is not enabled
    changes nothing. *)
Definition step (source : Z) (e : QueueEvent) (q : Queue)
    : Queue * list Observation :=
  match e with
  | Enqueue lane => (enqueueSendTransaction lane q, [])
  | Start i =>
      match nth_error (entries q) i with
      | Some en =>
          match opState en with
          | Queued =>
              if promiseSettled q (chainedOn en) then
                let '(st, n, obs) :=
                  progress i source sendOperation (nonceState q) in
                (setEntry i {| caller := caller en; chainedOn := chainedOn en;
                               opState := st |} n q,
                 obs)
              else (q, [])
          | _ => (q, [])
          end
      | None => (q, [])
      end
  | Answer i r =>
      match nth_error (entries q) i with
      | Some en =>
          match opState en with
          | Running k =>
              let n1 := if isFulfilled r then advance (nonceState q)
                        else nonceState q in
              let '(st, n2, obs) := progress i source (k r) n1 in
              (setEntry i {| caller := caller en; chainedOn := chainedOn en;
                             opState := st |} n2 q,
               SendAnswered i (isFulfilled r) :: obs)
          | _ => (q, [])
          end
      | None => (q, [])
      end
  end.

Fixpoint run (q : Queue) (events : list (Z * QueueEvent))
    : Queue * list Observation :=
  match events with
  | [] => (q, [])
  | (source, e) :: rest =>
      let '(q1, obs1) := step source e q in
      let '(q2, obs2) := run q1 rest in
      (q2, (obs1 ++ obs2)%list)
  end.

Definition isRunning (st : OpState) : bool :=
  match st with
  | Running _ => true
  | _ => false
  end.

(** The number of sends in flight. *)
Definition inFlight (q : Queue) : nat :=
  List.length (filter (fun e => isRunning (opState e)) (entries q)).

End SendQueue.


(** ** The demo key and the wallet snapshot ([demo-tx.ts], wallet route) *)

Module DemoWallet.
Import DemoTx.

(** [process.env]: the variables that are set, with their values. *)
Definition Env := string -> option string.

Definition DEMO_PRIVATE_KEY_ENV : string := "DEMO_PRIVATE_KEY".
Definition LEGACY_FLASHBLOCKS_PRIVATE_KEY_ENV : string :=
  "DEMO_FLASHBLOCKS_PRIVATE_KEY".
Definition LEGACY_NORMAL_PRIVATE_KEY_ENV : string := "DEMO_NORMAL_PRIVATE_KEY".

(** The value of [process.env[name]] when it is truthy: set, and not the
    empty string. *)
Definition truthyEnv (env : Env) (name : string) : option string :=
  match env name with
  | Some value => if String.eqb value "" then None else Some value
  | None => None
  end.

(** [resolvePrivateKeyFromEnv]: the name and the value of the first of
    the three variables that is truthy; throws when none is.  [Fulfilled]
    and [Rejected] stand here for a return and a throw. *)
Definition resolvePrivateKeyFromEnv (env : Env) : Outcome (string * string) :=
  match truthyEnv env DEMO_PRIVATE_KEY_ENV with
  | Some preferred => Fulfilled (DEMO_PRIVATE_KEY_ENV, preferred)
  | None =>
      match truthyEnv env LEGACY_FLASHBLOCKS_PRIVATE_KEY_ENV with
      | Some legacyFlashblocks =>
          Fulfilled (LEGACY_FLASHBLOCKS_PRIVATE_KEY_ENV, legacyFlashblocks)
      | None =>
          match truthyEnv env LEGACY_NORMAL_PRIVATE_KEY_ENV with
          | Some legacyNormal =>
              Fulfilled (LEGACY_NORMAL_PRIVATE_KEY_ENV, legacyNormal)
          | None =>
              Rejected (ErrorObject "Error"
                          ("Missing required env var: " ++ DEMO_PRIVATE_KEY_ENV))
          end
      end
  end.

Definition isHexChar (c : ascii) : bool :=
  match JsString.hexValue c with
  | Some _ => true
  | None => false
  end.

Fixpoint allHexChars (s : string) : bool :=
  match s with
  | EmptyString => true
  | String c s' => isHexChar c && allHexChars s'
  end.

(** [/^0x[0-9a-fA-F]{64}$/.test(s)] *)
Definition isHex64 (s : string) : bool :=
  JsString.startsWith "0x" s
  && (String.length (JsString.drop 2 s) =? 64)%nat
  && allHexChars (JsString.drop 2 s).

(** [normalizePrivateKey] *)
Definition normalizePrivateKey (env : Env) : Outcome Hex :=
  match resolvePrivateKeyFromEnv env with
  | Rejected e => Rejected e
  | Fulfilled (envName, value) =>
      let normalized :=
        if JsString.startsWith "0x" value then value else "0x" ++ value in
      if negb (isHex64 normalized) then
        Rejected (ErrorObject "Error"
                    ("Invalid private key format for " ++ envName))
      else Fulfilled normalized
  end.

Record WalletSnapshot := {
  address : option Hex;
  balanceWei : option string;
  balanceEth : option string;
  spoofMode : bool;
  available : bool
}.

Section Snapshot.

Variable env : Env.
(** [process.env.DEMO_SPOOF_TRANSACTIONS === 'true'] *)
Variable spoofTransactions : bool.
(** The address of the account that the wallet library derives from a
    key; the derivation throws on a key outside the range of the curve. *)
Variable privateKeyToAccount : Hex -> Outcome Hex.
(** The wallet library's [formatEther]. *)
Variable formatEther : Z -> string.
(** The answer to [publicClient.getBalance], in wei. *)
Variable getBalance : Hex -> Outcome Z.

(** [getDemoAccount]: the address of the account of the configured key.
    [getDemoWalletProvider] keeps the provider made for a key and makes a
    new one only for another key, so the account is a function of the
    key. *)
Definition getDemoAccount : Outcome Hex :=
  match normalizePrivateKey env with
  | Rejected e => Rejected e
  | Fulfilled privateKey => privateKeyToAccount privateKey
  end.

(** [getDemoAccountOrNull] *)
Definition getDemoAccountOrNull : option Hex :=
  match getDemoAccount with
  | Fulfilled account => Some account
  | Rejected _ => None
  end.

(** [getDemoWalletSnapshot] *)
Definition getDemoWalletSnapshot : Outcome WalletSnapshot :=
  match getDemoAccountOrNull with
  | None =>
      Fulfilled {| address := None;
                   balanceWei := None;
                   balanceEth := None;
                   spoofMode := spoofTransactions;
                   available := false |}
  | Some account =>
      match getBalance account with
      | Rejected e => Rejected e
      | Fulfilled wei =>
          Fulfilled {| address := Some account;
                       balanceWei :=
                         Some (DecimalString.NilZero.string_of_int (Z.to_int wei));
                       balanceEth := Some (formatEther wei);
                       spoofMode := spoofTransactions;
                       available := true |}
      end
  end.

(** What the wallet route answers: the snapshot, or an error with its
    status. *)
Inductive WalletResponse :=
| SnapshotJson (snapshot : WalletSnapshot)
| WalletError (error : string) (status : Z).

(** [GET] of the wallet route. *)
Definition GET : WalletResponse :=
  match getDemoWalletSnapshot with
  | Fulfilled snapshot => SnapshotJson snapshot
  | Rejected e =>
      let message :=
        match e with
        | ErrorObject _ message => message
        | _ => "Failed to fetch demo wallet snapshot"
        end in
      WalletError message 500
  end.

End Snapshot.

End DemoWallet.

(** ** The send and confirm routes *)

Module DemoRoutes.
Import DemoTx StartRoute.

(** What a route handler does with a request: a JSON payload with status
    200, an error with its status, or an exception that leaves the
    handler. *)
Inductive RouteResponse (A : Type) :=
| Json (payload : A)
| ErrorJson (error : string) (status : Z)
| Throws (e : JsThrown).
Arguments Json {A} payload.
Arguments ErrorJson {A} error status.
Arguments Throws {A} e.

(** The lane a value names; [isDemoLane] holds of the values that name
    one. *)
Definition toDemoLane (value : JsValue) : option DemoLane :=
  match value with
  | JsString s =>
      if String.eqb s "flashblocks" then Some flashblocks
      else if String.eqb s "normal" then Some normal
      else None
  | _ => None
  end.

Definition isDemoLane (value : JsValue) : bool :=
  match toDemoLane value with
  | Some _ => true
  | None => false
  end.

(** [/^0x[0-9a-fA-F]{64}$/.test(s)] *)
Definition isHash (s : string) : bool := DemoWallet.isHex64 s.

(** [isTransactionHash] of the confirm route. *)
Definition isTransactionHash (value : JsValue) : bool :=
  match value with
  | JsString s => isHash s
  | _ => false
  end.

(** [body.key] in a destructuring of [body]: a [TypeError] on [null] and
    [undefined], the property of an object, [undefined] elsewhere. *)
Definition getField (key : string) (body : JsValue) : Outcome JsValue :=
  match body with
  | JsObject fields => Fulfilled (lookupField key fields)
  | JsNull | JsUndefined =>
      Rejected (ErrorObject "TypeError"
                  "Cannot destructure property of null or undefined")
  | _ => Fulfilled JsUndefined
  end.

Definition quote : string := String (ascii_of_nat 34) EmptyString.

Definition laneError : string :=
  "lane must be " ++ quote ++ "flashblocks" ++ quote ++ " or "
  ++ quote ++ "normal" ++ quote.

(** [error instanceof Error ? error.message : fallback] *)
Definition messageOr (fallback : string) (e : JsThrown) : string :=
  match e with
  | ErrorObject _ message => message
  | _ => fallback
  end.

(** [POST] of the confirm route: [json] is the way [request.json()]
    settles and [check] the call of [checkLaneConfirmation]. *)
Definition confirmPOST
    (check : DemoLane -> Hex -> Outcome ConfirmationResult)
    (json : Outcome JsValue) : RouteResponse ConfirmationResult :=
  match json with
  | Rejected _ => ErrorJson "Invalid JSON body" 400
  | Fulfilled body =>
      match getField "lane" body, getField "txHash" body with
      | Fulfilled lane, Fulfilled txHash =>
          match toDemoLane lane with
          | None => ErrorJson laneError 400
          | Some l =>
              if negb (isTransactionHash txHash) then
                ErrorJson "txHash must be a 32-byte hex string" 400
              else
                match txHash with
                | JsString hash =>
                    match check l hash with
                    | Fulfilled result => Json result
                    | Rejected e =>
                        ErrorJson
                          (messageOr "Failed to check confirmation status" e)
                          500
                    end
                | _ => ErrorJson "txHash must be a 32-byte hex string" 400
                end
          end
      | Rejected e, _ => Throws e
      | _, Rejected e => Throws e
      end
  end.

(** [POST] of the send route: [send] is the call of
    [sendLaneTransaction]. *)
Definition sendPOST (send : DemoLane -> Outcome SendResult)
    (json : Outcome JsValue) : RouteResponse SendResult :=
  match json with
  | Rejected _ => ErrorJson "Invalid JSON body" 400
  | Fulfilled body =>
      match getField "lane" body with
      | Rejected e => Throws e
      | Fulfilled lane =>
          match toDemoLane lane with
          | None => ErrorJson laneError 400
          | Some l =>
              match send l with
              | Fulfilled result => Json result
              | Rejected e =>
                  ErrorJson (messageOr "Failed to send transaction" e) 500
              end
          end
      end
  end.

(** [sendLaneTransaction]: the spoof branch with the clock and the random
    bytes it draws, or the way the live branch settles. *)
Definition sendLaneTransaction (spoofTransactions : bool) (now : Z)
    (randomBytes : list Byte.byte) (live : Outcome SendResult)
    (lane : DemoLane) : Outcome SendResult :=
  if spoofTransactions then
    Fulfilled (sendLaneTransactionSpoof lane now randomBytes)
  else live.

End DemoRoutes.

(** ** The stream of the start route

    The response of the start route is a stream fed by the run core.  The
    handler keeps a flag [closed]; [controllerLog] lists the calls of
    [controller.enqueue] and [controller.close] it has made, in order, and
    [runAborted] is the state of the signal given to the run core. *)

Module StartStream.

(** An event of the run core, as the text written for it, or the closing
    event the handler writes itself when the core fails. *)
Inductive StreamEvent :=
| CoreEvent (line : string)
| EndError (endedAtMs : Z).

Inductive ControllerCall :=
| Enqueue (event : StreamEvent)
| Close.

Record Stream := {
  closed : bool;
  controllerLog : list ControllerCall;
  runAborted : bool
}.

(** The state once [start(controller)] has set up the stream. *)
Definition started : Stream :=
  {| closed := false; controllerLog := []; runAborted := false |}.

(** [close] *)
Definition close (s : Stream) : Stream :=
  if closed s then s
  else {| closed := true;
          controllerLog := controllerLog s ++ [Close];
          runAborted := runAborted s |}.

(** [pushEvent] *)
Definition pushEvent (event : StreamEvent) (s : Stream) : Stream :=
  if closed s then s
  else {| closed := closed s;
          controllerLog := controllerLog s ++ [Enqueue event];
          runAborted := runAborted s |}.

(** [runAbortController?.abort()] *)
Definition abortRun (s : Stream) : Stream :=
  {| closed := closed s;
     controllerLog := controllerLog s;
     runAborted := true |}.

(** What can happen to the stream: an event of the core ([onEvent]), the
    abort of the request ([handleRequestAbort]), the rejection of the core
    (the [catch] callback, with [Date.now()]), its settlement (the
    [finally] callback) and the cancellation by the reader ([cancel]). *)
Inductive StreamAction :=
| OnEvent (event : StreamEvent)
| RequestAborted
| CoreRejected (now : Z)
| CoreSettled
| Cancelled.

Definition act (s : Stream) (a : StreamAction) : Stream :=
  match a with
  | OnEvent event => pushEvent event s
  | RequestAborted => close (abortRun s)
  | CoreRejected now =>
      if closed s then s else pushEvent (EndError now) s
  | CoreSettled => close s
  | Cancelled => abortRun s
  end.

End StartStream.


(* ================================================================== *)
(** * Notions used in the statements *)
(* ================================================================== *)

Module HexDefs.
Import JsString DemoTx.

Definition isLowerHexChar (c : ascii) : bool :=
  let n := nat_of_ascii c in
  (((48 <=? n) && (n <=? 57)) || ((97 <=? n) && (n <=? 102)))%nat.

Fixpoint allLowerHex (s : string) : bool :=
  match s with
  | EmptyString => true
  | String c s' => isLowerHexChar c && allLowerHex s'
  end.

(** The value read from a string of digits, starting from [a]. *)
Fixpoint hexVal (a : Z) (s : string) : Z :=
  match s with
  | EmptyString => a
  | String c s' =>
      match hexValue c with
      | Some d => hexVal (a * 16 + d) s'
      | None => a
      end
  end.

(** The twelve-digit timestamp field written by [buildSpoofTxHash]. *)
Definition timestampField (t : Z) : string :=
  sliceLast 12 (padStart 12 "0" (toString16 t)).

End HexDefs.

(** A duration the start route is meant to accept: a finite number between
    1 and 60 seconds inclusive. *)
Definition acceptableDuration (value : StartRoute.JsValue) (q : Q) : Prop :=
  value = StartRoute.JsNum (StartRoute.JsFinite q) /\ (1 <= q)%Q /\ (q <= 60)%Q.

(** The updates a lane state receives in the course of a run: the
    updaters that [runLaneLoop], the send-animation timers and [stopRun]
    hand to [updateLane] and [setLanes]. *)
Inductive LaneUpdate :=
| Sending
| Status (s : RaceDemo.LaneStatus)
| Failed (message : string)
| SendAnimation
| Confirmation (latencyMs : Q) (confirmationMethod : DemoTx.ConfirmationMethod).

Definition applyUpdate (current : RaceDemo.LaneState) (u : LaneUpdate)
    : RaceDemo.LaneState :=
  match u with
  | Sending => RaceDemo.toSending current
  | Status s => RaceDemo.withStatus s current
  | Failed message => RaceDemo.toError message current
  | SendAnimation => RaceDemo.tickSendAnimation current
  | Confirmation latencyMs m => RaceDemo.toConfirmed latencyMs m current
  end.

(** The latencies of the confirmed cycles among the updates, in order. *)
Fixpoint latenciesOf (updates : list LaneUpdate) : list Q :=
  match updates with
  | [] => []
  | Confirmation latencyMs _ :: rest => latencyMs :: latenciesOf rest
  | _ :: rest => latenciesOf rest
  end.

Definition Qsum (l : list Q) : Q := fold_right Qplus 0%Q l.

(** The running mean, stated without division: what the lane state holds
    once the latencies [ls] have been recorded. *)
Definition meanInvariant (st : RaceDemo.LaneState) (ls : list Q) : Prop :=
  RaceDemo.confirmationsObserved st = Z.of_nat (List.length ls) /\
  match ls with
  | [] => True
  | _ :: _ =>
      exists a, RaceDemo.averageLatencyMs st = Some a /\
                (a * inject_Z (Z.of_nat (List.length ls)) == Qsum ls)%Q
  end.

(** Both lanes carry the terminal status. *)
Definition bothStopped (c : RaceDemo.Component) : Prop :=
  RaceDemo.status (RaceDemo.onFlashblocks (RaceDemo.lanes c)) = RaceDemo.stopped /\
  RaceDemo.status (RaceDemo.onNormal (RaceDemo.lanes c)) = RaceDemo.stopped.

(** A sequence of events in which no run is started. *)
Definition noStart (events : list (RaceDemo.Clock * RaceDemo.Event)) : Prop :=
  Forall (fun ce => snd ce <> RaceDemo.StartClicked) events.

(** What decides whether a run goes on: the running flag, the token, the
    deadline and the fatal notification. *)
Definition runControl (c : RaceDemo.Component)
    : bool * Z * option Z * option string :=
  (RaceDemo.isRunning c, RaceDemo.runTokenRef c, RaceDemo.runDeadlineRef c,
   RaceDemo.fatalErrorMessage c).

(** The notification shown when the demo wallet cannot pay for a send. *)
Definition outOfGasMessage (lane : DemoTx.DemoLane) : string :=
  "Demo wallet is out of gas funds (" ++ RaceDemo.laneName lane ++
  " lane send failed). Fund the wallet and try again.".

(** A reading of the observations of the send queue, one at a time: no
    send in flight (with the index of the next call to start and, right
    after a successful send, the nonce the next send must use), a send in
    flight, a send that has just failed, a nonce state that has just been
    reset. *)
Inductive Monitor :=
| MFree (next : nat) (expected : option Z)
| MBusy (i : nat) (nonce : Z)
| MFailed (i : nat)
| MReset (i : nat).

Definition monitor (m : Monitor) (o : SendQueue.Observation) : option Monitor :=
  match m, o with
  | MFree d e, SendQueue.SendIssued i n =>
      if (i =? d)%nat && match e with Some x => n =? x | None => true end
      then Some (MBusy i n) else None
  | MBusy i n, SendQueue.SendAnswered i' ok =>
      if (i' =? i)%nat
      then Some (if ok then MFree (S i) (Some (n + 1)) else MFailed i)
      else None
  | MFailed i, SendQueue.NonceWasReset i' =>
      if (i' =? i)%nat then Some (MReset i) else None
  | MFailed i, SendQueue.SendIssued j n =>
      if (j =? S i)%nat then Some (MBusy j n) else None
  | MReset i, SendQueue.SendIssued j n =>
      if (j =? i)%nat then Some (MBusy j n) else None
  | _, _ => None
  end.

Fixpoint monitorAll (m : Monitor) (tr : list SendQueue.Observation)
    : option Monitor :=
  match tr with
  | [] => Some m
  | o :: rest =>
      match monitor m o with
      | Some m' => monitorAll m' rest
      | None => None
      end
  end.


(** The promise each call is chained on is the one left by the call before
    it, and [sendTransactionQueue] is the one left by the last call. *)
Definition chained (q : SendQueue.Queue) : Prop :=
  (forall j e, nth_error (SendQueue.entries q) j = Some e ->
               SendQueue.chainedOn e = match j with O => None | S j' => Some j' end) /\
  SendQueue.sendTransactionQueue q =
    match List.length (SendQueue.entries q) with O => None | S k => Some k end.

(** The calls before [d] have settled and those after [d] have not
    started; call [d] itself is in flight, with one of the two
    continuations of the body, or has not started. *)
Definition shapeAt (d : nat) (busy : bool) (j : nat) (st : SendQueue.OpState)
    : Prop :=
  ((j < d)%nat -> SendQueue.isSettled st = true) /\
  ((d < j)%nat -> st = SendQueue.Queued) /\
  (j = d ->
   if busy
   then st = SendQueue.Running DemoTx.recoverNonce \/
        st = SendQueue.Running DemoTx.settleAsSend
   else st = SendQueue.Queued).

Definition queueShape (q : SendQueue.Queue) (d : nat) (busy : bool) : Prop :=
  forall j e,
    nth_error (SendQueue.entries q) j = Some e ->
    shapeAt d busy j (SendQueue.opState e).

(** The queue agrees with the monitor. *)
Definition agrees (q : SendQueue.Queue) (m : Monitor) : Prop :=
  chained q /\
  match m with
  | MFree d e =>
      queueShape q d false /\ (d <= List.length (SendQueue.entries q))%nat /\
      forall x, e = Some x ->
                SendQueue.nextNonce (SendQueue.nonceState q) = x
  | MBusy i n =>
      queueShape q i true /\ (i < List.length (SendQueue.entries q))%nat /\
      SendQueue.nextNonce (SendQueue.nonceState q) = n
  | MFailed i =>
      queueShape q (S i) false /\ (i < List.length (SendQueue.entries q))%nat
  | MReset _ => False
  end.

(** A lane state obtained from the fresh one by lane updates. *)
Definition fromFresh (st : RaceDemo.LaneState) : Prop :=
  exists updates, st = fold_left applyUpdate updates RaceDemo.initialLane.

(** Each lane of [b] is obtained from the same lane of [a] by lane
    updates. *)
Definition evolves (a b : RaceDemo.LaneMap) : Prop :=
  forall lane, exists updates,
    RaceDemo.getLane lane b =
    fold_left applyUpdate updates (RaceDemo.getLane lane a).


(** The phrases by which a send failure is recognised as a nonce that is
    out of step, and as a lack of funds. *)
Definition nonceSyncPhrases : list string :=
  ["nonce provided for the transaction is lower"; "nonce too low";
   "already known"].

Definition insufficientFundsPhrases : list string :=
  ["insufficient funds"; "exceeds the balance of the account";
   "gas * price + value"].

(** A string occurs in another one. *)
Definition occursIn (p s : string) : Prop :=
  exists a b, s = a ++ p ++ b.

(** Sixty-four hexadecimal digits without a prefix. *)
Definition isBareHex64 (s : string) : bool :=
  (String.length s =? 64)%nat && DemoWallet.allHexChars s.

(** The send requests among [calls] that the loops of the run with
    [token] issued for [lane]. *)
Definition isSendOf (lane : DemoTx.DemoLane) (token : Z)
    (call : RaceDemo.Call) : bool :=
  match call with
  | RaceDemo.SendCall l t => DemoTx.DemoLane_eqb l lane && (t =? token)
  | RaceDemo.ConfirmCall _ _ _ => false
  end.

Definition sendRequests (lane : DemoTx.DemoLane) (token : Z)
    (calls : list RaceDemo.Call) : Z :=
  Z.of_nat (List.length (filter (isSendOf lane token) calls)).

(** [token] is the token of the run that started last, whose send
    requests the counters of the lanes count. *)
Definition sendsCounted (token : Z) (c : RaceDemo.Component)
    (calls : list RaceDemo.Call) : Prop :=
  Forall (fun call => RaceDemo.callToken call <= token) calls /\
  token <= RaceDemo.runTokenRef c /\
  (RaceDemo.runDeadlineRef c <> None -> token = RaceDemo.runTokenRef c) /\
  forall lane,
    RaceDemo.sendsAttempted (RaceDemo.getLane lane (RaceDemo.lanes c))
    = sendRequests lane token calls.

(** A loop between its send request and the end of the cycle that the
    request began. *)
Definition inCycle (point : RaceDemo.LoopPoint) : bool :=
  match point with
  | RaceDemo.AwaitSend _ => true
  | RaceDemo.AwaitConfirm _ _ _ _ => true
  | RaceDemo.SleepBetweenPolls _ _ _ _ => true
  | RaceDemo.SleepAfterError => false
  | RaceDemo.Returned => false
  end.

Definition openCycle (lane : DemoTx.DemoLane) (token : Z)
    (l : RaceDemo.Loop) : bool :=
  DemoTx.DemoLane_eqb (RaceDemo.loopLane l) lane
  && (RaceDemo.loopToken l =? token)
  && inCycle (RaceDemo.loopPoint l).

Definition countIf {A} (f : A -> bool) (l : list A) : Z :=
  Z.of_nat (List.length (filter f l)).

(** Every cycle that is still open has been counted as a send and not yet
    as a confirmation. *)
Definition cyclesCounted (token : Z) (s : RaceDemo.System) : Prop :=
  token <= RaceDemo.runTokenRef (RaceDemo.component s) /\
  (RaceDemo.runDeadlineRef (RaceDemo.component s) <> None ->
   token = RaceDemo.runTokenRef (RaceDemo.component s)) /\
  Forall (fun l => RaceDemo.loopToken l
                   <= RaceDemo.runTokenRef (RaceDemo.component s))
    (RaceDemo.loops s) /\
  forall lane,
    let st := RaceDemo.getLane lane (RaceDemo.lanes (RaceDemo.component s)) in
    0 <= RaceDemo.confirmationsObserved st /\
    RaceDemo.confirmationsObserved st
    + countIf (openCycle lane token) (RaceDemo.loops s)
    <= RaceDemo.sendsAttempted st.

(** The events all come once the clock has reached [deadline], and none
    starts a run. *)
Definition pastDeadline (deadline : Z)
    (events : list (RaceDemo.Clock * RaceDemo.Event)) : Prop :=
  Forall (fun ce => deadline <= RaceDemo.dateNow (fst ce) /\
                    snd ce <> RaceDemo.StartClicked) events.

(** The latencies are shown exactly when a confirmation has been
    counted, and the method shown is never [none]. *)
Definition metricsShown (st : RaceDemo.LaneState) : Prop :=
  0 <= RaceDemo.confirmationsObserved st /\
  (RaceDemo.confirmationsObserved st = 0 <->
   RaceDemo.averageLatencyMs st = None) /\
  (RaceDemo.confirmationsObserved st = 0 <->
   RaceDemo.latestLatencyMs st = None) /\
  RaceDemo.lastConfirmationMethod st <> Some DemoTx.none.

(** ** The confirmed cycles of a run, as seen from outside the lanes

    What follows reads the cycles of a run off the events and the
    requests alone; the lane states are not looked at. *)

(** The confirm route answers [confirmed] to the poll that the loop is
    waiting for. *)
Definition answersConfirmed (point : RaceDemo.LoopPoint)
    (w : RaceDemo.Wakeup) : bool :=
  match point, w with
  | RaceDemo.AwaitConfirm _ _ _ _,
    RaceDemo.ConfirmSettled (DemoTx.Fulfilled r) => DemoTx.confirmed r
  | _, _ => false
  end.

(** The lane whose cycle the event completes, if any: the answer arrives
    while the run of the loop is active. *)
Definition completesCycle (clk : RaceDemo.Clock) (e : RaceDemo.Event)
    (s : RaceDemo.System) : option DemoTx.DemoLane :=
  match e with
  | RaceDemo.LoopWakes i w =>
      match nth_error (RaceDemo.loops s) i with
      | Some l =>
          if answersConfirmed (RaceDemo.loopPoint l) w
             && RaceDemo.isActiveRun (RaceDemo.component s) clk
                  (RaceDemo.loopToken l)
          then Some (RaceDemo.loopLane l)
          else None
      | None => None
      end
  | _ => None
  end.

(** The event begins a run: Start is clicked while none is running. *)
Definition beginsRun (e : RaceDemo.Event) (s : RaceDemo.System) : bool :=
  match e with
  | RaceDemo.StartClicked => negb (RaceDemo.isRunning (RaceDemo.component s))
  | _ => false
  end.

(** For each lane, when the send request of its current cycle was issued,
    and the latencies of the cycles of the run confirmed so far, oldest
    first. *)
Record CycleLog := {
  cycleStart : RaceDemo.ByLane Q;
  cycleLatencies : RaceDemo.ByLane (list Q)
}.

Definition freshLog : CycleLog :=
  {| cycleStart := {| RaceDemo.onFlashblocks := 0%Q; RaceDemo.onNormal := 0%Q |};
     cycleLatencies := {| RaceDemo.onFlashblocks := []; RaceDemo.onNormal := [] |} |}.

(** A send request begins a cycle of its lane. *)
Definition sendStarts (clk : RaceDemo.Clock) (calls : list RaceDemo.Call)
    (starts : RaceDemo.ByLane Q) : RaceDemo.ByLane Q :=
  fold_left
    (fun m call =>
       match call with
       | RaceDemo.SendCall lane _ =>
           RaceDemo.setLane lane (RaceDemo.performanceNow clk) m
       | RaceDemo.ConfirmCall _ _ _ => m
       end)
    calls starts.

(** One event: a run that begins has no cycle yet; a cycle that the event
    completes has lasted from its send request to now; the send requests
    of the event begin new cycles. *)
Definition observe (clk : RaceDemo.Clock) (e : RaceDemo.Event)
    (s : RaceDemo.System) (log : CycleLog) : CycleLog :=
  let log1 := if beginsRun e s then freshLog else log in
  {| cycleStart :=
       sendStarts clk (snd (RaceDemo.step clk e s)) (cycleStart log1);
     cycleLatencies :=
       match completesCycle clk e s with
       | Some lane =>
           RaceDemo.setLane lane
             (RaceDemo.getLane lane (cycleLatencies log1)
              ++ [(RaceDemo.performanceNow clk
                   - RaceDemo.getLane lane (cycleStart log1))%Q])%list
             (cycleLatencies log1)
       | None => cycleLatencies log1
       end |}.

Fixpoint observeRun (s : RaceDemo.System)
    (events : list (RaceDemo.Clock * RaceDemo.Event)) (log : CycleLog)
    : CycleLog :=
  match events with
  | [] => log
  | (clk, e) :: rest =>
      observeRun (fst (RaceDemo.step clk e s)) rest (observe clk e s log)
  end.

(** The latencies of the confirmed cycles of [lane] in the run that
    [events] have last begun. *)
Definition confirmedCycles (lane : DemoTx.DemoLane)
    (events : list (RaceDemo.Clock * RaceDemo.Event)) : list Q :=
  RaceDemo.getLane lane
    (cycleLatencies (observeRun RaceDemo.initialSystem events freshLog)).

(** A suspended loop holds the start of its cycle, and no confirmation
    yet. *)
Definition pointOk (start : Q) (point : RaceDemo.LoopPoint) : Prop :=
  match point with
  | RaceDemo.AwaitSend sendStartAt => sendStartAt = start
  | RaceDemo.AwaitConfirm sendStartAt _ wasConfirmed _ =>
      sendStartAt = start /\ wasConfirmed = false
  | RaceDemo.SleepBetweenPolls sendStartAt _ wasConfirmed _ =>
      sendStartAt = start /\ wasConfirmed = false
  | RaceDemo.SleepAfterError => True
  | RaceDemo.Returned => True
  end.

Definition isCurrent (token : Z) (lane : DemoTx.DemoLane)
    (l : RaceDemo.Loop) : bool :=
  DemoTx.DemoLane_eqb (RaceDemo.loopLane l) lane
  && (RaceDemo.loopToken l =? token).

(** The log and the component agree: the loops of the current token, one
    per lane at most, hold the cycle starts of the log, and the lanes hold
    the mean of its latencies. *)
Definition logAgrees (s : RaceDemo.System) (log : CycleLog) : Prop :=
  Forall (fun l => RaceDemo.loopToken l
                   <= RaceDemo.runTokenRef (RaceDemo.component s))
    (RaceDemo.loops s) /\
  Forall (fun l =>
            RaceDemo.loopToken l = RaceDemo.runTokenRef (RaceDemo.component s) ->
            pointOk (RaceDemo.getLane (RaceDemo.loopLane l) (cycleStart log))
              (RaceDemo.loopPoint l))
    (RaceDemo.loops s) /\
  (forall lane,
      countIf (isCurrent (RaceDemo.runTokenRef (RaceDemo.component s)) lane)
        (RaceDemo.loops s) <= 1) /\
  forall lane,
    meanInvariant
      (RaceDemo.getLane lane (RaceDemo.lanes (RaceDemo.component s)))
      (RaceDemo.getLane lane (cycleLatencies log)).


(* ================================================================== *)
(** * Properties *)
(* ================================================================== *)

Import DemoTx.

(** ** Hexadecimal strings *)

Module HexFacts.
Import JsString HexDefs.

Lemma lowerHexChar_facts c :
  isLowerHexChar c = true ->
  isWhiteSpace c = false /\ Ascii.eqb c "-" = false /\
  Ascii.eqb c "+" = false /\ Ascii.eqb c "x" = false /\
  Ascii.eqb c "X" = false /\ lowerChar c = c /\
  exists d, hexValue c = Some d.
Proof.
  destruct c as [[] [] [] [] [] [] [] []]; vm_compute; intros H;
    try discriminate H; repeat split; eexists; reflexivity.
Qed.

Lemma hexDigit_lower d :
  0 <= d < 16 -> isLowerHexChar (hexDigit d) = true.
Proof.
  intros H.
  assert (E : d = 0 \/ d = 1 \/ d = 2 \/ d = 3 \/ d = 4 \/ d = 5 \/ d = 6 \/
              d = 7 \/ d = 8 \/ d = 9 \/ d = 10 \/ d = 11 \/ d = 12 \/
              d = 13 \/ d = 14 \/ d = 15) by lia.
  repeat (destruct E as [-> | E]; [reflexivity |]). subst; reflexivity.
Qed.

Lemma hexValue_hexDigit d :
  0 <= d < 16 -> hexValue (hexDigit d) = Some d.
Proof.
  intros H.
  assert (E : d = 0 \/ d = 1 \/ d = 2 \/ d = 3 \/ d = 4 \/ d = 5 \/ d = 6 \/
              d = 7 \/ d = 8 \/ d = 9 \/ d = 10 \/ d = 11 \/ d = 12 \/
              d = 13 \/ d = 14 \/ d = 15) by lia.
  repeat (destruct E as [-> | E]; [reflexivity |]). subst; reflexivity.
Qed.

Lemma length_append (s t : string) :
  String.length (s ++ t) = (String.length s + String.length t)%nat.
Proof. induction s as [|c s IH]; simpl; [reflexivity | now rewrite IH]. Qed.

Lemma length_replicate n c : String.length (replicate n c) = n.
Proof. induction n as [|n IH]; simpl; [reflexivity | now rewrite IH]. Qed.

Lemma toLowerCase_append s t :
  toLowerCase (s ++ t) = toLowerCase s ++ toLowerCase t.
Proof. induction s as [|c s IH]; simpl; [reflexivity | now rewrite IH]. Qed.

Lemma toLowerCase_lowerHex s :
  allLowerHex s = true -> toLowerCase s = s.
Proof.
  induction s as [|c s IH]; simpl; [reflexivity |].
  intros H. apply andb_prop in H. destruct H as [Hc Hs].
  destruct (lowerHexChar_facts c Hc) as (_ & _ & _ & _ & _ & -> & _).
  now rewrite IH.
Qed.

Lemma allLowerHex_append s t :
  allLowerHex (s ++ t) = allLowerHex s && allLowerHex t.
Proof.
  induction s as [|c s IH]; simpl; [reflexivity |].
  now rewrite IH, andb_assoc.
Qed.

Lemma allLowerHex_zeros n : allLowerHex (replicate n "0") = true.
Proof. induction n as [|n IH]; simpl; [reflexivity | exact IH]. Qed.

Lemma take_append_length s t : take (String.length s) (s ++ t) = s.
Proof. induction s as [|c s IH]; simpl; [now destruct t | now rewrite IH]. Qed.

Lemma drop_append_length s t : drop (String.length s) (s ++ t) = t.
Proof. induction s as [|c s IH]; simpl; [reflexivity | exact IH]. Qed.

(** *** The digits of a number *)

Lemma hexDigits_allLowerHex fuel : forall n acc,
  0 <= n -> allLowerHex acc = true -> allLowerHex (hexDigits fuel n acc) = true.
Proof.
  induction fuel as [|fuel IH]; intros n acc Hn Hacc; simpl; [exact Hacc |].
  assert (Hd : isLowerHexChar (hexDigit (n mod 16)) = true)
    by (apply hexDigit_lower, Z.mod_pos_bound; lia).
  destruct (n <? 16).
  - simpl. now rewrite Hd.
  - apply IH; [apply Z.div_pos; lia | simpl; now rewrite Hd].
Qed.

Lemma hexDigits_length fuel : forall n acc k,
  0 <= n < 16 ^ Z.of_nat k -> (1 <= k <= fuel)%nat ->
  (String.length acc < String.length (hexDigits fuel n acc)
   <= k + String.length acc)%nat.
Proof.
  induction fuel as [|fuel IH]; intros n acc k Hn Hk; [lia |].
  simpl. destruct (Z.ltb_spec n 16) as [Hlt | Hge].
  - simpl. lia.
  - destruct k as [|[|k]]; [lia | simpl in Hn; lia |].
    assert (Hdiv : 0 <= n / 16 < 16 ^ Z.of_nat (S k)).
    { split; [apply Z.div_pos; lia |].
      apply Z.div_lt_upper_bound; [lia |].
      replace (Z.of_nat (S (S k))) with (Z.of_nat (S k) + 1) in Hn by lia.
      rewrite Z.pow_add_r in Hn by lia. lia. }
    specialize (IH (n / 16) (String (hexDigit (n mod 16)) acc) (S k) Hdiv).
    simpl in IH. lia.
Qed.

Lemma hexVal_hexDigits fuel : forall n rest,
  0 <= n < 16 ^ Z.of_nat fuel ->
  hexVal 0 (hexDigits fuel n rest) = hexVal n rest.
Proof.
  induction fuel as [|fuel IH]; intros n rest Hn.
  - simpl in Hn. assert (n = 0) by lia. subst. reflexivity.
  - simpl. destruct (Z.ltb_spec n 16) as [Hlt | Hge].
    + simpl. rewrite hexValue_hexDigit by (apply Z.mod_pos_bound; lia).
      rewrite Z.mod_small by lia. reflexivity.
    + assert (Hdiv : 0 <= n / 16 < 16 ^ Z.of_nat fuel).
      { split; [apply Z.div_pos; lia |].
        apply Z.div_lt_upper_bound; [lia |].
        replace (Z.of_nat (S fuel)) with (Z.of_nat fuel + 1) in Hn by lia.
        rewrite Z.pow_add_r in Hn by lia. lia. }
      rewrite IH by exact Hdiv. simpl.
      rewrite hexValue_hexDigit by (apply Z.mod_pos_bound; lia).
      f_equal. pose proof (Z.div_mod n 16). lia.
Qed.

(** The fuel of [toString16] is enough. *)
Lemma toString16_fuel n :
  0 <= n -> n < 16 ^ Z.of_nat (S (Z.to_nat (Z.log2 n))).
Proof.
  intros Hn.
  destruct (Z.eq_dec n 0) as [-> | Hne]; [reflexivity |].
  pose proof (Z.log2_nonneg n) as Hl.
  pose proof (Z.log2_spec n ltac:(lia)) as [_ Hup].
  replace (Z.of_nat (S (Z.to_nat (Z.log2 n)))) with (Z.succ (Z.log2 n)) by lia.
  eapply Z.lt_le_trans; [exact Hup |].
  apply Z.pow_le_mono_l. lia.
Qed.

Lemma hexVal_zeros n s : hexVal 0 (replicate n "0" ++ s) = hexVal 0 s.
Proof. induction n as [|n IH]; simpl; [reflexivity | exact IH]. Qed.

Lemma readHex_Some a s : readHex (Some a) s = Some (hexVal a s).
Proof.
  revert a. induction s as [|c s IH]; intros a; simpl; [reflexivity |].
  destruct (hexValue c); [apply IH | reflexivity].
Qed.

(** [parseInt] on a non-empty string of lower-case digits. *)
Lemma parseInt16_lowerHex s :
  allLowerHex s = true -> s <> EmptyString ->
  parseInt16 s = Some (hexVal 0 s).
Proof.
  intros Hall Hne. destruct s as [|c s]; [congruence |]. clear Hne.
  simpl in Hall. apply andb_prop in Hall. destruct Hall as [Hc Hs].
  destruct (lowerHexChar_facts c Hc) as (Hw & Hm & Hp & _ & _ & _ & d & Hd).
  unfold parseInt16. simpl trimStart. rewrite Hw.
  unfold stripSign. rewrite Hm, Hp.
  assert (Hstrip : stripHexPrefix (String c s) = String c s).
  { destruct s as [|b s']; [reflexivity |]. simpl in Hs.
    apply andb_prop in Hs. destruct Hs as [Hb _].
    destruct (lowerHexChar_facts b Hb) as (_ & _ & _ & Hx & HX & _).
    simpl. rewrite Hx, HX, andb_false_r. reflexivity. }
  rewrite Hstrip. simpl. rewrite Hd, readHex_Some.
  f_equal. destruct (hexVal d s); reflexivity.
Qed.

End HexFacts.

(** ** The spoof engine *)

Section SpoofEngine.
Import JsString HexDefs HexFacts.

Lemma timestampField_spec t :
  0 <= t < 2 ^ 48 ->
  String.length (timestampField t) = 12%nat /\
  allLowerHex (timestampField t) = true /\
  hexVal 0 (timestampField t) = t.
Proof.
  intros Ht. unfold timestampField, toString16.
  rewrite Z.abs_eq by lia.
  destruct (Z.ltb_spec t 0) as [? | _]; [lia |].
  set (fuel := S (Z.to_nat (Z.log2 t))).
  pose proof (toString16_fuel t ltac:(lia)) as Hfuel. fold fuel in Hfuel.
  set (digits := hexDigits fuel t EmptyString).
  assert (Hlen : (String.length digits <= 12)%nat).
  { destruct (Nat.le_gt_cases fuel 12) as [Hle | Hgt].
    - pose proof (hexDigits_length fuel t EmptyString fuel
                    ltac:(lia) ltac:(unfold fuel; lia)) as H.
      fold digits in H. simpl in H. lia.
    - pose proof (hexDigits_length fuel t EmptyString 12
                    ltac:(change (16 ^ Z.of_nat 12) with (2 ^ 48); lia)
                    ltac:(lia)) as H.
      fold digits in H. simpl in H. lia. }
  assert (Hall : allLowerHex digits = true)
    by (apply hexDigits_allLowerHex; [lia | reflexivity]).
  assert (Hval : hexVal 0 digits = t)
    by (unfold digits; now rewrite hexVal_hexDigits).
  unfold padStart, sliceLast.
  rewrite length_append, length_replicate.
  replace (12 - String.length digits + String.length digits - 12)%nat
    with 0%nat by lia.
  cbn [drop].
  rewrite length_append, length_replicate, allLowerHex_append,
    allLowerHex_zeros, hexVal_zeros, Hall, Hval.
  repeat split. lia.
Qed.

Lemma buildSpoofTxHash_shape lane createdAtMs randomBytes :
  buildSpoofTxHash lane createdAtMs randomBytes =
  "0x" ++ SPOOF_LANE_CODE lane ++ timestampField (Qfloor createdAtMs)
       ++ bytesToHex randomBytes.
Proof. reflexivity. Qed.

Lemma decodeLaneCode_SPOOF_LANE_CODE lane :
  decodeLaneCode (SPOOF_LANE_CODE lane) = Some lane.
Proof. destruct lane; reflexivity. Qed.

(** Parsing a handle whose first fields are a lane code and twelve
    lower-case digits, whatever follows them. *)
Lemma parseSpoofTxHash_fields lane field suffix :
  String.length field = 12%nat -> allLowerHex field = true ->
  parseSpoofTxHash ("0x" ++ SPOOF_LANE_CODE lane ++ field ++ suffix) =
  Some {| spoofLane := lane; spoofCreatedAtMs := hexVal 0 field |}.
Proof.
  intros Hlen Hall. unfold parseSpoofTxHash.
  assert (Hraw : toLowerCase (drop 2 ("0x" ++ SPOOF_LANE_CODE lane ++ field ++ suffix))
                 = SPOOF_LANE_CODE lane ++ field ++ toLowerCase suffix).
  { cbn [append drop]. rewrite !toLowerCase_append.
    rewrite (toLowerCase_lowerHex field Hall). now destruct lane. }
  rewrite Hraw.
  assert (Hcode : slice 0 2 (SPOOF_LANE_CODE lane ++ field ++ toLowerCase suffix)
                  = SPOOF_LANE_CODE lane) by now destruct lane.
  assert (Hts : slice 2 14 (SPOOF_LANE_CODE lane ++ field ++ toLowerCase suffix)
                = field).
  { unfold slice. change (14 - 2)%nat with 12%nat. rewrite <- Hlen.
    replace (drop 2 (SPOOF_LANE_CODE lane ++ field ++ toLowerCase suffix))
      with (field ++ toLowerCase suffix) by now destruct lane.
    apply take_append_length. }
  rewrite Hcode, Hts, decodeLaneCode_SPOOF_LANE_CODE.
  rewrite parseInt16_lowerHex; [reflexivity | exact Hall |].
  intros ->. discriminate Hlen.
Qed.

End SpoofEngine.

(** The decoder inverts the encoder on the twelve-digit range. *)
Lemma parseSpoofTxHash_inverts_build lane createdAtMs randomBytes :
  0 <= Qfloor createdAtMs < 2 ^ 48 ->
  parseSpoofTxHash (buildSpoofTxHash lane createdAtMs randomBytes) =
  Some {| spoofLane := lane; spoofCreatedAtMs := Qfloor createdAtMs |}.
Proof.
  intros Ht.
  destruct (timestampField_spec (Qfloor createdAtMs) Ht) as (Hlen & Hall & Hval).
  rewrite buildSpoofTxHash_shape, parseSpoofTxHash_fields by assumption.
  now rewrite Hval.
Qed.

(** C10.  Round trip of the spoof handle: for every lane, every creation
    time [t] with [0 <= floor t < 2^48] and every sequence of random suffix
    bytes, [parseSpoofTxHash] applied to the handle built by
    [buildSpoofTxHash] returns exactly that lane and [floor t]. *)
Theorem parseSpoofTxHash_buildSpoofTxHash :
  forall (lane : DemoLane) (createdAtMs : Q) (randomBytes : list Byte.byte),
    0 <= Qfloor createdAtMs < 2 ^ 48 ->
    parseSpoofTxHash (buildSpoofTxHash lane createdAtMs randomBytes) =
    Some {| spoofLane := lane; spoofCreatedAtMs := Qfloor createdAtMs |}.
Proof.
  intros lane t rnd Ht.
  destruct (timestampField_spec (Qfloor t) Ht) as (Hlen & Hall & Hval).
  rewrite buildSpoofTxHash_shape, parseSpoofTxHash_fields by assumption.
  now rewrite Hval.
Qed.

Lemma parseSpoofTxHash_buildSpoofTxHash_witness :
  0 <= Qfloor (1767225600123 # 2) < 2 ^ 48 /\
  parseSpoofTxHash
    (buildSpoofTxHash normal (1767225600123 # 2) [Byte.xff; Byte.x0a]) =
  Some {| spoofLane := normal; spoofCreatedAtMs := 883612800061 |}.
Proof.
  split; [vm_compute; split; congruence |].
  apply (parseSpoofTxHash_buildSpoofTxHash normal (1767225600123 # 2)
           [Byte.xff; Byte.x0a]).
  vm_compute; split; congruence.
Defined.

(** C7.  In spoof mode, a handle whose lane code does not designate the
    lane of the call (be it the code of the other lane or of no lane at
    all) is reported unconfirmed, whatever the time of the check. *)
Theorem checkLaneConfirmation_spoof_lane_mismatch :
  forall (hexToNumber : Hex -> Outcome Z) (publicClient : PublicClient)
         (now : Z) (lane : DemoLane) (txHash : Hex),
    decodeLaneCode (laneCodeOf txHash) <> Some lane ->
    checkLaneConfirmation true hexToNumber publicClient now lane txHash =
    Fulfilled {| confirmed := false; method := none; blockNumber := None |}.
Proof.
  intros h pc now lane tx Hne.
  unfold checkLaneConfirmation, parseSpoofTxHash.
  fold (laneCodeOf tx).
  destruct (decodeLaneCode (laneCodeOf tx)) as [l |]; [| reflexivity].
  destruct (JsString.parseInt16 _); [| reflexivity].
  cbn [spoofLane].
  destruct l, lane; try reflexivity; congruence.
Qed.

Lemma checkLaneConfirmation_spoof_lane_mismatch_witness :
  checkLaneConfirmation true (fun _ => Fulfilled 0)
    {| eth_getTransactionReceipt := fun _ => Fulfilled None;
       eth_getBlockByNumber := fun _ => Fulfilled None |}
    1000000 flashblocks (buildSpoofTxHash normal 0 []) =
  Fulfilled {| confirmed := false; method := none; blockNumber := None |}.
Proof.
  apply checkLaneConfirmation_spoof_lane_mismatch.
  vm_compute. congruence.
Defined.

(** A handle built by the send of the other lane is such a handle. *)
Lemma laneCodeOf_buildSpoofTxHash lane createdAtMs randomBytes :
  decodeLaneCode (laneCodeOf (buildSpoofTxHash lane createdAtMs randomBytes))
  = Some lane.
Proof.
  rewrite buildSpoofTxHash_shape. unfold laneCodeOf.
  cbn [append JsString.drop]. rewrite HexFacts.toLowerCase_append.
  now destruct lane.
Qed.

(** What the spoof check answers on a handle of its own lane whose
    timestamp field survived the twelve-digit encoding. *)
Lemma checkLaneConfirmation_spoof_own_handle
    hexToNumber publicClient now lane t randomBytes :
  0 <= t < 2 ^ 48 ->
  checkLaneConfirmation true hexToNumber publicClient now lane
    (txHash (sendLaneTransactionSpoof lane t randomBytes)) =
  Fulfilled
    (if now - t <? SPOOF_CONFIRMATION_DELAY_MS_BY_LANE lane then unconfirmed
     else {| confirmed := true; method := SPOOF_METHOD_BY_LANE lane;
             blockNumber := None |}).
Proof.
  intros Ht. unfold checkLaneConfirmation, sendLaneTransactionSpoof.
  cbn [txHash].
  rewrite parseSpoofTxHash_inverts_build by now rewrite Qfloor_Z.
  rewrite Qfloor_Z. cbn [spoofLane spoofCreatedAtMs].
  replace (DemoLane_eqb lane lane) with true by now destruct lane.
  cbn [negb]. now destruct (now - t <? _).
Qed.

(** C1 (as amended).  In spoof mode, for every lane and every handle built
    by that lane's send at a creation time [t] with [0 <= t < 2^48], the
    check run at time [now] answers, and its answer is unconfirmed when
    [now - t] is below the lane's delay and confirmed when [now - t] has
    reached it. *)
Theorem checkLaneConfirmation_spoof_delay :
  forall (hexToNumber : Hex -> Outcome Z) (publicClient : PublicClient)
         (lane : DemoLane) (t now : Z) (randomBytes : list Byte.byte),
    0 <= t < 2 ^ 48 ->
    exists r,
      checkLaneConfirmation true hexToNumber publicClient now lane
        (txHash (sendLaneTransactionSpoof lane t randomBytes)) = Fulfilled r /\
      (now - t < SPOOF_CONFIRMATION_DELAY_MS_BY_LANE lane ->
       confirmed r = false) /\
      (SPOOF_CONFIRMATION_DELAY_MS_BY_LANE lane <= now - t ->
       confirmed r = true).
Proof.
  intros h pc lane t now rnd Ht.
  eexists. split;
    [apply checkLaneConfirmation_spoof_own_handle; exact Ht |].
  destruct (Z.ltb_spec (now - t) (SPOOF_CONFIRMATION_DELAY_MS_BY_LANE lane));
    split; intros; (reflexivity || lia).
Qed.

Lemma checkLaneConfirmation_spoof_delay_witness :
  exists r,
    checkLaneConfirmation true (fun _ => Fulfilled 0)
      {| eth_getTransactionReceipt := fun _ => Fulfilled None;
         eth_getBlockByNumber := fun _ => Fulfilled None |}
      1767225600800 flashblocks
      (txHash (sendLaneTransactionSpoof flashblocks 1767225600000 [Byte.x01]))
    = Fulfilled r /\
    (1767225600800 - 1767225600000
       < SPOOF_CONFIRMATION_DELAY_MS_BY_LANE flashblocks ->
     confirmed r = false) /\
    (SPOOF_CONFIRMATION_DELAY_MS_BY_LANE flashblocks
       <= 1767225600800 - 1767225600000 ->
     confirmed r = true).
Proof.
  apply (checkLaneConfirmation_spoof_delay (fun _ => Fulfilled 0)
           {| eth_getTransactionReceipt := fun _ => Fulfilled None;
              eth_getBlockByNumber := fun _ => Fulfilled None |}
           flashblocks 1767225600000 1767225600800 [Byte.x01]).
  vm_compute. split; congruence.
Defined.

(** C1 as stated fails once the creation time no longer fits twelve
    hexadecimal digits: a handle built at [t = 2^48] encodes the time 0,
    so a check only 100 ms later already reports it confirmed, although
    the flashblocks delay of 800 ms has not elapsed. *)
Lemma checkLaneConfirmation_spoof_delay_counterexample :
  (281474976710656 + 100) - 281474976710656
    < SPOOF_CONFIRMATION_DELAY_MS_BY_LANE flashblocks /\
  checkLaneConfirmation true (fun _ => Fulfilled 0)
    {| eth_getTransactionReceipt := fun _ => Fulfilled None;
       eth_getBlockByNumber := fun _ => Fulfilled None |}
    (281474976710656 + 100) flashblocks
    (txHash (sendLaneTransactionSpoof flashblocks 281474976710656 [])) =
  Fulfilled {| confirmed := true; method := receipt; blockNumber := None |}.
Proof. split; [reflexivity | vm_compute; reflexivity]. Qed.

(** ** The receipt poll *)

(** The receipt poll of the first revision asked for a block number: that
    check answers confirmed exactly when the receipt carries one. *)
Lemma receiptPollFirstRevision_confirmed hexToNumber publicClient txHash r :
  receiptPollFirstRevision hexToNumber publicClient txHash = Fulfilled r ->
  confirmed r = true ->
  exists rc h,
    eth_getTransactionReceipt publicClient txHash = Fulfilled (Some rc) /\
    receiptBlockNumber rc = Some h.
Proof.
  unfold receiptPollFirstRevision, truthyBlockNumber.
  destruct (eth_getTransactionReceipt publicClient txHash) as [[rc |] | e];
    try discriminate.
  - destruct (receiptBlockNumber rc) as [h |] eqn:Hh.
    + intros _ _. now exists rc, h.
    + intros H; injection H as <-; discriminate.
  - intros H; injection H as <-; discriminate.
Qed.

(** C3 (as amended).  In live mode the flashblocks lane, whose strategy is
    the receipt poll, reports confirmed exactly when the receipt query
    returns a receipt, whether or not that receipt carries a block height:
    without a receipt the answer is unconfirmed, a receipt with a null
    block height is reported confirmed with a null block number, and a
    receipt with a block height is reported confirmed with that height
    once [hexToNumber] has decoded it. *)
Theorem checkLaneConfirmation_receipt_poll :
  forall (hexToNumber : Hex -> Outcome Z) (publicClient : PublicClient)
         (now : Z) (txHash : Hex) (answer : option RpcTransactionReceipt),
    eth_getTransactionReceipt publicClient txHash = Fulfilled answer ->
    (forall r,
        checkLaneConfirmation false hexToNumber publicClient now
          flashblocks txHash = Fulfilled r ->
        (confirmed r = true <-> answer <> None)) /\
    (answer = None ->
     checkLaneConfirmation false hexToNumber publicClient now
       flashblocks txHash = Fulfilled unconfirmed) /\
    (forall rc,
        answer = Some rc -> receiptBlockNumber rc = None ->
        checkLaneConfirmation false hexToNumber publicClient now
          flashblocks txHash =
        Fulfilled {| confirmed := true; method := receipt;
                     blockNumber := None |}) /\
    (forall rc h n,
        answer = Some rc -> receiptBlockNumber rc = Some h ->
        hexToNumber h = Fulfilled n ->
        checkLaneConfirmation false hexToNumber publicClient now
          flashblocks txHash =
        Fulfilled {| confirmed := true; method := receipt;
                     blockNumber := Some n |}).
Proof.
  intros h pc now tx answer Hq.
  unfold checkLaneConfirmation. rewrite Hq.
  repeat split.
  - destruct answer as [rc |]; [congruence |].
    intros Hr. injection H as <-. discriminate Hr.
  - destruct answer as [rc |]; [intros _ | congruence].
    unfold withBlockNumber in H.
    destruct (receiptBlockNumber rc) as [b |].
    + destruct (h b); [injection H as <-; reflexivity | discriminate].
    + injection H as <-; reflexivity.
  - intros ->. reflexivity.
  - intros rc -> Hn. unfold withBlockNumber. now rewrite Hn.
  - intros rc b n -> Hb Hn. unfold withBlockNumber. now rewrite Hb, Hn.
Qed.

Lemma checkLaneConfirmation_receipt_poll_witness :
  checkLaneConfirmation false (fun _ => Fulfilled 7)
    {| eth_getTransactionReceipt :=
         fun _ => Fulfilled (Some {| receiptBlockNumber := Some "0x7" |});
       eth_getBlockByNumber := fun _ => Fulfilled None |}
    0 flashblocks "0xabc" =
  Fulfilled {| confirmed := true; method := receipt; blockNumber := Some 7 |}.
Proof.
  refine (proj2 (proj2 (proj2
    (checkLaneConfirmation_receipt_poll (fun _ => Fulfilled 7)
       {| eth_getTransactionReceipt :=
            fun _ => Fulfilled (Some {| receiptBlockNumber := Some "0x7" |});
          eth_getBlockByNumber := fun _ => Fulfilled None |}
       0 "0xabc" (Some {| receiptBlockNumber := Some "0x7" |}) eq_refl)))
    {| receiptBlockNumber := Some "0x7" |} "0x7" 7 eq_refl eq_refl eq_refl).
Defined.

(** C3 as stated fails: in live mode a receipt whose block height is null
    is reported as a confirmation by the flashblocks lane. *)
Lemma checkLaneConfirmation_receipt_poll_counterexample :
  eth_getTransactionReceipt
    {| eth_getTransactionReceipt :=
         fun _ => Fulfilled (Some {| receiptBlockNumber := None |});
       eth_getBlockByNumber := fun _ => Fulfilled None |} "0xabc" =
  Fulfilled (Some {| receiptBlockNumber := None |}) /\
  checkLaneConfirmation false (fun _ => Fulfilled 0)
    {| eth_getTransactionReceipt :=
         fun _ => Fulfilled (Some {| receiptBlockNumber := None |});
       eth_getBlockByNumber := fun _ => Fulfilled None |}
    0 flashblocks "0xabc" =
  Fulfilled {| confirmed := true; method := receipt; blockNumber := None |}.
Proof. split; reflexivity. Qed.

(** ** Nonce recovery *)

(** C2.  A live submit sends once; if that send fails with a nonce-too-low
    or already-known error, the nonce state is reset and the send is
    retried exactly once, and the submit settles as the retry does, so
    that a second failure of any class is surfaced without a further
    attempt; a first failure of another class is surfaced at once, with
    neither reset nor retry. *)
Theorem sendLaneTransaction_nonce_recovery :
  forall (accountAddress : Hex),
    (forall hash rest,
        runSend sendOperation (Fulfilled hash :: rest) =
          ([ActSend], Some (Fulfilled hash)) /\
        sendLaneTransactionLive accountAddress (Fulfilled hash :: rest) =
          Some (Fulfilled {| txHash := hash; from := accountAddress |})) /\
    (forall e hash rest,
        isNonceSyncError e = true ->
        runSend sendOperation (Rejected e :: Fulfilled hash :: rest) =
          ([ActSend; ActReset; ActSend], Some (Fulfilled hash)) /\
        sendLaneTransactionLive accountAddress
          (Rejected e :: Fulfilled hash :: rest) =
          Some (Fulfilled {| txHash := hash; from := accountAddress |})) /\
    (forall e e2 rest,
        isNonceSyncError e = true ->
        runSend sendOperation (Rejected e :: Rejected e2 :: rest) =
          ([ActSend; ActReset; ActSend], Some (Rejected e2)) /\
        sendLaneTransactionLive accountAddress
          (Rejected e :: Rejected e2 :: rest) = Some (Rejected e2)) /\
    (forall e rest,
        isNonceSyncError e = false ->
        runSend sendOperation (Rejected e :: rest) =
          ([ActSend], Some (Rejected e)) /\
        sendLaneTransactionLive accountAddress (Rejected e :: rest) =
          Some (Rejected e)).
Proof.
  intros account. repeat split; intros;
    unfold sendLaneTransactionLive;
    cbn [runSend sendOperation recoverNonce sendTransactionTail settleAsSend];
    try match goal with H : isNonceSyncError _ = _ |- _ => rewrite H end;
    reflexivity.
Qed.

Lemma sendLaneTransaction_nonce_recovery_witness :
  runSend sendOperation
    [Rejected (ErrorObject "Error" "Nonce too low: next nonce 8, tx nonce 7");
     Rejected (ErrorObject "Error" "nonce too low")] =
  ([ActSend; ActReset; ActSend],
   Some (Rejected (ErrorObject "Error" "nonce too low"))).
Proof.
  refine (proj1 (proj1 (proj2 (proj2
    (sendLaneTransaction_nonce_recovery "0xaa"))) _ _ [] _)).
  vm_compute. reflexivity.
Defined.

(** ** The start route *)

Lemma parseDurationSeconds_Some value n :
  StartRoute.parseDurationSeconds value = Some n <->
  exists q, n = StartRoute.JsFinite q /\ acceptableDuration value q.
Proof.
  unfold StartRoute.parseDurationSeconds, acceptableDuration. split.
  - destruct value as [| | b | m | s | l | f]; try discriminate.
    destruct m as [| | | q]; try discriminate.
    cbn [StartRoute.isFinite negb StartRoute.jsLt
         StartRoute.MIN_DURATION_SECONDS StartRoute.MAX_DURATION_SECONDS].
    destruct (Qle_bool 1 q) eqn:H1; [| discriminate].
    destruct (Qle_bool q 60) eqn:H60; [| discriminate].
    cbn. intros H; injection H as <-. exists q.
    apply Qle_bool_iff in H1, H60. auto.
  - intros (q & -> & -> & H1 & H60).
    apply Qle_bool_iff in H1, H60.
    cbn [StartRoute.isFinite negb StartRoute.jsLt
         StartRoute.MIN_DURATION_SECONDS StartRoute.MAX_DURATION_SECONDS].
    now rewrite H1, H60.
Qed.

(** C8.  The start route accepts a duration exactly when it is a finite
    number between 1 and 60 seconds inclusive.  For a request body whose
    [durationSeconds] reads as [value]: if [value] is such a number the run
    core is started (with the duration in milliseconds); any other value,
    be it not a number, not finite or out of range, is answered with
    status 400, and the run core is not started. *)
Theorem POST_validates_duration :
  forall (body value : StartRoute.JsValue),
    StartRoute.getDurationSeconds body = Fulfilled value ->
    (StartRoute.parseDurationSeconds value <> None <->
     exists q, acceptableDuration value q) /\
    (forall q, acceptableDuration value q ->
       StartRoute.POST (Fulfilled body) =
       StartRoute.RaceStream (Qfloor (q * 1000 + (1 # 2)))) /\
    ((forall q, ~ acceptableDuration value q) ->
       StartRoute.POST (Fulfilled body) =
       StartRoute.ErrorResponse
         "durationSeconds must be a number between 1 and 60" 400).
Proof.
  intros body value Hget. repeat split.
  - destruct (StartRoute.parseDurationSeconds value) as [n |] eqn:Hp;
      [| congruence].
    intros _. apply parseDurationSeconds_Some in Hp.
    destruct Hp as (q & _ & Hq). now exists q.
  - intros (q & Hq) Hp.
    assert (Hs : StartRoute.parseDurationSeconds value =
                 Some (StartRoute.JsFinite q))
      by (apply parseDurationSeconds_Some; now exists q).
    congruence.
  - intros q Hq.
    assert (Hs : StartRoute.parseDurationSeconds value =
                 Some (StartRoute.JsFinite q))
      by (apply parseDurationSeconds_Some; now exists q).
    unfold StartRoute.POST. rewrite Hget, Hs. reflexivity.
  - intros Hno. unfold StartRoute.POST. rewrite Hget.
    destruct (StartRoute.parseDurationSeconds value) as [n |] eqn:Hp;
      [| reflexivity].
    apply parseDurationSeconds_Some in Hp.
    destruct Hp as (q & _ & Hq). now destruct (Hno q).
Qed.

Lemma POST_validates_duration_witness :
  StartRoute.POST
    (Fulfilled (StartRoute.JsObject
       [("durationSeconds", StartRoute.JsNum (StartRoute.JsFinite (5 # 2)))]))
  = StartRoute.RaceStream 2500.
Proof.
  refine (proj1 (proj2
    (POST_validates_duration
       (StartRoute.JsObject
          [("durationSeconds", StartRoute.JsNum (StartRoute.JsFinite (5 # 2)))])
       (StartRoute.JsNum (StartRoute.JsFinite (5 # 2))) eq_refl))
    (5 # 2) _).
  unfold acceptableDuration. repeat split; discriminate.
Defined.

(** On no path other than an accepted duration is the run core started. *)
Lemma POST_RaceStream_inv json d :
  StartRoute.POST json = StartRoute.RaceStream d ->
  exists body value q,
    json = Fulfilled body /\
    StartRoute.getDurationSeconds body = Fulfilled value /\
    acceptableDuration value q.
Proof.
  unfold StartRoute.POST. destruct json as [body | e]; [| discriminate].
  destruct (StartRoute.getDurationSeconds body) as [value | e] eqn:Hget;
    [| discriminate].
  destruct (StartRoute.parseDurationSeconds value) as [n |] eqn:Hp;
    [| discriminate].
  intros _. apply parseDurationSeconds_Some in Hp.
  destruct Hp as (q & _ & Hq). now exists body, value, q.
Qed.

(** A body that is the JSON literal [null] has no property to read: the
    handler throws before validating anything. *)
Lemma POST_null_body :
  exists e, StartRoute.POST (Fulfilled StartRoute.JsNull) = StartRoute.Uncaught e.
Proof. eexists. reflexivity. Qed.

(** ** The lane metrics *)

Section LaneMetrics.
Import RaceDemo.

Lemma Qsum_app l x : (Qsum (l ++ [x]) == Qsum l + x)%Q.
Proof.
  induction l as [|y l IH]; simpl; [ring |]. rewrite IH. ring.
Qed.

Lemma meanInvariant_toConfirmed st ls latencyMs m :
  meanInvariant st ls ->
  meanInvariant (toConfirmed latencyMs m st) (ls ++ [latencyMs]).
Proof.
  intros [Hn Havg]. split.
  - cbn [toConfirmed confirmationsObserved]. rewrite Hn, length_app.
    cbn [List.length]. lia.
  - destruct (ls ++ [latencyMs])%list as [|x l'] eqn:Happ;
      [now destruct ls |].
    rewrite <- Happ. clear x l' Happ.
    eexists. split; [reflexivity |].
    rewrite Qsum_app, length_app. cbn [List.length].
    replace (Z.of_nat (List.length ls + 1)) with (Z.of_nat (List.length ls) + 1)
      by lia.
    rewrite Hn.
    assert (Hpos : ~ (inject_Z (Z.of_nat (List.length ls) + 1) == 0)%Q).
    { unfold Qeq. cbn. lia. }
    assert (Hold : ((match averageLatencyMs st with Some a => a | None => 0 end)
                    * inject_Z (Z.of_nat (List.length ls)) == Qsum ls)%Q).
    { destruct ls as [|y ls']; [cbn; ring |].
      destruct Havg as (a & -> & Ha). exact Ha. }
    rewrite <- Hold. field. exact Hpos.
Qed.

Lemma meanInvariant_other st ls u :
  (forall latencyMs m, u <> Confirmation latencyMs m) ->
  meanInvariant st ls -> meanInvariant (applyUpdate st u) ls.
Proof.
  intros Hu Hinv. destruct u; try exact Hinv. now destruct (Hu latencyMs confirmationMethod).
Qed.

Lemma meanInvariant_updates updates : forall st ls,
  meanInvariant st ls ->
  meanInvariant (fold_left applyUpdate updates st) (ls ++ latenciesOf updates).
Proof.
  induction updates as [|u updates IH]; intros st ls Hinv.
  - cbn. now rewrite app_nil_r.
  - cbn [fold_left].
    destruct u as [| s | message | | latencyMs m];
      try (cbn [latenciesOf]; apply IH;
           apply meanInvariant_other; [intros ? ?; discriminate | exact Hinv]).
    cbn [latenciesOf applyUpdate].
    replace (ls ++ latencyMs :: latenciesOf updates)%list
      with ((ls ++ [latencyMs]) ++ latenciesOf updates)%list
      by (rewrite <- app_assoc; reflexivity).
    apply IH, meanInvariant_toConfirmed, Hinv.
Qed.

Lemma latestLatency_updates updates : forall st,
  latestLatencyMs (fold_left applyUpdate updates st) =
  match rev (latenciesOf updates) with
  | [] => latestLatencyMs st
  | l :: _ => Some l
  end.
Proof.
  induction updates as [|u updates IH]; intros st; [reflexivity |].
  cbn [fold_left]. rewrite IH.
  destruct u; cbn [latenciesOf applyUpdate]; try reflexivity.
  cbn [rev]. destruct (rev (latenciesOf updates)); reflexivity.
Qed.

End LaneMetrics.

(** ** The run token *)

Section RunToken.
Import ListOps RaceDemo.

(** Case analysis on every test met on the way through a resumption. *)
Ltac split_tests :=
  repeat match goal with
         | |- context [if ?b then _ else _] => destruct b eqn:?
         | |- context [match ?r with Fulfilled _ => _ | Rejected _ => _ end] =>
             destruct r
         end.

Ltac open_loop :=
  unfold afterSend, afterConfirm, afterAttempt, pollHead, afterPoll, loopHead.

Lemma isActiveRun_token c clk token :
  isActiveRun c clk token = true -> runTokenRef c = token.
Proof.
  unfold isActiveRun. destruct (runDeadlineRef c); [| discriminate].
  intros H. apply andb_prop in H. destruct H as [H _]. lia.
Qed.

Lemma isActiveRun_no_deadline c clk token :
  runDeadlineRef c = None -> isActiveRun c clk token = false.
Proof. unfold isActiveRun. now intros ->. Qed.

Lemma isActiveRun_other_token c clk token :
  runTokenRef c <> token -> isActiveRun c clk token = false.
Proof.
  intros Hne. unfold isActiveRun. destruct (runDeadlineRef c); [| reflexivity].
  destruct (Z.eqb_spec (runTokenRef c) token); [contradiction | reflexivity].
Qed.

(** A loop whose run is no longer active returns on its next resumption,
    without a request and without touching the component. *)
Lemma resume_inactive clk lane token point w c r :
  isActiveRun c clk token = false ->
  resume clk lane token point w c = Some r ->
  r = (c, Returned, []).
Proof.
  intros Hin H.
  destruct point, w; try discriminate H; cbn [resume] in H;
    injection H as <-; open_loop;
    try match goal with |- context [match ?r with Fulfilled _ => _
                                    | Rejected _ => _ end] => destruct r end;
    rewrite ?Hin; cbn [negb andb orb];
    rewrite ?andb_false_r, ?orb_true_r, ?Hin; cbn [negb andb orb];
    rewrite ?orb_true_r; reflexivity.
Qed.

(** The requests issued by a resumption carry the token of the loop. *)
Lemma resume_calls clk lane token point w c c' point' calls :
  resume clk lane token point w c = Some (c', point', calls) ->
  Forall (fun call => callToken call = token) calls.
Proof.
  intros H.
  destruct point, w; try discriminate H; cbn [resume] in H;
    injection H; clear H; open_loop; split_tests;
    intros H; injection H as <- <- <-; repeat constructor.
Qed.

Lemma resume_token_mono clk lane token point w c c' point' calls :
  resume clk lane token point w c = Some (c', point', calls) ->
  runTokenRef c <= runTokenRef c'.
Proof.
  intros H.
  destruct point, w; try discriminate H; cbn [resume] in H;
    injection H; clear H; open_loop; split_tests;
    intros H; injection H as <- <- <-; cbn; lia.
Qed.

Lemma loopHead_calls clk lane token c c' point calls :
  loopHead clk lane token c = (c', point, calls) ->
  runTokenRef c' = runTokenRef c /\
  Forall (fun call => callToken call = token) calls.
Proof.
  unfold loopHead. destruct (isActiveRun c clk token);
    intros H; injection H as <- <- <-; split; repeat constructor.
Qed.

Lemma run_cons s clk e rest :
  run s ((clk, e) :: rest) =
  (fst (run (fst (step clk e s)) rest),
   (snd (step clk e s) ++ snd (run (fst (step clk e s)) rest))%list).
Proof.
  cbn [run]. destruct (step clk e s) as [s1 calls1]. cbn [fst snd].
  destruct (run s1 rest) as [s2 calls2]. reflexivity.
Qed.

Lemma startRun_spec clk s :
  runTokenRef (component s) <= runTokenRef (component (fst (startRun clk s))) /\
  Forall (fun call => callToken call = runTokenRef (component s) + 1)
    (snd (startRun clk s)) /\
  (Forall (fun l => loopToken l <= runTokenRef (component s)) (loops s) ->
   Forall (fun l => loopToken l
                    <= runTokenRef (component (fst (startRun clk s))))
     (loops (fst (startRun clk s)))).
Proof.
  unfold startRun. destruct (isRunning (component s)).
  - cbn [fst snd]. repeat split; [lia | constructor | auto].
  - match goal with
    | |- context [loopHead clk flashblocks ?t ?c1] =>
        destruct (loopHead clk flashblocks t c1) as [[c2 p1] calls1] eqn:H1
    end.
    destruct (loopHead clk normal (runTokenRef (component s) + 1) c2)
      as [[c3 p2] calls2] eqn:H2.
    apply loopHead_calls in H1, H2. cbn [runTokenRef] in H1.
    destruct H1 as [T1 F1], H2 as [T2 F2]. cbn [fst snd component loops].
    repeat split.
    + lia.
    + apply Forall_app. split; assumption.
    + intros Hb. apply Forall_app. split.
      * eapply Forall_impl; [| exact Hb]. cbn. intros l Hl. lia.
      * repeat constructor; cbn [loopToken]; lia.
Qed.

Lemma Forall_setNth {A} (P : A -> Prop) i x (l : list A) :
  P x -> Forall P l -> Forall P (setNth i x l).
Proof.
  intros Hx Hl. revert i.
  induction Hl as [|y l Hy Hl IH]; intros [|i]; cbn; constructor; auto.
Qed.

(** The token never decreases. *)
Lemma step_token_mono clk e s :
  runTokenRef (component s) <= runTokenRef (component (fst (step clk e s))).
Proof.
  destruct e as [| | | i w | k]; cbn [step].
  - apply startRun_spec.
  - cbn. lia.
  - destruct (stopTimerRef (component s)); cbn; lia.
  - destruct (nth_error (loops s) i) as [l |]; [| cbn; lia].
    destruct (resume clk (loopLane l) (loopToken l) (loopPoint l) w
                (component s)) as [[[c' pt] calls] |] eqn:Hr; [| cbn; lia].
    cbn [fst component]. eapply resume_token_mono, Hr.
  - destruct (nth_error (animationTimersRef (component s)) k) as [t |];
      [| cbn; lia].
    cbn [fst component]. unfold animationTimerCallback.
    destruct (negb _); cbn; lia.
Qed.

(** Every request of a step carries a token that is at least the current
    one. *)
Lemma step_calls clk e s :
  Forall (fun call => runTokenRef (component s) <= callToken call)
    (snd (step clk e s)).
Proof.
  destruct e as [| | | i w | k]; cbn [step].
  - eapply Forall_impl; [| apply startRun_spec]. cbn. intros call ->. lia.
  - constructor.
  - destruct (stopTimerRef (component s)); constructor.
  - destruct (nth_error (loops s) i) as [l |]; [| constructor].
    destruct (resume clk (loopLane l) (loopToken l) (loopPoint l) w
                (component s)) as [[[c' pt] calls] |] eqn:Hr; [| constructor].
    cbn [snd].
    destruct (isActiveRun (component s) clk (loopToken l)) eqn:Hact.
    + apply isActiveRun_token in Hact.
      eapply Forall_impl; [| eapply resume_calls, Hr].
      cbn. intros call ->. lia.
    + apply (resume_inactive _ _ _ _ _ _ _ Hact) in Hr.
      injection Hr as _ _ ->. constructor.
  - destruct (nth_error (animationTimersRef (component s)) k); constructor.
Qed.

Lemma run_token_mono events : forall s,
  runTokenRef (component s) <= runTokenRef (component (fst (run s events))).
Proof.
  induction events as [|[clk e] rest IH]; intros s; [cbn; lia |].
  rewrite run_cons. cbn [fst].
  pose proof (step_token_mono clk e s). specialize (IH (fst (step clk e s))).
  lia.
Qed.

Lemma run_calls events : forall s,
  Forall (fun call => runTokenRef (component s) <= callToken call)
    (snd (run s events)).
Proof.
  induction events as [|[clk e] rest IH]; intros s; [constructor |].
  rewrite run_cons. cbn [snd]. apply Forall_app. split.
  - apply step_calls.
  - eapply Forall_impl; [| apply IH]. cbn. intros call Hc.
    pose proof (step_token_mono clk e s). lia.
Qed.

(** No suspended loop carries a token beyond the current one. *)
Lemma step_loops_bounded clk e s :
  Forall (fun l => loopToken l <= runTokenRef (component s)) (loops s) ->
  Forall (fun l => loopToken l <= runTokenRef (component (fst (step clk e s))))
    (loops (fst (step clk e s))).
Proof.
  intros Hb.
  assert (Hmono := step_token_mono clk e s).
  assert (Hweak : Forall (fun l => loopToken l
                    <= runTokenRef (component (fst (step clk e s)))) (loops s))
    by (eapply Forall_impl; [| exact Hb]; cbn; intros; lia).
  destruct e as [| | | i w | k]; cbn [step] in *.
  - now apply startRun_spec.
  - exact Hweak.
  - destruct (stopTimerRef (component s)); exact Hweak.
  - destruct (nth_error (loops s) i) as [l |] eqn:Hl; [| exact Hweak].
    destruct (resume clk (loopLane l) (loopToken l) (loopPoint l) w
                (component s)) as [[[c' pt] calls] |] eqn:Hr; [| exact Hweak].
    cbn [fst component loops] in *.
    apply Forall_setNth; [| exact Hweak]. cbn [loopToken].
    apply nth_error_In in Hl.
    rewrite Forall_forall in Hweak. now apply Hweak.
  - destruct (nth_error (animationTimersRef (component s)) k); exact Hweak.
Qed.

Lemma run_loops_bounded events : forall s,
  Forall (fun l => loopToken l <= runTokenRef (component s)) (loops s) ->
  Forall (fun l => loopToken l <= runTokenRef (component (fst (run s events))))
    (loops (fst (run s events))).
Proof.
  induction events as [|[clk e] rest IH]; intros s Hb; [exact Hb |].
  rewrite run_cons. cbn [fst]. apply IH, step_loops_bounded, Hb.
Qed.

End RunToken.

(** ** Stopping a run *)

Section Stopping.
Import RaceDemo.

Lemma stopRun_spec c :
  bothStopped (stopRun c) /\
  runDeadlineRef (stopRun c) = None /\
  runTokenRef (stopRun c) = runTokenRef c + 1 /\
  isRunning (stopRun c) = false /\
  animationTimersRef (stopRun c) = [] /\
  forall lane, lastError (getLane lane (lanes (stopRun c)))
               = lastError (getLane lane (lanes c)).
Proof.
  repeat split. intros []; reflexivity.
Qed.

(** Once the deadline is cleared and until a new run is started, an event
    issues no request and leaves both lanes stopped. *)
Lemma step_while_stopped clk e s :
  runDeadlineRef (component s) = None ->
  bothStopped (component s) ->
  e <> StartClicked ->
  snd (step clk e s) = [] /\
  runDeadlineRef (component (fst (step clk e s))) = None /\
  bothStopped (component (fst (step clk e s))).
Proof.
  intros Hd Hs He.
  assert (Hsame : snd (s, @nil Call) = [] /\
                  runDeadlineRef (component (fst (s, @nil Call))) = None /\
                  bothStopped (component (fst (s, @nil Call))))
    by (cbn [fst snd]; auto).
  assert (Hstop : snd ({| component := stopRun (component s);
                          loops := loops s |}, @nil Call) = [] /\
                  runDeadlineRef (component (fst
                    ({| component := stopRun (component s);
                        loops := loops s |}, @nil Call))) = None /\
                  bothStopped (component (fst
                    ({| component := stopRun (component s);
                        loops := loops s |}, @nil Call))))
    by (cbn [fst snd component]; repeat split).
  destruct e as [| | | i w | k]; cbn [step]; [contradiction | | | |].
  - exact Hstop.
  - destruct (stopTimerRef (component s)); assumption.
  - destruct (nth_error (loops s) i) as [l |]; [| exact Hsame].
    destruct (resume clk (loopLane l) (loopToken l) (loopPoint l) w
                (component s)) as [r |] eqn:Hr; [| exact Hsame].
    apply resume_inactive in Hr; [| now apply isActiveRun_no_deadline].
    subst r. cbn [fst snd component]. auto.
  - destruct (nth_error (animationTimersRef (component s)) k) as [t |];
      [| exact Hsame].
    cbn [fst snd component]. unfold animationTimerCallback.
    rewrite isActiveRun_no_deadline by exact Hd. cbn [negb].
    auto.
Qed.

Lemma run_while_stopped events : forall s,
  runDeadlineRef (component s) = None ->
  bothStopped (component s) ->
  noStart events ->
  snd (run s events) = [] /\
  runDeadlineRef (component (fst (run s events))) = None /\
  bothStopped (component (fst (run s events))).
Proof.
  induction events as [|[clk e] rest IH]; intros s Hd Hs Hn;
    [cbn [run fst snd]; auto |].
  rewrite run_cons. cbn [fst snd].
  inversion Hn as [| ? ? He Hrest]; subst. cbn [snd] in He.
  destruct (step_while_stopped clk e s Hd Hs He) as (Hc & Hd' & Hs').
  destruct (IH _ Hd' Hs' Hrest) as (Hc2 & Hd2 & Hs2).
  rewrite Hc, Hc2. auto.
Qed.

(** After [stopRun], whatever happens next, every request carries a token
    beyond the one that was current when the run was stopped. *)
Lemma run_after_stopRun s events call :
  In call (snd (run {| component := stopRun (component s); loops := loops s |}
                    events)) ->
  runTokenRef (component s) < callToken call.
Proof.
  intros Hin.
  pose proof (run_calls events
                {| component := stopRun (component s); loops := loops s |})
    as Hall.
  rewrite Forall_forall in Hall. specialize (Hall call Hin).
  cbn [component stopRun runTokenRef] in Hall. lia.
Qed.

End Stopping.

(** C5.  At whatever moment of whatever history of the component [stopRun]
    is called (by the Stop button, or by the auto-stop timer), when it
    returns both lanes carry the status [stopped] and the token is
    invalidated: the loops suspended at that moment carry tokens up to the
    old one and are no longer active, while every send or confirm request
    issued afterwards carries a newer token, so it comes from a run
    started later; as long as no new run is started no request is issued
    at all, and both lanes stay [stopped]. *)
Theorem stopRun_halts_both_lanes :
  forall (before after : list (RaceDemo.Clock * RaceDemo.Event))
         (clk : RaceDemo.Clock),
    let s0 := fst (RaceDemo.run RaceDemo.initialSystem before) in
    let s1 := {| RaceDemo.component := RaceDemo.stopRun (RaceDemo.component s0);
                 RaceDemo.loops := RaceDemo.loops s0 |} in
    RaceDemo.step clk RaceDemo.StopClicked s0 = (s1, []) /\
    (RaceDemo.stopTimerRef (RaceDemo.component s0) = true ->
     RaceDemo.step clk RaceDemo.StopTimerFired s0 = (s1, [])) /\
    bothStopped (RaceDemo.component s1) /\
    (forall l clk',
        In l (RaceDemo.loops s1) ->
        RaceDemo.loopToken l <= RaceDemo.runTokenRef (RaceDemo.component s0) /\
        RaceDemo.isActiveRun (RaceDemo.component s1) clk'
          (RaceDemo.loopToken l) = false) /\
    (forall call,
        In call (snd (RaceDemo.run s1 after)) ->
        RaceDemo.runTokenRef (RaceDemo.component s0)
        < RaceDemo.callToken call) /\
    (noStart after ->
     snd (RaceDemo.run s1 after) = [] /\
     bothStopped (RaceDemo.component (fst (RaceDemo.run s1 after)))).
Proof.
  intros before after clk s0 s1.
  destruct (stopRun_spec (RaceDemo.component s0)) as (Hst & Hd & Ht & _).
  split; [reflexivity |].
  split; [intros Harmed; cbn [RaceDemo.step]; now rewrite Harmed |].
  split; [exact Hst |]. split; [| split].
  - intros l clk' Hin. cbn [s1 RaceDemo.loops] in Hin.
    assert (Hb : Forall (fun l => RaceDemo.loopToken l
                   <= RaceDemo.runTokenRef (RaceDemo.component s0))
                   (RaceDemo.loops s0))
      by (apply run_loops_bounded; constructor).
    rewrite Forall_forall in Hb. split; [now apply Hb |].
    apply isActiveRun_no_deadline. exact Hd.
  - intros call Hin. now apply run_after_stopRun in Hin.
  - intros Hn.
    destruct (run_while_stopped after s1 Hd Hst Hn) as (Hc & _ & Hs).
    now split.
Qed.

Lemma stopRun_halts_both_lanes_witness :
  snd (RaceDemo.run
         {| RaceDemo.component :=
              RaceDemo.stopRun
                (RaceDemo.component
                   (fst (RaceDemo.run RaceDemo.initialSystem
                           [({| RaceDemo.dateNow := 1000;
                                RaceDemo.performanceNow := 0 |},
                             RaceDemo.StartClicked)])));
            RaceDemo.loops :=
              RaceDemo.loops
                (fst (RaceDemo.run RaceDemo.initialSystem
                        [({| RaceDemo.dateNow := 1000;
                             RaceDemo.performanceNow := 0 |},
                          RaceDemo.StartClicked)])) |}
         [({| RaceDemo.dateNow := 1600; RaceDemo.performanceNow := 600 |},
           RaceDemo.LoopWakes 0
             (RaceDemo.SendSettled
                (Fulfilled {| txHash := "0xf1"; from := "0xaa" |})));
          ({| RaceDemo.dateNow := 1700; RaceDemo.performanceNow := 700 |},
           RaceDemo.LoopWakes 1
             (RaceDemo.SendSettled
                (Rejected (ErrorObject "Error" "fetch failed"))))]) = [].
Proof.
  refine (proj1 (proj2 (proj2 (proj2 (proj2 (proj2
    (stopRun_halts_both_lanes
       [({| RaceDemo.dateNow := 1000; RaceDemo.performanceNow := 0 |},
         RaceDemo.StartClicked)]
       [({| RaceDemo.dateNow := 1600; RaceDemo.performanceNow := 600 |},
         RaceDemo.LoopWakes 0
           (RaceDemo.SendSettled
              (Fulfilled {| txHash := "0xf1"; from := "0xaa" |})));
        ({| RaceDemo.dateNow := 1700; RaceDemo.performanceNow := 700 |},
         RaceDemo.LoopWakes 1
           (RaceDemo.SendSettled
              (Rejected (ErrorObject "Error" "fetch failed"))))]
       {| RaceDemo.dateNow := 1500; RaceDemo.performanceNow := 500 |}))))) _)).
  repeat constructor; discriminate.
Defined.

(** While the run is active the same events do issue requests: both loops
    send at the start, and a loop polls once its send has settled. *)
Example run_issues_requests :
  snd (RaceDemo.run RaceDemo.initialSystem
         [({| RaceDemo.dateNow := 1000; RaceDemo.performanceNow := 0 |},
           RaceDemo.StartClicked);
          ({| RaceDemo.dateNow := 1600; RaceDemo.performanceNow := 600 |},
           RaceDemo.LoopWakes 0
             (RaceDemo.SendSettled
                (Fulfilled {| txHash := "0xf1"; from := "0xaa" |})));
          ({| RaceDemo.dateNow := 1700; RaceDemo.performanceNow := 700 |},
           RaceDemo.LoopWakes 1
             (RaceDemo.SendSettled
                (Rejected (ErrorObject "Error" "fetch failed"))));
          ({| RaceDemo.dateNow := 1740; RaceDemo.performanceNow := 740 |},
           RaceDemo.LoopWakes 1 RaceDemo.SleepElapsed)]) =
  [RaceDemo.SendCall flashblocks 1; RaceDemo.SendCall normal 1;
   RaceDemo.ConfirmCall flashblocks 1 "0xf1"; RaceDemo.SendCall normal 1].
Proof. vm_compute. reflexivity. Qed.

(** ** Failures of a send *)

Section SendFailures.
Import RaceDemo.

Lemma updateLane_runControl lane f c :
  runControl (updateLane lane f c) = runControl c.
Proof. reflexivity. Qed.

Lemma loopHead_runControl clk lane token c :
  runControl (fst (fst (loopHead clk lane token c))) = runControl c.
Proof. unfold loopHead. now destruct (isActiveRun c clk token). Qed.

Lemma afterPoll_runControl clk lane token t0 wc m c :
  runControl (fst (fst (afterPoll clk lane token t0 wc m c))) = runControl c.
Proof.
  unfold afterPoll. destruct (negb wc || negb (isActiveRun c clk token));
    now rewrite loopHead_runControl.
Qed.

Lemma pollHead_runControl clk lane token t0 tx wc m c :
  runControl (fst (fst (pollHead clk lane token t0 tx wc m c))) = runControl c.
Proof.
  unfold pollHead. destruct (isActiveRun c clk token && negb wc);
    [reflexivity | apply afterPoll_runControl].
Qed.

Lemma afterAttempt_runControl clk lane token t0 tx wc m c :
  runControl (fst (fst (afterAttempt clk lane token t0 tx wc m c)))
  = runControl c.
Proof.
  unfold afterAttempt. destruct (negb wc && isActiveRun c clk token);
    [reflexivity | apply pollHead_runControl].
Qed.

(** However a confirm request settles, the run goes on as before. *)
Lemma afterConfirm_runControl clk lane token t0 tx wc m r c :
  runControl (fst (fst (afterConfirm clk lane token t0 tx wc m r c)))
  = runControl c.
Proof.
  unfold afterConfirm. destruct r as [res | err].
  - apply afterAttempt_runControl.
  - destruct (negb (isActiveRun c clk token) || isAbortError err);
      [reflexivity | apply afterAttempt_runControl].
Qed.

(** A send that settles without an insufficient-funds failure leaves the
    run going as before. *)
Lemma afterSend_runControl clk lane token t0 r c :
  (forall err, r = Rejected err ->
               isInsufficientFundsError (asErrorMessage err) = false) ->
  runControl (fst (fst (afterSend clk lane token t0 r c))) = runControl c.
Proof.
  intros Hr. unfold afterSend. destruct r as [res | err].
  - destruct (negb (isActiveRun c clk token)); [reflexivity |].
    now rewrite pollHead_runControl.
  - rewrite (Hr err eq_refl).
    now destruct (negb (isActiveRun c clk token) || isAbortError err).
Qed.

End SendFailures.

(** C6.  When the send of a lane of the active run fails, not by an abort,
    with a message classified as insufficient funds, the lane records the
    message as [lastError] and takes the status [error], the fatal
    notification is set and [stopRun] is called: the run is stopped for
    both lanes, the loop returns, and no later request belongs to that
    run.  It is the only failure that ends the run: a send failure of
    another class puts the lane in [error] and retries after a pause, and
    however a send without such a failure or a confirm request settles,
    the running flag, token, deadline and notification stay as they are. *)
Theorem insufficient_funds_stops_run :
  forall (s : RaceDemo.System) (clk : RaceDemo.Clock) (i : nat)
         (l : RaceDemo.Loop) (sendStartAt : Q) (err : JsThrown)
         (after : list (RaceDemo.Clock * RaceDemo.Event)),
    nth_error (RaceDemo.loops s) i = Some l ->
    RaceDemo.loopPoint l = RaceDemo.AwaitSend sendStartAt ->
    RaceDemo.isActiveRun (RaceDemo.component s) clk (RaceDemo.loopToken l)
      = true ->
    RaceDemo.isAbortError err = false ->
    RaceDemo.isInsufficientFundsError (RaceDemo.asErrorMessage err) = true ->
    let lane := RaceDemo.loopLane l in
    let message := RaceDemo.asErrorMessage err in
    let c1 :=
      RaceDemo.updateLane lane (RaceDemo.toError message)
        (RaceDemo.component s) in
    let result :=
      RaceDemo.step clk
        (RaceDemo.LoopWakes i (RaceDemo.SendSettled (Rejected err))) s in
    let c' := RaceDemo.component (fst result) in
    (RaceDemo.status (RaceDemo.getLane lane (RaceDemo.lanes c1))
       = RaceDemo.error /\
     RaceDemo.lastError (RaceDemo.getLane lane (RaceDemo.lanes c1))
       = Some message) /\
    c' = RaceDemo.stopRun
           (RaceDemo.setFatalErrorMessage (outOfGasMessage lane) c1) /\
    snd result = [] /\
    nth_error (RaceDemo.loops (fst result)) i =
      Some {| RaceDemo.loopLane := lane;
              RaceDemo.loopToken := RaceDemo.loopToken l;
              RaceDemo.loopPoint := RaceDemo.Returned |} /\
    RaceDemo.lastError (RaceDemo.getLane lane (RaceDemo.lanes c'))
      = Some message /\
    bothStopped c' /\
    RaceDemo.fatalErrorMessage c' = Some (outOfGasMessage lane) /\
    RaceDemo.isRunning c' = false /\
    (forall call,
        In call (snd (RaceDemo.run (fst result) after)) ->
        RaceDemo.loopToken l < RaceDemo.callToken call) /\
    (forall err',
        RaceDemo.isAbortError err' = false ->
        RaceDemo.isInsufficientFundsError (RaceDemo.asErrorMessage err')
          = false ->
        RaceDemo.afterSend clk lane (RaceDemo.loopToken l) sendStartAt
          (Rejected err') (RaceDemo.component s) =
        (RaceDemo.updateLane lane
           (RaceDemo.toError (RaceDemo.asErrorMessage err'))
           (RaceDemo.component s),
         RaceDemo.SleepAfterError, [])) /\
    (forall clk2 lane2 token2 t2 r c,
        (forall err', r = Rejected err' ->
           RaceDemo.isInsufficientFundsError (RaceDemo.asErrorMessage err')
             = false) ->
        runControl
          (fst (fst (RaceDemo.afterSend clk2 lane2 token2 t2 r c)))
        = runControl c) /\
    (forall clk2 lane2 token2 t2 tx wc m r c,
        runControl
          (fst (fst (RaceDemo.afterConfirm clk2 lane2 token2 t2 tx wc m r c)))
        = runControl c).
Proof.
  intros s clk i l t0 err after Hl Hpt Hact Hab Hins lane message c1 result c'.
  assert (Hres : result =
            ({| RaceDemo.component :=
                  RaceDemo.stopRun
                    (RaceDemo.setFatalErrorMessage (outOfGasMessage lane) c1);
                RaceDemo.loops :=
                  ListOps.setNth i
                    {| RaceDemo.loopLane := lane;
                       RaceDemo.loopToken := RaceDemo.loopToken l;
                       RaceDemo.loopPoint := RaceDemo.Returned |}
                    (RaceDemo.loops s) |}, [])).
  { unfold result. cbn [RaceDemo.step]. rewrite Hl, Hpt.
    cbn [RaceDemo.resume RaceDemo.afterSend]. fold lane message.
    fold message in Hins. rewrite Hact, Hab. cbn [negb orb]. rewrite Hins.
    reflexivity. }
  assert (Hc' : c' = RaceDemo.stopRun
                       (RaceDemo.setFatalErrorMessage (outOfGasMessage lane) c1))
    by (unfold c'; now rewrite Hres).
  assert (Hlane : RaceDemo.status (RaceDemo.getLane lane (RaceDemo.lanes c1))
                    = RaceDemo.error /\
                  RaceDemo.lastError (RaceDemo.getLane lane (RaceDemo.lanes c1))
                    = Some message)
    by (unfold c1; destruct lane; split; reflexivity).
  split; [exact Hlane |]. split; [exact Hc' |].
  split; [now rewrite Hres |].
  split.
  { rewrite Hres. cbn [fst RaceDemo.loops]. clear - Hl.
    revert i Hl. induction (RaceDemo.loops s) as [|x xs IH]; intros [|i] Hl;
      try discriminate Hl; cbn; [reflexivity | now apply IH]. }
  destruct (stopRun_spec
              (RaceDemo.setFatalErrorMessage (outOfGasMessage lane) c1))
    as (Hst & _ & _ & Hrun & _ & Herr).
  rewrite Hc'.
  split; [rewrite Herr; exact (proj2 Hlane) |].
  split; [exact Hst |]. split; [reflexivity |]. split; [exact Hrun |].
  split.
  { intros call Hin. rewrite Hres in Hin. cbn [fst] in Hin.
    pose proof (run_calls after
      {| RaceDemo.component :=
           RaceDemo.stopRun
             (RaceDemo.setFatalErrorMessage (outOfGasMessage lane) c1);
         RaceDemo.loops :=
           ListOps.setNth i
             {| RaceDemo.loopLane := lane;
                RaceDemo.loopToken := RaceDemo.loopToken l;
                RaceDemo.loopPoint := RaceDemo.Returned |}
             (RaceDemo.loops s) |}) as Hall.
    rewrite Forall_forall in Hall. specialize (Hall call Hin).
    apply isActiveRun_token in Hact.
    cbn [RaceDemo.component RaceDemo.stopRun RaceDemo.runTokenRef
         RaceDemo.setFatalErrorMessage] in Hall.
    unfold c1 in Hall. cbn in Hall. lia. }
  split.
  { intros err' Hab' Hins'. cbn [RaceDemo.afterSend].
    now rewrite Hact, Hab', Hins'. }
  split.
  - intros. now apply afterSend_runControl.
  - intros. apply afterConfirm_runControl.
Qed.

Lemma insufficient_funds_stops_run_witness :
  bothStopped
    (RaceDemo.component
       (fst (RaceDemo.step
               {| RaceDemo.dateNow := 1500; RaceDemo.performanceNow := 500 |}
               (RaceDemo.LoopWakes 0
                  (RaceDemo.SendSettled
                     (Rejected
                        (ErrorObject "Error"
                           "insufficient funds for gas * price + value"))))
               (fst (RaceDemo.run RaceDemo.initialSystem
                       [({| RaceDemo.dateNow := 1000;
                            RaceDemo.performanceNow := 0 |},
                         RaceDemo.StartClicked)]))))).
Proof.
  refine (proj1 (proj2 (proj2 (proj2 (proj2 (proj2
    (insufficient_funds_stops_run
       (fst (RaceDemo.run RaceDemo.initialSystem
               [({| RaceDemo.dateNow := 1000; RaceDemo.performanceNow := 0 |},
                 RaceDemo.StartClicked)]))
       {| RaceDemo.dateNow := 1500; RaceDemo.performanceNow := 500 |}
       0%nat
       {| RaceDemo.loopLane := flashblocks; RaceDemo.loopToken := 1;
          RaceDemo.loopPoint := RaceDemo.AwaitSend 0 |}
       0%Q
       (ErrorObject "Error" "insufficient funds for gas * price + value")
       [] _ _ _ _ _))))))); vm_compute; reflexivity.
Defined.

(** ** The send queue *)

Section SendQueueFacts.
Import ListOps SendQueue.

Lemma nth_error_setNth_eq {A} (x : A) : forall l i,
  (i < List.length l)%nat -> nth_error (setNth i x l) i = Some x.
Proof.
  induction l as [|y l IH]; intros [|i] Hi; cbn in *; try lia;
    [reflexivity | apply IH; lia].
Qed.

Lemma nth_error_setNth_ne {A} (x : A) : forall l i j,
  i <> j -> nth_error (setNth i x l) j = nth_error l j.
Proof.
  induction l as [|y l IH]; intros [|i] [|j] Hne; cbn; try reflexivity;
    [contradiction | apply IH; lia].
Qed.

Lemma length_setNth {A} (x : A) : forall l i,
  List.length (setNth i x l) = List.length l.
Proof.
  induction l as [|y l IH]; intros [|i]; cbn; try reflexivity.
  now rewrite IH.
Qed.

Lemma nth_error_snoc {A} (l : list A) x j e :
  nth_error (l ++ [x]) j = Some e ->
  ((j < List.length l)%nat /\ nth_error l j = Some e) \/
  (j = List.length l /\ e = x).
Proof.
  intros H. destruct (Nat.lt_ge_cases j (List.length l)) as [Hlt | Hge].
  - left. split; [exact Hlt |]. now rewrite nth_error_app1 in H.
  - right. rewrite nth_error_app2 in H by exact Hge.
    destruct (j - List.length l)%nat as [|k] eqn:Hk.
    + cbn in H. injection H as <-. split; [lia | reflexivity].
    + cbn in H. now destruct k.
Qed.

Lemma monitorAll_app m a b :
  monitorAll m (a ++ b) =
  match monitorAll m a with
  | Some m' => monitorAll m' b
  | None => None
  end.
Proof.
  revert m. induction a as [|o a IH]; intros m; cbn; [reflexivity |].
  destruct (monitor m o); [apply IH | reflexivity].
Qed.

(** *** The queue keeps agreeing with the monitor *)

Lemma agrees_enqueue lane q m :
  agrees q m -> agrees (enqueueSendTransaction lane q) m.
Proof.
  intros [[Hch Htail] Hm].
  assert (Hshape : forall d busy,
             queueShape q d busy ->
             (if busy then d < List.length (entries q)
              else d <= List.length (entries q))%nat ->
             queueShape (enqueueSendTransaction lane q) d busy).
  { intros d busy Hs Hd j e Hj. cbn [enqueueSendTransaction entries] in Hj.
    apply nth_error_snoc in Hj. destruct Hj as [[_ Hj] | [-> ->]].
    - now apply Hs.
    - cbn [opState]. repeat split; try reflexivity.
      + intros Hlt. destruct busy; lia.
      + intros <-. destruct busy; [lia | reflexivity]. }
  split.
  - split.
    + intros j e Hj. cbn [enqueueSendTransaction entries] in Hj.
      apply nth_error_snoc in Hj. destruct Hj as [[_ Hj] | [-> ->]].
      * now apply Hch.
      * cbn [chainedOn]. exact Htail.
    + cbn [enqueueSendTransaction entries sendTransactionQueue].
      rewrite length_app. cbn [List.length].
      now replace (List.length (entries q) + 1)%nat
        with (S (List.length (entries q))) by lia.
  - destruct m as [d e | i n | i | i]; [| | | exact Hm];
      cbn [enqueueSendTransaction entries nonceState];
      rewrite ?length_app; cbn [List.length].
    + destruct Hm as (Hs & Hd & He).
      split; [apply Hshape; assumption |]. split; [lia | exact He].
    + destruct Hm as (Hs & Hd & He).
      split; [apply Hshape; assumption |]. split; [lia | exact He].
    + destruct Hm as (Hs & Hd).
      split; [apply Hshape; [exact Hs | lia] | lia].
Qed.

(** Replacing the state of call [i], the only one that changes. *)
Lemma queueShape_setEntry q i en st n d busy d' busy' :
  nth_error (entries q) i = Some en ->
  queueShape q d busy ->
  (forall j st', j <> i -> shapeAt d busy j st' -> shapeAt d' busy' j st') ->
  shapeAt d' busy' i st ->
  queueShape (setEntry i {| caller := caller en; chainedOn := chainedOn en; opState := st |} n q)
    d' busy'.
Proof.
  intros Hi Hs Hother Hnew j e Hj. cbn [setEntry entries] in Hj.
  destruct (Nat.eq_dec i j) as [<- | Hne].
  - rewrite nth_error_setNth_eq in Hj
      by (apply nth_error_Some; congruence).
    injection Hj as <-. exact Hnew.
  - rewrite nth_error_setNth_ne in Hj by exact Hne.
    apply Hother; [congruence | now apply Hs].
Qed.

Lemma chained_setEntry q i en st n :
  nth_error (entries q) i = Some en ->
  chained q ->
  chained (setEntry i {| caller := caller en; chainedOn := chainedOn en; opState := st |} n q).
Proof.
  intros Hi [Hch Htail]. split.
  - intros j e Hj. cbn [setEntry entries] in Hj.
    destruct (Nat.eq_dec i j) as [<- | Hne].
    + rewrite nth_error_setNth_eq in Hj
        by (apply nth_error_Some; congruence).
      injection Hj as <-. cbn [chainedOn]. now apply Hch.
    + rewrite nth_error_setNth_ne in Hj by exact Hne. now apply Hch.
  - cbn [setEntry entries sendTransactionQueue]. now rewrite length_setNth.
Qed.

(** Only the call at the head of the shape can be in flight. *)
Lemma running_index q d busy i en k :
  queueShape q d busy ->
  nth_error (entries q) i = Some en ->
  opState en = Running k ->
  i = d /\ busy = true /\
  (k = DemoTx.recoverNonce \/ k = DemoTx.settleAsSend).
Proof.
  intros Hs Hi Hk. destruct (Hs i en Hi) as (Ha & Hb & Hc). rewrite Hk in *.
  destruct (lt_eq_lt_dec i d) as [[Hlt | Heq] | Hgt].
  - specialize (Ha Hlt). discriminate Ha.
  - specialize (Hc Heq). destruct busy; [| discriminate Hc].
    repeat split; [exact Heq |].
    destruct Hc as [Hc | Hc]; injection Hc as ->; auto.
  - specialize (Hb Hgt). discriminate Hb.
Qed.

(** Only the call at the head of the shape can start, and only when no
    send is in flight: the promise of any later call is still pending. *)
Lemma start_index q d busy i en :
  chained q -> queueShape q d busy ->
  nth_error (entries q) i = Some en ->
  opState en = Queued ->
  promiseSettled q (chainedOn en) = true ->
  i = d /\ busy = false.
Proof.
  intros [Hch _] Hs Hi Hq Hp.
  destruct (Hs i en Hi) as (Ha & Hb & Hc). rewrite Hq in *.
  destruct (lt_eq_lt_dec i d) as [[Hlt | Heq] | Hgt].
  - specialize (Ha Hlt). discriminate Ha.
  - split; [exact Heq |]. specialize (Hc Heq).
    destruct busy; [destruct Hc; discriminate | reflexivity].
  - exfalso. rewrite (Hch i en Hi) in Hp.
    destruct i as [|i']; [lia |]. cbn [promiseSettled] in Hp.
    destruct (nth_error (entries q) i') as [e' |] eqn:Hi'; [| discriminate].
    destruct (Hs i' e' Hi') as (_ & Hb' & Hc').
    destruct (Nat.eq_dec i' d) as [Heq | Hne].
    + specialize (Hc' Heq).
      destruct busy; [destruct Hc' as [Hc' | Hc'] |];
        rewrite Hc' in Hp; discriminate.
    + rewrite Hb' in Hp by lia. discriminate.
Qed.

Ltac shape_cases :=
  let Ha := fresh "Ha" in
  let Hb := fresh "Hb" in
  let Hc := fresh "Hc" in
  intros ? ? ? (Ha & Hb & Hc); repeat split; intros;
  first [ apply Ha; lia | apply Hb; lia | exfalso; lia
        | apply Hc; lia ].

Lemma agrees_step source e q m :
  agrees q m ->
  exists m',
    monitorAll m (snd (step source e q)) = Some m' /\
    agrees (fst (step source e q)) m'.
Proof.
  intros Hag.
  assert (Hsame : exists m', monitorAll m (snd (q, @nil Observation)) = Some m'
                             /\ agrees (fst (q, @nil Observation)) m')
    by (exists m; split; [reflexivity | exact Hag]).
  destruct e as [lane | i | i r]; cbn [step].
  - exists m. split; [reflexivity | now apply agrees_enqueue].
  - destruct (nth_error (entries q) i) as [en |] eqn:Hi; [| exact Hsame].
    destruct (opState en) eqn:Hst; try exact Hsame.
    destruct (promiseSettled q (chainedOn en)) eqn:Hp; [| exact Hsame].
    cbn [progress DemoTx.sendOperation fst snd].
    assert (Hlen : (i < List.length (entries q))%nat)
      by (apply nth_error_Some; congruence).
    destruct Hag as [Hch Hm].
    destruct m as [d ex | b n | b | b]; [| | | contradiction].
    + destruct Hm as (Hs & Hd & He).
      destruct (start_index q d false i en Hch Hs Hi Hst Hp) as [-> _].
      exists (MBusy d (nextNonce (nonceState q))). split.
      * cbn [monitorAll monitor]. rewrite Nat.eqb_refl.
        destruct ex as [x |]; [| reflexivity].
        rewrite (He x eq_refl), Z.eqb_refl. reflexivity.
      * split; [now apply chained_setEntry |].
        split; [| split; [cbn [setEntry entries]; now rewrite length_setNth
                         | reflexivity]].
        eapply queueShape_setEntry; [exact Hi | exact Hs | shape_cases |].
        repeat split; intros; try lia. now left.
    + destruct Hm as (Hs & _).
      now destruct (start_index q b true i en Hch Hs Hi Hst Hp) as [_ ?].
    + destruct Hm as (Hs & Hb).
      destruct (start_index q (S b) false i en Hch Hs Hi Hst Hp) as [-> _].
      exists (MBusy (S b) (nextNonce (nonceState q))). split.
      * cbn [monitorAll monitor]. now rewrite Nat.eqb_refl.
      * split; [now apply chained_setEntry |].
        split; [| split; [cbn [setEntry entries]; now rewrite length_setNth
                         | reflexivity]].
        eapply queueShape_setEntry; [exact Hi | exact Hs | shape_cases |].
        repeat split; intros; try lia. now left.
  - destruct (nth_error (entries q) i) as [en |] eqn:Hi; [| exact Hsame].
    destruct (opState en) as [| k | res] eqn:Hst; try exact Hsame.
    assert (Hlen : (i < List.length (entries q))%nat)
      by (apply nth_error_Some; congruence).
    destruct Hag as [Hch Hm].
    destruct m as [d ex | b n | b | b]; [| | | contradiction].
    + destruct Hm as (Hs & _).
      now destruct (running_index q d false i en k Hs Hi Hst) as (_ & ? & _).
    + destruct Hm as (Hs & _ & Hn).
      destruct (running_index q b true i en k Hs Hi Hst) as (-> & _ & Hk).
      assert (Hdone : forall res' n',
                 (forall x, (if isFulfilled r then Some (n + 1) else None)
                            = Some x -> nextNonce n' = x) ->
                 exists m',
                   monitorAll (MBusy b n) [SendAnswered b (isFulfilled r)]
                     = Some m' /\
                   agrees (setEntry b {| caller := caller en;
                                         chainedOn := chainedOn en;
                                         opState := Settled res' |} n' q) m').
      { intros res' n' Hexp.
        exists (if isFulfilled r then MFree (S b) (Some (n + 1))
                else MFailed b).
        split; [cbn [monitorAll monitor]; rewrite Nat.eqb_refl;
                now destruct (isFulfilled r) |].
        assert (Hshape : queueShape
                  (setEntry b {| caller := caller en;
                                 chainedOn := chainedOn en;
                                 opState := Settled res' |} n' q) (S b) false).
        { eapply queueShape_setEntry; [exact Hi | exact Hs | shape_cases |].
          repeat split; intros; try lia. }
        assert (Hlen' : (b < List.length
                   (entries (setEntry b {| caller := caller en;
                                           chainedOn := chainedOn en;
                                           opState := Settled res' |} n' q)))%nat)
          by (cbn [setEntry entries]; now rewrite length_setNth).
        split; [now apply chained_setEntry |].
        destruct (isFulfilled r); [| now split].
        split; [exact Hshape |]. split; [lia |]. exact Hexp. }
      destruct Hk as [-> | ->].
      * destruct r as [hash | err]; cbn [isFulfilled DemoTx.recoverNonce].
        -- cbn [progress fst snd]. apply Hdone. cbn [isFulfilled].
           intros x Hx. injection Hx as <-. cbn. lia.
        -- destruct (negb (DemoTx.isNonceSyncError err)).
           ++ cbn [progress fst snd]. apply Hdone. cbn [isFulfilled].
              discriminate.
           ++ cbn [progress DemoTx.sendTransactionTail fst snd].
              exists (MBusy b source). split.
              ** cbn [monitorAll monitor]. rewrite Nat.eqb_refl.
                 cbn [monitor]. rewrite Nat.eqb_refl.
                 cbn [monitor]. rewrite Nat.eqb_refl. reflexivity.
              ** split; [now apply chained_setEntry |].
                 split; [| split; [cbn [setEntry entries];
                                   now rewrite length_setNth | reflexivity]].
                 eapply queueShape_setEntry;
                   [exact Hi | exact Hs | shape_cases |].
                 repeat split; intros; try lia. now right.
      * destruct r as [hash | err];
          cbn [isFulfilled DemoTx.settleAsSend progress fst snd];
          apply Hdone; cbn [isFulfilled];
          [intros x Hx; injection Hx as <-; cbn; lia | discriminate].
    + destruct Hm as (Hs & _).
      now destruct (running_index q (S b) false i en k Hs Hi Hst)
        as (_ & ? & _).
Qed.

Lemma queue_run_cons q source e rest :
  run q ((source, e) :: rest) =
  (fst (run (fst (step source e q)) rest),
   (snd (step source e q) ++ snd (run (fst (step source e q)) rest))%list).
Proof.
  cbn [run]. destruct (step source e q) as [q1 obs1]. cbn [fst snd].
  destruct (run q1 rest) as [q2 obs2]. reflexivity.
Qed.

Lemma agrees_run events : forall q m,
  agrees q m ->
  exists m',
    monitorAll m (snd (run q events)) = Some m' /\
    agrees (fst (run q events)) m'.
Proof.
  induction events as [|[source e] rest IH]; intros q m Hag.
  - exists m. split; [reflexivity | exact Hag].
  - rewrite queue_run_cons. cbn [fst snd].
    destruct (agrees_step source e q m Hag) as (m1 & Hm1 & Hag1).
    destruct (IH _ _ Hag1) as (m2 & Hm2 & Hag2).
    exists m2. split; [| exact Hag2].
    now rewrite monitorAll_app, Hm1.
Qed.

Lemma agrees_emptyQueue n : agrees (emptyQueue n) (MFree 0 None).
Proof.
  split; [split; [intros [|j] e H; discriminate H | reflexivity] |].
  split; [intros [|j] e H; discriminate H |].
  split; [cbn; lia | discriminate].
Qed.

End SendQueueFacts.

(** *** What an accepted sequence of observations looks like *)

Section AcceptedTraces.
Import SendQueue.













End AcceptedTraces.


(** Two sends back to back, one for each lane, enqueued before the first
    is answered: the second is issued only after the answer to the first,
    with the next nonce. *)
Example two_sends_back_to_back :
  snd (SendQueue.run (SendQueue.emptyQueue {| SendQueue.nextNonce := 7 |})
         [(7, SendQueue.Enqueue flashblocks); (7, SendQueue.Enqueue normal);
          (7, SendQueue.Start 0); (7, SendQueue.Start 1);
          (8, SendQueue.Answer 0 (Fulfilled "0xaa"));
          (8, SendQueue.Start 1);
          (9, SendQueue.Answer 1 (Fulfilled "0xbb"))]) =
  [SendQueue.SendIssued 0 7; SendQueue.SendAnswered 0 true;
   SendQueue.SendIssued 1 8; SendQueue.SendAnswered 1 true].
Proof. vm_compute. reflexivity. Qed.


(** ** The history of a lane state *)

Section LaneHistory.
Import ListOps RaceDemo.

Lemma evolves_refl a : evolves a a.
Proof. intros lane. now exists []. Qed.

Lemma evolves_trans a b c : evolves a b -> evolves b c -> evolves a c.
Proof.
  intros Hab Hbc lane.
  destruct (Hab lane) as [u1 H1]. destruct (Hbc lane) as [u2 H2].
  exists (u1 ++ u2)%list. now rewrite fold_left_app, <- H1.
Qed.

Lemma evolves_updateLane lane f u c :
  (forall current, f current = applyUpdate current u) ->
  evolves (lanes c) (lanes (updateLane lane f c)).
Proof.
  intros Hf lane'. cbn [updateLane withLanes lanes].
  destruct lane, lane'; cbn [getLane setLane onFlashblocks onNormal];
    first [ now exists [] | exists [u]; cbn [fold_left]; apply Hf ].
Qed.

Lemma evolves_stopRun c : evolves (lanes c) (lanes (stopRun c)).
Proof.
  intros lane. exists [Status stopped]. now destruct lane.
Qed.

Create HintDb lanes discriminated.

Lemma evolves_toSending lane c :
  evolves (lanes c) (lanes (updateLane lane toSending c)).
Proof. now apply (evolves_updateLane lane _ Sending). Qed.

Lemma evolves_withStatus lane s c :
  evolves (lanes c) (lanes (updateLane lane (withStatus s) c)).
Proof. now apply (evolves_updateLane lane _ (Status s)). Qed.

Lemma evolves_toError lane message c :
  evolves (lanes c) (lanes (updateLane lane (toError message) c)).
Proof. now apply (evolves_updateLane lane _ (Failed message)). Qed.

Lemma evolves_tick lane c :
  evolves (lanes c) (lanes (updateLane lane tickSendAnimation c)).
Proof. now apply (evolves_updateLane lane _ SendAnimation). Qed.

Lemma evolves_toConfirmed lane latencyMs m c :
  evolves (lanes c) (lanes (updateLane lane (toConfirmed latencyMs m) c)).
Proof. now apply (evolves_updateLane lane _ (Confirmation latencyMs m)). Qed.

Hint Resolve evolves_refl evolves_toSending evolves_withStatus evolves_toError
  evolves_tick evolves_toConfirmed evolves_stopRun : lanes.

Lemma loopHead_evolves clk lane token c :
  evolves (lanes c) (lanes (fst (fst (loopHead clk lane token c)))).
Proof.
  unfold loopHead. destruct (isActiveRun c clk token); cbn [fst];
    auto with lanes.
Qed.

Lemma afterPoll_evolves clk lane token t0 wc m c :
  evolves (lanes c) (lanes (fst (fst (afterPoll clk lane token t0 wc m c)))).
Proof.
  unfold afterPoll. destruct (negb wc || negb (isActiveRun c clk token)).
  - apply loopHead_evolves.
  - eapply evolves_trans; [| apply loopHead_evolves].
    apply (evolves_toConfirmed lane _ m
             (setConfirmAnimationUntil lane
                (performanceNow clk + LANE_PACKET_ANIMATION_MS lane)%Q c)).
Qed.

Lemma pollHead_evolves clk lane token t0 tx wc m c :
  evolves (lanes c) (lanes (fst (fst (pollHead clk lane token t0 tx wc m c)))).
Proof.
  unfold pollHead. destruct (isActiveRun c clk token && negb wc);
    [apply evolves_refl | apply afterPoll_evolves].
Qed.

Lemma afterAttempt_evolves clk lane token t0 tx wc m c :
  evolves (lanes c)
    (lanes (fst (fst (afterAttempt clk lane token t0 tx wc m c)))).
Proof.
  unfold afterAttempt. destruct (negb wc && isActiveRun c clk token);
    [apply evolves_refl | apply pollHead_evolves].
Qed.

Lemma afterSend_evolves clk lane token t0 r c :
  evolves (lanes c) (lanes (fst (fst (afterSend clk lane token t0 r c)))).
Proof.
  unfold afterSend. destruct r as [res | err].
  - destruct (negb (isActiveRun c clk token)); [apply evolves_refl |].
    eapply evolves_trans; [| apply pollHead_evolves].
    apply (evolves_withStatus lane waiting
             (triggerLaneSendAnimation clk lane token c)).
  - destruct (negb (isActiveRun c clk token) || isAbortError err);
      [apply evolves_refl |].
    destruct (isInsufficientFundsError (asErrorMessage err)); cbn [fst].
    + eapply evolves_trans; [apply (evolves_toError lane) |].
      apply (evolves_stopRun
               (setFatalErrorMessage _
                  (updateLane lane (toError (asErrorMessage err)) c))).
    + apply evolves_toError.
Qed.

Lemma afterConfirm_evolves clk lane token t0 tx wc m r c :
  evolves (lanes c)
    (lanes (fst (fst (afterConfirm clk lane token t0 tx wc m r c)))).
Proof.
  unfold afterConfirm. destruct r as [res | err].
  - apply afterAttempt_evolves.
  - destruct (negb (isActiveRun c clk token) || isAbortError err);
      [apply evolves_refl | apply afterAttempt_evolves].
Qed.

Lemma resume_evolves clk lane token point w c c' point' calls :
  resume clk lane token point w c = Some (c', point', calls) ->
  evolves (lanes c) (lanes c').
Proof.
  intros H.
  destruct point, w; try discriminate H; cbn [resume] in H;
    injection H as H;
    match type of H with
    | ?x = _ => replace c' with (fst (fst x)) by now rewrite H
    end;
    auto using loopHead_evolves, pollHead_evolves, afterSend_evolves,
      afterConfirm_evolves.
Qed.

Lemma fromFresh_evolves a b :
  evolves a b ->
  (forall lane, fromFresh (getLane lane a)) ->
  forall lane, fromFresh (getLane lane b).
Proof.
  intros Hab Ha lane. destruct (Ha lane) as [u1 H1].
  destruct (Hab lane) as [u2 H2]. exists (u1 ++ u2)%list.
  now rewrite fold_left_app, <- H1.
Qed.

Lemma fromFresh_INITIAL_LANES lane : fromFresh (getLane lane INITIAL_LANES).
Proof. exists []. now destruct lane. Qed.

(** Every event keeps the lane states within reach of the fresh one: a
    start resets them, everything else updates them. *)
Lemma step_fromFresh clk e s :
  (forall lane, fromFresh (getLane lane (lanes (component s)))) ->
  forall lane,
    fromFresh (getLane lane (lanes (component (fst (step clk e s))))).
Proof.
  intros Hs. destruct e as [| | | i w | k]; cbn [step].
  - unfold startRun. destruct (isRunning (component s)); [exact Hs |].
    match goal with
    | |- context [loopHead clk flashblocks ?t ?c1] =>
        pose proof (loopHead_evolves clk flashblocks t c1) as H1;
        destruct (loopHead clk flashblocks t c1) as [[c2 p1] calls1]
    end.
    pose proof (loopHead_evolves clk normal
                  (runTokenRef (component s) + 1) c2) as H2.
    destruct (loopHead clk normal (runTokenRef (component s) + 1) c2)
      as [[c3 p2] calls2].
    cbn [fst component lanes] in *.
    eapply fromFresh_evolves; [exact H2 |].
    eapply fromFresh_evolves; [exact H1 |].
    apply fromFresh_INITIAL_LANES.
  - cbn [fst component].
    eapply fromFresh_evolves; [apply evolves_stopRun | exact Hs].
  - destruct (stopTimerRef (component s)); cbn [fst component];
      [eapply fromFresh_evolves; [apply evolves_stopRun | exact Hs]
      | exact Hs].
  - destruct (nth_error (loops s) i) as [l |]; [| exact Hs].
    destruct (resume clk (loopLane l) (loopToken l) (loopPoint l) w
                (component s)) as [[[c' pt] calls] |] eqn:Hr; [| exact Hs].
    cbn [fst component].
    eapply fromFresh_evolves; [eapply resume_evolves, Hr | exact Hs].
  - destruct (nth_error (animationTimersRef (component s)) k) as [t |];
      [| exact Hs].
    cbn [fst component]. unfold animationTimerCallback.
    destruct (negb _); [exact Hs |].
    eapply fromFresh_evolves; [| exact Hs].
    apply (evolves_tick (timerLane t) (forgetAnimationTimer k (component s))).
Qed.

Lemma run_fromFresh events : forall s,
  (forall lane, fromFresh (getLane lane (lanes (component s)))) ->
  forall lane,
    fromFresh (getLane lane (lanes (component (fst (run s events))))).
Proof.
  induction events as [|[clk e] rest IH]; intros s Hs; [exact Hs |].
  rewrite run_cons. cbn [fst]. apply IH, step_fromFresh, Hs.
Qed.

End LaneHistory.

(** ** The confirmed cycles of a run *)

Section CycleObservation.
Import ListOps RaceDemo.

Lemma countIf_nonneg {A} (f : A -> bool) l : 0 <= countIf f l.
Proof. unfold countIf. lia. Qed.

Lemma countIf_cons {A} (f : A -> bool) x l :
  countIf f (x :: l) = (if f x then 1 else 0) + countIf f l.
Proof.
  unfold countIf. cbn [filter]. destruct (f x); cbn [List.length]; lia.
Qed.

Lemma countIf_app {A} (f : A -> bool) l1 l2 :
  countIf f (l1 ++ l2) = countIf f l1 + countIf f l2.
Proof.
  unfold countIf. rewrite filter_app, length_app. lia.
Qed.

Lemma countIf_none {A} (f : A -> bool) l :
  Forall (fun x => f x = false) l -> countIf f l = 0.
Proof.
  induction 1 as [|x l Hx Hl IH]; [reflexivity |].
  rewrite countIf_cons, Hx, IH. reflexivity.
Qed.

Lemma countIf_zero {A} (f : A -> bool) l :
  countIf f l = 0 -> Forall (fun x => f x = false) l.
Proof.
  induction l as [|x l IH]; intros H; [constructor |].
  rewrite countIf_cons in H. pose proof (countIf_nonneg f l).
  destruct (f x) eqn:Hx; [lia |]. constructor; [exact Hx | apply IH; lia].
Qed.

(** Where one element satisfies [f] and at most one does, the others do
    not. *)
Lemma countIf_only {A} (f : A -> bool) l1 x l2 :
  countIf f (l1 ++ x :: l2) <= 1 -> f x = true ->
  Forall (fun y => f y = false) l1 /\ Forall (fun y => f y = false) l2.
Proof.
  rewrite countIf_app, countIf_cons. intros H Hx. rewrite Hx in H.
  pose proof (countIf_nonneg f l1). pose proof (countIf_nonneg f l2).
  split; apply countIf_zero; lia.
Qed.

Lemma setNth_split {A} (y : A) l1 x l2 :
  setNth (List.length l1) y (l1 ++ x :: l2) = (l1 ++ y :: l2)%list.
Proof.
  induction l1 as [|z l1 IH]; [reflexivity |].
  cbn [List.length app setNth]. now rewrite IH.
Qed.

Lemma getLane_setLane {A} lane lane' (x : A) m :
  getLane lane' (setLane lane x m)
  = if DemoLane_eqb lane lane' then x else getLane lane' m.
Proof. destruct lane, lane'; reflexivity. Qed.

Lemma isActiveRun_ext c1 c2 clk token :
  runTokenRef c1 = runTokenRef c2 ->
  runDeadlineRef c1 = runDeadlineRef c2 ->
  isActiveRun c1 clk token = isActiveRun c2 clk token.
Proof. unfold isActiveRun. now intros -> ->. Qed.

Lemma meanInvariant_ext a b ls :
  confirmationsObserved a = confirmationsObserved b ->
  averageLatencyMs a = averageLatencyMs b ->
  meanInvariant b ls -> meanInvariant a ls.
Proof. unfold meanInvariant. now intros -> ->. Qed.

(** Every test of [isActiveRun] met during a resumption reads the token
    and the deadline that the resumption found. *)
Ltac same_run c H :=
  repeat match type of H with
         | context [isActiveRun ?x ?clk ?t] =>
             lazymatch x with
             | c => fail
             | _ => rewrite (isActiveRun_ext x c clk t eq_refl eq_refl) in H
             end
         end.

Ltac split_tests_in H :=
  repeat match type of H with
         | context [if ?b then _ else _] => destruct b eqn:?
         end.

(** The resumption of a loop of the active run: a confirmation is
    recorded exactly when the confirm route answers [confirmed]; a send
    request begins the next cycle, anything else stays in the cycle. *)
Lemma resume_active clk lane token point w c c' point' calls start :
  isActiveRun c clk token = true ->
  pointOk start point ->
  resume clk lane token point w c = Some (c', point', calls) ->
  (forall lane',
      let st := getLane lane' (lanes c) in
      let st' :=
        if answersConfirmed point w && DemoLane_eqb lane lane'
        then toConfirmed (performanceNow clk - start) none st
        else st in
      confirmationsObserved (getLane lane' (lanes c'))
      = confirmationsObserved st' /\
      averageLatencyMs (getLane lane' (lanes c')) = averageLatencyMs st') /\
  ((calls = [SendCall lane token] /\ point' = AwaitSend (performanceNow clk)) \/
   ((forall starts, sendStarts clk calls starts = starts) /\
    pointOk start point')).
Proof.
  intros Hact Hok H.
  destruct point as [t0 | | t0 tx wc m | t0 tx wc m |], w as [r | r |];
    try discriminate H; cbn [resume] in H;
    cbn [pointOk] in Hok;
    repeat match goal with K : _ /\ _ |- _ => destruct K end; subst;
    try (destruct r as [r | err]);
    try (destruct (DemoTx.confirmed r) eqn:Hconf);
    unfold afterSend, afterConfirm, afterAttempt, pollHead, afterPoll,
      loopHead in H;
    same_run c H; rewrite ?Hconf, ?Hact in H; cbn [negb andb orb] in H;
    same_run c H; rewrite ?Hact in H; cbn [negb andb orb] in H;
    split_tests_in H;
    injection H as <- <- <-;
    (split;
     [ intros lane'; cbn [answersConfirmed]; rewrite ?Hconf;
       destruct lane, lane'; cbn; split; reflexivity
     | first [ left; split; reflexivity
             | right; split; [intros; reflexivity | cbn; auto] ] ]).
Qed.


Lemma resume_None_unanswered clk lane token point w c :
  resume clk lane token point w c = None -> answersConfirmed point w = false.
Proof.
  destruct point, w as [r | r |]; try reflexivity; discriminate.
Qed.

(** A start that takes effect: a new token, fresh lanes, and both loops
    at their first send request. *)
Lemma startRun_fresh clk s :
  isRunning (component s) = false ->
  startRun clk s =
  ({| component :=
        updateLane normal toSending
          (updateLane flashblocks toSending
             {| isRunning := true;
                lanes := INITIAL_LANES;
                remainingMs := MAX_RUNTIME_MS;
                fatalErrorMessage := None;
                runTokenRef := runTokenRef (component s) + 1;
                runDeadlineRef := Some (dateNow clk + MAX_RUNTIME_MS);
                stopTimerRef := true;
                confirmAnimationUntilRef :=
                  {| onFlashblocks := 0%Q; onNormal := 0%Q |};
                animationTimersRef := animationTimersRef (component s) |});
      loops := loops s ++
               [{| loopLane := flashblocks;
                   loopToken := runTokenRef (component s) + 1;
                   loopPoint := AwaitSend (performanceNow clk) |};
                {| loopLane := normal;
                   loopToken := runTokenRef (component s) + 1;
                   loopPoint := AwaitSend (performanceNow clk) |}] |},
   [SendCall flashblocks (runTokenRef (component s) + 1);
    SendCall normal (runTokenRef (component s) + 1)]).
Proof.
  intros Hrun. unfold startRun. rewrite Hrun.
  assert (Hlt : (dateNow clk <? dateNow clk + MAX_RUNTIME_MS) = true)
    by (apply Z.ltb_lt; unfold MAX_RUNTIME_MS; lia).
  unfold loopHead, isActiveRun.
  cbn [runDeadlineRef runTokenRef updateLane withLanes].
  rewrite Z.eqb_refl, Hlt. cbn [andb].
  cbn [runDeadlineRef runTokenRef updateLane withLanes].
  rewrite Z.eqb_refl, Hlt. reflexivity.
Qed.

Lemma logAgrees_same s log log' :
  cycleStart log' = cycleStart log ->
  cycleLatencies log' = cycleLatencies log ->
  logAgrees s log -> logAgrees s log'.
Proof. unfold logAgrees. now intros -> ->. Qed.

(** A component with a newer token, the same loops and lanes that record
    no confirmation. *)
Lemma logAgrees_newer c' s log :
  runTokenRef (component s) < runTokenRef c' ->
  (forall lane,
      confirmationsObserved (getLane lane (lanes c'))
      = confirmationsObserved (getLane lane (lanes (component s))) /\
      averageLatencyMs (getLane lane (lanes c'))
      = averageLatencyMs (getLane lane (lanes (component s)))) ->
  logAgrees s log ->
  logAgrees {| component := c'; loops := loops s |} log.
Proof.
  intros Hlt Hm (H1 & H2 & H3 & H4). unfold logAgrees. cbn [component loops].
  split; [| split; [| split]].
  - eapply Forall_impl; [| exact H1]. cbn. intros; lia.
  - eapply Forall_impl; [| exact H1]. cbn. intros; lia.
  - intros lane. rewrite countIf_none; [lia |].
    eapply Forall_impl; [| exact H1]. cbn. intros l Hl. unfold isCurrent.
    destruct (Z.eqb_spec (loopToken l) (runTokenRef c')); [lia |].
    apply andb_false_r.
  - intros lane. destruct (Hm lane) as [Hc Ha].
    eapply meanInvariant_ext; [exact Hc | exact Ha | apply H4].
Qed.

(** A component with the same token, the same loops and lanes that record
    no confirmation. *)
Lemma logAgrees_lanes c' s log :
  runTokenRef c' = runTokenRef (component s) ->
  (forall lane,
      confirmationsObserved (getLane lane (lanes c'))
      = confirmationsObserved (getLane lane (lanes (component s))) /\
      averageLatencyMs (getLane lane (lanes c'))
      = averageLatencyMs (getLane lane (lanes (component s)))) ->
  logAgrees s log ->
  logAgrees {| component := c'; loops := loops s |} log.
Proof.
  intros Ht Hm (H1 & H2 & H3 & H4). unfold logAgrees. cbn [component loops].
  rewrite Ht. split; [| split; [| split]]; try assumption.
  intros lane. destruct (Hm lane) as [Hc Ha].
  eapply meanInvariant_ext; [exact Hc | exact Ha | apply H4].
Qed.


Lemma countIf_setNth {A} (f : A -> bool) i (x y : A) l :
  nth_error l i = Some x -> f y = f x ->
  countIf f (setNth i y l) = countIf f l.
Proof.
  intros H Hf. apply nth_error_split in H as (l1 & l2 & -> & <-).
  rewrite setNth_split, !countIf_app, !countIf_cons, Hf. reflexivity.
Qed.

(** A new cycle of one lane leaves the loops of the other lane in
    theirs. *)
Lemma pointOk_elsewhere token lane x starts l :
  Forall (fun y => isCurrent token lane y = false) l ->
  Forall (fun y => loopToken y = token ->
                   pointOk (getLane (loopLane y) starts) (loopPoint y)) l ->
  Forall (fun y => loopToken y = token ->
                   pointOk (getLane (loopLane y) (setLane lane x starts))
                     (loopPoint y)) l.
Proof.
  rewrite !Forall_forall. intros Hother Hok y Hy Htok.
  specialize (Hother y Hy). specialize (Hok y Hy Htok).
  unfold isCurrent in Hother. rewrite Htok, Z.eqb_refl, andb_true_r in Hother.
  rewrite getLane_setLane.
  destruct lane, (loopLane y); try discriminate Hother; exact Hok.
Qed.

Lemma logAgrees_initial : logAgrees initialSystem freshLog.
Proof.
  unfold logAgrees. cbn [initialSystem component loops].
  split; [constructor |]. split; [constructor |].
  split; [intros lane; unfold countIf; cbn; lia |].
  intros lane. destruct lane; split; cbn; auto.
Qed.

(** Every event keeps the log and the component in agreement. *)
Lemma step_logAgrees clk e s log :
  logAgrees s log -> logAgrees (fst (step clk e s)) (observe clk e s log).
Proof.
  intros Hinv.
  assert (Hsame : forall log',
            cycleStart log' = cycleStart log ->
            cycleLatencies log' = cycleLatencies log ->
            logAgrees s log')
    by (intros log' Ha Hb; now apply (logAgrees_same s log log')).
  assert (Hstop : forall log',
            cycleStart log' = cycleStart log ->
            cycleLatencies log' = cycleLatencies log ->
            logAgrees {| component := stopRun (component s);
                         loops := loops s |} log').
  { intros log' Ha Hb. eapply logAgrees_same; [exact Ha | exact Hb |].
    apply (logAgrees_newer (stopRun (component s)) s log);
      [cbn; lia | intros lane; destruct lane; split; reflexivity
      | exact Hinv]. }
  destruct e as [| | | i w | k].
  - (* Start *)
    unfold observe, beginsRun, completesCycle. cbn [step].
    destruct (isRunning (component s)) eqn:Hrun.
    + assert (Hstep : startRun clk s = (s, []))
        by (unfold startRun; now rewrite Hrun).
      rewrite Hstep. cbn [negb fst snd]. now apply Hsame.
    + rewrite (startRun_fresh clk s Hrun). cbn [negb fst snd].
      destruct Hinv as (H1 & _ & _ & _).
      unfold logAgrees.
      cbn [component loops runTokenRef updateLane withLanes cycleStart
           cycleLatencies freshLog sendStarts fold_left].
      split; [| split; [| split]].
      * apply Forall_app. split.
        -- eapply Forall_impl; [| exact H1]. cbn. intros; lia.
        -- repeat constructor; cbn [loopToken]; lia.
      * apply Forall_app. split.
        -- eapply Forall_impl; [| exact H1]. cbn. intros l Hl Heq. lia.
        -- repeat constructor; intros _; reflexivity.
      * intros lane. rewrite countIf_app, countIf_none.
        -- rewrite !countIf_cons. unfold isCurrent.
           cbn [loopLane loopToken]. rewrite Z.eqb_refl.
           destruct lane; unfold countIf; cbn; lia.
        -- eapply Forall_impl; [| exact H1]. cbn. intros l Hl.
           unfold isCurrent.
           destruct (Z.eqb_spec (loopToken l) (runTokenRef (component s) + 1));
             [lia | apply andb_false_r].
      * intros lane. destruct lane; split; cbn; auto.
  - (* Stop *)
    cbn [step fst]. now apply Hstop.
  - (* the auto-stop timer *)
    unfold observe, beginsRun, completesCycle. cbn [step].
    destruct (stopTimerRef (component s)); cbn [fst snd];
      [now apply Hstop | now apply Hsame].
  - (* a loop is resumed *)
    unfold observe, beginsRun, completesCycle. cbn [step].
    destruct (nth_error (loops s) i) as [l |] eqn:Hl;
      [| cbn [fst snd]; now apply Hsame].
    destruct (resume clk (loopLane l) (loopToken l) (loopPoint l) w
                (component s)) as [[[c' p'] calls] |] eqn:Hr.
    2:{ rewrite (resume_None_unanswered _ _ _ _ _ _ Hr).
        cbn [andb fst snd]. now apply Hsame. }
    cbn [fst snd].
    destruct Hinv as (H1 & H2 & H3 & H4).
    destruct (isActiveRun (component s) clk (loopToken l)) eqn:Hact.
    + (* the run of the loop is active *)
      rewrite andb_true_r.
      pose proof (isActiveRun_token _ _ _ Hact) as Htok.
      assert (Hok : pointOk (getLane (loopLane l) (cycleStart log))
                      (loopPoint l)).
      { rewrite Forall_forall in H2.
        apply H2; [eapply nth_error_In, Hl | congruence]. }
      destruct (resume_active _ _ _ _ _ _ _ _ _ _ Hact Hok Hr) as [Hm Hcalls].
      pose proof (resume_token_mono _ _ _ _ _ _ _ _ _ Hr) as Hmono.
      unfold logAgrees. cbn [component loops cycleStart cycleLatencies].
      assert (I4 : forall lane,
        meanInvariant (getLane lane (lanes c'))
          (getLane lane
             match (if answersConfirmed (loopPoint l) w
                    then Some (loopLane l) else None) with
             | Some lane0 =>
                 setLane lane0
                   (getLane lane0 (cycleLatencies log)
                    ++ [(performanceNow clk
                         - getLane lane0 (cycleStart log))%Q])%list
                   (cycleLatencies log)
             | None => cycleLatencies log
             end)).
      { intros lane. destruct (Hm lane) as [Hc Ha]. cbn zeta in Hc, Ha.
        destruct (answersConfirmed (loopPoint l) w); cbn [andb] in Hc, Ha.
        - rewrite getLane_setLane.
          destruct (DemoLane_eqb (loopLane l) lane) eqn:E.
          + assert (loopLane l = lane)
              by (revert E; destruct (loopLane l), lane; cbn; congruence).
            subst lane.
            eapply meanInvariant_ext; [exact Hc | exact Ha |].
            apply meanInvariant_toConfirmed, H4.
          + eapply meanInvariant_ext; [exact Hc | exact Ha | apply H4].
        - eapply meanInvariant_ext; [exact Hc | exact Ha | apply H4]. }
      apply nth_error_split in Hl as (l1 & l2 & Hloops & Hlen).
      destruct s as [c loops0]. cbn [component loops] in *. subst loops0 i.
      rewrite setNth_split.
      apply Forall_app in H1 as [H1a H1b].
      apply Forall_app in H2 as [H2a H2b].
      inversion H1b as [| ? ? H1l H1c]; subst.
      inversion H2b as [| ? ? H2l H2c]; subst.
      split; [| split; [| split]]; [| | | exact I4].
      * apply Forall_app. split; [| constructor];
          [eapply Forall_impl; [| exact H1a]; cbn; intros; lia
          | cbn [loopToken]; lia
          | eapply Forall_impl; [| exact H1c]; cbn; intros; lia].
      * destruct (Z.eq_dec (runTokenRef c') (runTokenRef c)) as [Heq | Hne].
        -- rewrite Heq.
           destruct Hcalls as [[-> ->] | [Hid Hok']].
           ++ pose proof (H3 (loopLane l)) as Hu.
              apply countIf_only in Hu as [Hu1 Hu2];
                [| unfold isCurrent; rewrite Htok, Z.eqb_refl;
                   now destruct (loopLane l)].
              cbn [sendStarts fold_left].
              apply Forall_app. split; [| constructor].
              ** now apply pointOk_elsewhere.
              ** cbn [loopLane loopPoint pointOk]. intros _.
                 rewrite getLane_setLane. now destruct (loopLane l).
              ** now apply pointOk_elsewhere.
           ++ rewrite Hid. apply Forall_app. split; [exact H2a |].
              constructor; [| exact H2c].
              cbn [loopLane loopPoint]. intros _. exact Hok'.
        -- apply Forall_app. split; [| constructor];
             [eapply Forall_impl; [| exact H1a]; cbn; intros; lia
             | cbn [loopToken]; intros; lia
             | eapply Forall_impl; [| exact H1c]; cbn; intros; lia].
      * intros lane.
        destruct (Z.eq_dec (runTokenRef c') (runTokenRef c)) as [Heq | Hne].
        -- rewrite Heq. specialize (H3 lane).
           rewrite countIf_app, countIf_cons in *. exact H3.
        -- rewrite countIf_none; [lia |].
           assert (Hf : forall y, loopToken y <= runTokenRef c ->
                                  isCurrent (runTokenRef c') lane y = false).
           { intros y Hy. unfold isCurrent.
             destruct (Z.eqb_spec (loopToken y) (runTokenRef c'));
               [lia | apply andb_false_r]. }
           apply Forall_app. split; [| constructor];
             [eapply Forall_impl; [| exact H1a]; cbn; intros; now apply Hf
             | apply Hf; cbn [loopToken]; exact H1l
             | eapply Forall_impl; [| exact H1c]; cbn; intros; now apply Hf].
    + (* the loop belongs to no active run *)
      apply (resume_inactive _ _ _ _ _ _ _ Hact) in Hr.
      injection Hr as -> -> ->.
      rewrite andb_false_r.
      eapply logAgrees_same with (log := log); [reflexivity | reflexivity |].
      unfold logAgrees. cbn [component loops].
      split; [| split; [| split]]; [| | | exact H4].
      * apply Forall_setNth; [| exact H1]. cbn [loopToken].
        rewrite Forall_forall in H1. eapply H1, nth_error_In, Hl.
      * apply Forall_setNth; [| exact H2]. cbn. intros _. exact I.
      * intros lane. rewrite (countIf_setNth _ _ l); [apply H3 | exact Hl |].
        reflexivity.
  - (* a send-animation timer *)
    unfold observe, beginsRun, completesCycle. cbn [step].
    destruct (nth_error (animationTimersRef (component s)) k) as [t |];
      [| cbn [fst snd]; now apply Hsame].
    cbn [fst snd]. eapply logAgrees_same with (log := log);
      [reflexivity | reflexivity |].
    apply (logAgrees_lanes _ s log); [| | exact Hinv];
      unfold animationTimerCallback; destruct (negb _); try reflexivity.
    + intros lane; split; reflexivity.
    + intros lane. destruct (timerLane t), lane; split; reflexivity.
Qed.

Lemma run_logAgrees events : forall s log,
  logAgrees s log ->
  logAgrees (fst (run s events)) (observeRun s events log).
Proof.
  induction events as [|[clk e] rest IH]; intros s log H; [exact H |].
  rewrite run_cons. cbn [fst observeRun]. apply IH, step_logAgrees, H.
Qed.

End CycleObservation.

(** C4.  Starting from the fresh lane state of a run, after any sequence of
    lane updates among which [N >= 1] confirmations with latencies
    [l1..lN], [confirmationsObserved] is [N] and [averageLatencyMs] is
    [(l1 + ... + lN) / N]: the incremental update
    [(oldAvg * oldCount + latencyMs) / (oldCount + 1)], with
    [confirmationsObserved] incremented, keeps the cumulative mean, with
    neither window nor decay.  And the confirmations recorded are those of
    the run: whatever events the component has gone through, for each lane
    [confirmationsObserved] is the number of confirmed cycles of the lane
    in the run begun last, and with at least one of them
    [averageLatencyMs] is the sum of their latencies divided by their
    number.  A cycle is confirmed when the confirm route answers
    [confirmed] to the poll of the loop while its run is active, and its
    latency is the time from the send request of the cycle to that
    answer; both are read off the events and the requests, not off the
    lane states.  Numbers are exact rationals, so the equality is
    exact. *)
Theorem averageLatencyMs_is_cumulative_mean :
  (forall (updates : list LaneUpdate),
      let final := fold_left applyUpdate updates RaceDemo.initialLane in
      let latencies := latenciesOf updates in
      let N := Z.of_nat (List.length latencies) in
      RaceDemo.confirmationsObserved final = N /\
      (1 <= N ->
       exists avg,
         RaceDemo.averageLatencyMs final = Some avg /\
         (avg == Qsum latencies / inject_Z N)%Q)) /\
  (forall current latencyMs m,
      RaceDemo.confirmationsObserved
        (RaceDemo.toConfirmed latencyMs m current) =
      RaceDemo.confirmationsObserved current + 1 /\
      RaceDemo.averageLatencyMs (RaceDemo.toConfirmed latencyMs m current) =
      Some (((match RaceDemo.averageLatencyMs current with
              | Some a => a
              | None => 0
              end) * inject_Z (RaceDemo.confirmationsObserved current)
             + latencyMs)
            / inject_Z (RaceDemo.confirmationsObserved current + 1))%Q) /\
  (forall (events : list (RaceDemo.Clock * RaceDemo.Event))
          (lane : DemoLane),
      let st :=
        RaceDemo.getLane lane
          (RaceDemo.lanes
             (RaceDemo.component
                (fst (RaceDemo.run RaceDemo.initialSystem events)))) in
      let latencies := confirmedCycles lane events in
      let N := Z.of_nat (List.length latencies) in
      RaceDemo.confirmationsObserved st = N /\
      (1 <= N ->
       exists avg,
         RaceDemo.averageLatencyMs st = Some avg /\
         (avg == Qsum latencies / inject_Z N)%Q)).
Proof.
  assert (Hmean : forall st latencies,
    meanInvariant st latencies ->
    RaceDemo.confirmationsObserved st = Z.of_nat (List.length latencies) /\
    (1 <= Z.of_nat (List.length latencies) ->
     exists avg,
       RaceDemo.averageLatencyMs st = Some avg /\
       (avg == Qsum latencies
               / inject_Z (Z.of_nat (List.length latencies)))%Q)).
  { intros st latencies [Hn Havg].
    split; [exact Hn |].
    intros HN.
    destruct latencies as [|l ls]; [cbn in HN; lia |].
    destruct Havg as (a & Ha & Hsum). exists a. split; [exact Ha |].
    rewrite <- Hsum. field. unfold Qeq. cbn. lia. }
  split; [| split; [intros; split; reflexivity |]].
  - intros updates final latencies N. apply Hmean.
    change latencies with ([] ++ latenciesOf updates)%list.
    apply meanInvariant_updates. split; [reflexivity | exact I].
  - intros events lane st latencies N. apply Hmean.
    pose proof (run_logAgrees events RaceDemo.initialSystem freshLog
                  logAgrees_initial) as (_ & _ & _ & Hlanes).
    apply Hlanes.
Qed.

Lemma averageLatencyMs_is_cumulative_mean_witness :
  (exists avg,
      RaceDemo.averageLatencyMs
        (fold_left applyUpdate
           [Sending; Status RaceDemo.waiting; Confirmation 300 DemoTx.receipt;
            Sending; Failed "fetch failed"; Sending; Status RaceDemo.waiting;
            Confirmation 500 DemoTx.receipt]
           RaceDemo.initialLane) = Some avg /\
      (avg == Qsum [300; 500]%Q / inject_Z 2)%Q) /\
  (exists avg,
      RaceDemo.averageLatencyMs
        (RaceDemo.getLane flashblocks
           (RaceDemo.lanes (RaceDemo.component (fst
              (RaceDemo.run RaceDemo.initialSystem
       [({| RaceDemo.dateNow := 1000; RaceDemo.performanceNow := 0 |},
         RaceDemo.StartClicked);
        ({| RaceDemo.dateNow := 1100; RaceDemo.performanceNow := 100 |},
         RaceDemo.LoopWakes 0
           (RaceDemo.SendSettled
              (Fulfilled {| txHash := "0xf1"; from := "0xaa" |})));
        ({| RaceDemo.dateNow := 1600; RaceDemo.performanceNow := 600 |},
         RaceDemo.LoopWakes 0
           (RaceDemo.ConfirmSettled
              (Fulfilled {| confirmed := true; method := receipt;
                            blockNumber := Some 5 |})));
        ({| RaceDemo.dateNow := 1700; RaceDemo.performanceNow := 700 |},
         RaceDemo.LoopWakes 0
           (RaceDemo.SendSettled
              (Fulfilled {| txHash := "0xf1"; from := "0xaa" |})));
        ({| RaceDemo.dateNow := 1900; RaceDemo.performanceNow := 900 |},
         RaceDemo.LoopWakes 0
           (RaceDemo.ConfirmSettled
              (Fulfilled {| confirmed := true; method := receipt;
                            blockNumber := Some 6 |})))]))))) = Some avg /\
      (avg == Qsum (confirmedCycles flashblocks
       ([({| RaceDemo.dateNow := 1000; RaceDemo.performanceNow := 0 |},
         RaceDemo.StartClicked);
        ({| RaceDemo.dateNow := 1100; RaceDemo.performanceNow := 100 |},
         RaceDemo.LoopWakes 0
           (RaceDemo.SendSettled
              (Fulfilled {| txHash := "0xf1"; from := "0xaa" |})));
        ({| RaceDemo.dateNow := 1600; RaceDemo.performanceNow := 600 |},
         RaceDemo.LoopWakes 0
           (RaceDemo.ConfirmSettled
              (Fulfilled {| confirmed := true; method := receipt;
                            blockNumber := Some 5 |})));
        ({| RaceDemo.dateNow := 1700; RaceDemo.performanceNow := 700 |},
         RaceDemo.LoopWakes 0
           (RaceDemo.SendSettled
              (Fulfilled {| txHash := "0xf1"; from := "0xaa" |})));
        ({| RaceDemo.dateNow := 1900; RaceDemo.performanceNow := 900 |},
         RaceDemo.LoopWakes 0
           (RaceDemo.ConfirmSettled
              (Fulfilled {| confirmed := true; method := receipt;
                            blockNumber := Some 6 |})))])%Z)
              / inject_Z 2)%Q).
Proof.
  split.
  - refine (proj2 (proj1 averageLatencyMs_is_cumulative_mean
      [Sending; Status RaceDemo.waiting; Confirmation 300 DemoTx.receipt;
       Sending; Failed "fetch failed"; Sending; Status RaceDemo.waiting;
       Confirmation 500 DemoTx.receipt]) _).
    cbn. lia.
  - refine (proj2 (proj2 (proj2 averageLatencyMs_is_cumulative_mean)
       [({| RaceDemo.dateNow := 1000; RaceDemo.performanceNow := 0 |},
         RaceDemo.StartClicked);
        ({| RaceDemo.dateNow := 1100; RaceDemo.performanceNow := 100 |},
         RaceDemo.LoopWakes 0
           (RaceDemo.SendSettled
              (Fulfilled {| txHash := "0xf1"; from := "0xaa" |})));
        ({| RaceDemo.dateNow := 1600; RaceDemo.performanceNow := 600 |},
         RaceDemo.LoopWakes 0
           (RaceDemo.ConfirmSettled
              (Fulfilled {| confirmed := true; method := receipt;
                            blockNumber := Some 5 |})));
        ({| RaceDemo.dateNow := 1700; RaceDemo.performanceNow := 700 |},
         RaceDemo.LoopWakes 0
           (RaceDemo.SendSettled
              (Fulfilled {| txHash := "0xf1"; from := "0xaa" |})));
        ({| RaceDemo.dateNow := 1900; RaceDemo.performanceNow := 900 |},
         RaceDemo.LoopWakes 0
           (RaceDemo.ConfirmSettled
              (Fulfilled {| confirmed := true; method := receipt;
                            blockNumber := Some 6 |})))]
      flashblocks) _).
    vm_compute. discriminate.
Defined.

(** Two confirmed cycles of the flashblocks lane, of 600 ms and 300 ms:
    the lane shows two confirmations and an average of 450 ms. *)
Example average_of_two_cycles :
  let events :=
       [({| RaceDemo.dateNow := 1000; RaceDemo.performanceNow := 0 |},
         RaceDemo.StartClicked);
        ({| RaceDemo.dateNow := 1100; RaceDemo.performanceNow := 100 |},
         RaceDemo.LoopWakes 0
           (RaceDemo.SendSettled
              (Fulfilled {| txHash := "0xf1"; from := "0xaa" |})));
        ({| RaceDemo.dateNow := 1600; RaceDemo.performanceNow := 600 |},
         RaceDemo.LoopWakes 0
           (RaceDemo.ConfirmSettled
              (Fulfilled {| confirmed := true; method := receipt;
                            blockNumber := Some 5 |})));
        ({| RaceDemo.dateNow := 1700; RaceDemo.performanceNow := 700 |},
         RaceDemo.LoopWakes 0
           (RaceDemo.SendSettled
              (Fulfilled {| txHash := "0xf1"; from := "0xaa" |})));
        ({| RaceDemo.dateNow := 1900; RaceDemo.performanceNow := 900 |},
         RaceDemo.LoopWakes 0
           (RaceDemo.ConfirmSettled
              (Fulfilled {| confirmed := true; method := receipt;
                            blockNumber := Some 6 |})))] in
  let st :=
    RaceDemo.getLane flashblocks
      (RaceDemo.lanes (RaceDemo.component (fst
         (RaceDemo.run RaceDemo.initialSystem events)))) in
  confirmedCycles flashblocks events = [600 - 0; 900 - 600]%Q /\
  confirmedCycles normal events = [] /\
  RaceDemo.confirmationsObserved st = 2 /\
  RaceDemo.latestLatencyMs st = Some 300%Q /\
  match RaceDemo.averageLatencyMs st with
  | Some avg => (avg == 450)%Q
  | None => False
  end.
Proof. vm_compute. repeat split. Qed.

(* ------------------------------------------------------------------ *)
(** ** Further properties of the spoof engine *)

Section SpoofMore.
Import JsString HexDefs HexFacts.

Lemma take_drop n : forall s, take n s ++ drop n s = s.
Proof.
  induction n as [|n IH]; intros [|c s]; cbn; try reflexivity.
  now rewrite IH.
Qed.

Lemma length_drop n : forall s,
  String.length (drop n s) = (String.length s - n)%nat.
Proof.
  induction n as [|n IH]; intros [|c s]; cbn; try reflexivity; try lia.
  apply IH.
Qed.

Lemma allLowerHex_split n s :
  allLowerHex s = true ->
  allLowerHex (take n s) = true /\ allLowerHex (drop n s) = true.
Proof.
  intros H. rewrite <- (take_drop n s), allLowerHex_append in H.
  now apply andb_prop in H.
Qed.

Lemma hexVal_lowerHex_step c s :
  isLowerHexChar c = true ->
  exists d, 0 <= d < 16 /\
            forall a, hexVal a (String c s) = hexVal (a * 16 + d) s.
Proof.
  intros Hc.
  assert (Hd : exists d, hexValue c = Some d /\ 0 <= d < 16).
  { clear - Hc. destruct c as [[] [] [] [] [] [] [] []];
      try discriminate Hc; eexists; (split; [vm_compute; reflexivity | lia]). }
  destruct Hd as (d & Hv & Hd). exists d. split; [exact Hd |].
  intros a. cbn [hexVal]. now rewrite Hv.
Qed.

(** The value of a string of digits read after [a]. *)
Lemma hexVal_shift s : forall a,
  allLowerHex s = true ->
  0 <= hexVal 0 s < 16 ^ Z.of_nat (String.length s) /\
  hexVal a s = a * 16 ^ Z.of_nat (String.length s) + hexVal 0 s.
Proof.
  induction s as [|c s IH]; intros a Hall.
  - cbn. lia.
  - cbn [allLowerHex] in Hall. apply andb_prop in Hall.
    destruct Hall as [Hc Hs].
    destruct (hexVal_lowerHex_step c s Hc) as (d & Hd & Hstep).
    rewrite (Hstep a), (Hstep 0).
    destruct (IH (a * 16 + d) Hs) as [Hb E1].
    destruct (IH (0 * 16 + d) Hs) as [_ E2].
    rewrite E1, E2.
    replace (Z.of_nat (String.length (String c s)))
      with (Z.of_nat (String.length s) + 1) by (cbn [String.length]; lia).
    rewrite Z.pow_add_r by lia. split; [| ring].
    assert (Hp : 0 < 16 ^ Z.of_nat (String.length s))
      by (apply Z.pow_pos_nonneg; lia).
    nia.
Qed.

Lemma hexVal_append a s t :
  allLowerHex s = true -> hexVal a (s ++ t) = hexVal (hexVal a s) t.
Proof.
  revert a. induction s as [|c s IH]; intros a Hall; [reflexivity |].
  cbn [allLowerHex] in Hall. apply andb_prop in Hall. destruct Hall as [Hc Hs].
  cbn [append hexVal].
  destruct (lowerHexChar_facts c Hc) as (_ & _ & _ & _ & _ & _ & d & ->).
  now apply IH.
Qed.

(** The timestamp field holds the last twelve digits of the time. *)
Lemma timestampField_wraps t :
  0 <= t ->
  String.length (timestampField t) = 12%nat /\
  allLowerHex (timestampField t) = true /\
  hexVal 0 (timestampField t) = t mod 2 ^ 48.
Proof.
  intros Ht. unfold timestampField, toString16.
  rewrite Z.abs_eq by lia.
  destruct (Z.ltb_spec t 0) as [? | _]; [lia |].
  set (fuel := S (Z.to_nat (Z.log2 t))).
  pose proof (toString16_fuel t Ht) as Hfuel. fold fuel in Hfuel.
  set (digits := hexDigits fuel t EmptyString).
  assert (Hall : allLowerHex digits = true)
    by (apply hexDigits_allLowerHex; [lia | reflexivity]).
  assert (Hval : hexVal 0 digits = t)
    by (unfold digits; now rewrite hexVal_hexDigits).
  set (padded := padStart 12 "0" digits).
  assert (Hpall : allLowerHex padded = true)
    by (unfold padded, padStart;
        now rewrite allLowerHex_append, allLowerHex_zeros, Hall).
  assert (Hpval : hexVal 0 padded = t)
    by (unfold padded, padStart; now rewrite hexVal_zeros).
  assert (Hplen : (12 <= String.length padded)%nat)
    by (unfold padded, padStart; rewrite length_append, length_replicate; lia).
  unfold sliceLast.
  set (k := (String.length padded - 12)%nat).
  destruct (allLowerHex_split k padded Hpall) as [Hhead Htail].
  assert (Hlen : String.length (drop k padded) = 12%nat)
    by (rewrite length_drop; unfold k; lia).
  split; [exact Hlen |]. split; [exact Htail |].
  rewrite <- (take_drop k padded), hexVal_append in Hpval by exact Hhead.
  destruct (hexVal_shift (drop k padded) (hexVal 0 (take k padded)) Htail)
    as [Hb E].
  rewrite Hlen in Hb, E. change (16 ^ Z.of_nat 12) with (2 ^ 48) in Hb, E.
  rewrite E in Hpval.
  apply (Z.mod_unique _ _ (hexVal 0 (take k padded))); [lia |].
  lia.
Qed.

Lemma bytesToHex_spec bs :
  allLowerHex (bytesToHex bs) = true /\
  String.length (bytesToHex bs) = (2 * List.length bs)%nat.
Proof.
  induction bs as [|b bs [IHa IHl]]; [now split |].
  cbn [bytesToHex allLowerHex String.length List.length].
  pose proof (Byte.to_N_bounded b) as Hb.
  assert (Hn : 0 <= Z.of_N (Byte.to_N b) < 256) by lia.
  rewrite !hexDigit_lower, IHa, IHl.
  - split; [reflexivity | lia].
  - apply Z.mod_pos_bound. lia.
  - split; [apply Z.div_pos; lia | apply Z.div_lt_upper_bound; lia].
Qed.

Lemma allLowerHex_allHexChars s :
  allLowerHex s = true -> DemoWallet.allHexChars s = true.
Proof.
  induction s as [|c s IH]; [reflexivity |].
  cbn [allLowerHex DemoWallet.allHexChars]. intros H.
  apply andb_prop in H. destruct H as [Hc Hs]. rewrite (IH Hs), andb_true_r.
  unfold DemoWallet.isHexChar.
  now destruct (lowerHexChar_facts c Hc) as (_ & _ & _ & _ & _ & _ & d & ->).
Qed.

End SpoofMore.

(** X1.  The creation time written in a spoof handle wraps around at
    [2^48]: for every lane, every creation time [t] with [0 <= floor t]
    and every random suffix, parsing the handle gives the lane and
    [floor t mod 2^48]. *)
Theorem parseSpoofTxHash_wraps :
  forall (lane : DemoLane) (createdAtMs : Q) (randomBytes : list Byte.byte),
    0 <= Qfloor createdAtMs ->
    parseSpoofTxHash (buildSpoofTxHash lane createdAtMs randomBytes) =
    Some {| spoofLane := lane;
            spoofCreatedAtMs := Qfloor createdAtMs mod 2 ^ 48 |}.
Proof.
  intros lane t rnd Ht.
  destruct (timestampField_wraps (Qfloor t) Ht) as (Hlen & Hall & Hval).
  rewrite buildSpoofTxHash_shape, parseSpoofTxHash_fields by assumption.
  now rewrite Hval.
Qed.

Lemma parseSpoofTxHash_wraps_witness :
  parseSpoofTxHash (buildSpoofTxHash flashblocks (281474976710661 # 1) []) =
  Some {| spoofLane := flashblocks;
          spoofCreatedAtMs := Qfloor (281474976710661 # 1) mod 2 ^ 48 |}.
Proof.
  apply (parseSpoofTxHash_wraps flashblocks (281474976710661 # 1) []).
  vm_compute. discriminate.
Defined.

(** The handle of a spoof send is [0x] and 64 hexadecimal digits. *)
Lemma spoof_handle_is_hex64 lane createdAtMs randomBytes :
  0 <= Qfloor createdAtMs ->
  List.length randomBytes = 25%nat ->
  DemoWallet.isHex64 (buildSpoofTxHash lane createdAtMs randomBytes) = true.
Proof.
  intros Ht Hrnd.
  destruct (timestampField_wraps (Qfloor createdAtMs) Ht) as (Hlen & Hall & _).
  destruct (bytesToHex_spec randomBytes) as [Hball Hblen].
  rewrite buildSpoofTxHash_shape. unfold DemoWallet.isHex64.
  cbn [append JsString.startsWith JsString.drop].
  replace (JsString.startsWith "0x"
             ("0x" ++ SPOOF_LANE_CODE lane
              ++ HexDefs.timestampField (Qfloor createdAtMs)
              ++ bytesToHex randomBytes)) with true by reflexivity.
  rewrite !HexFacts.length_append, Hlen, Hblen, Hrnd.
  replace (String.length (SPOOF_LANE_CODE lane)) with 2%nat by now destruct lane.
  cbn [Nat.add Nat.mul Nat.eqb andb].
  apply allLowerHex_allHexChars.
  rewrite !HexFacts.allLowerHex_append, Hall, Hball.
  now destruct lane.
Qed.

(** X2.  A handle built by the spoof send at a non-negative creation time
    with 25 random bytes is a well-formed transaction hash: [0x] followed
    by 64 hexadecimal digits, as the confirm route requires of the hashes
    it accepts. *)
Theorem buildSpoofTxHash_is_hash :
  forall (lane : DemoLane) (createdAtMs : Q) (randomBytes : list Byte.byte),
    0 <= Qfloor createdAtMs ->
    List.length randomBytes = 25%nat ->
    DemoRoutes.isTransactionHash
      (StartRoute.JsString (buildSpoofTxHash lane createdAtMs randomBytes))
    = true.
Proof.
  intros lane t rnd Ht Hrnd.
  destruct (timestampField_wraps (Qfloor t) Ht) as (Hlen & Hall & _).
  destruct (bytesToHex_spec rnd) as [Hball Hblen].
  rewrite buildSpoofTxHash_shape.
  cbn [DemoRoutes.isTransactionHash]. unfold DemoRoutes.isHash, DemoWallet.isHex64.
  cbn [append JsString.startsWith JsString.drop].
  replace (JsString.startsWith "0x"
             ("0x" ++ SPOOF_LANE_CODE lane ++ HexDefs.timestampField (Qfloor t)
              ++ bytesToHex rnd)) with true by reflexivity.
  rewrite !HexFacts.length_append, Hlen, Hblen, Hrnd.
  replace (String.length (SPOOF_LANE_CODE lane)) with 2%nat by now destruct lane.
  cbn [Nat.add Nat.mul Nat.eqb andb].
  apply allLowerHex_allHexChars.
  rewrite !HexFacts.allLowerHex_append, Hall, Hball.
  now destruct lane.
Qed.

Lemma buildSpoofTxHash_is_hash_witness :
  DemoRoutes.isTransactionHash
    (StartRoute.JsString
       (buildSpoofTxHash normal (1767225600123 # 1)
          (List.repeat Byte.x5a 25))) = true.
Proof.
  apply buildSpoofTxHash_is_hash; vm_compute; congruence.
Defined.

(** A handle whose lane code names another lane, or none, is unconfirmed. *)
Lemma spoof_other_lane_unconfirmed hexToNumber publicClient now lane txHash :
  decodeLaneCode (laneCodeOf txHash) <> Some lane ->
  checkLaneConfirmation true hexToNumber publicClient now lane txHash =
  Fulfilled unconfirmed.
Proof.
  intros Hne. unfold checkLaneConfirmation, parseSpoofTxHash.
  fold (laneCodeOf txHash).
  destruct (decodeLaneCode (laneCodeOf txHash)) as [l |]; [| reflexivity].
  destruct (JsString.parseInt16 _); [| reflexivity].
  cbn [spoofLane]. destruct l, lane; try reflexivity; congruence.
Qed.

(** X3.  In spoof mode a handle built by the send of one lane is never
    confirmed for the other lane: whatever its creation time, its random
    bytes and the time of the check, the answer is unconfirmed. *)
Theorem spoof_handle_bound_to_its_lane :
  forall (hexToNumber : Hex -> Outcome Z) (publicClient : PublicClient)
         (sender checker : DemoLane) (createdAt now : Z)
         (randomBytes : list Byte.byte),
    sender <> checker ->
    checkLaneConfirmation true hexToNumber publicClient now checker
      (txHash (sendLaneTransactionSpoof sender createdAt randomBytes)) =
    Fulfilled {| confirmed := false; method := none; blockNumber := None |}.
Proof.
  intros h pc sender checker t now rnd Hne.
  apply spoof_other_lane_unconfirmed.
  unfold sendLaneTransactionSpoof. cbn [txHash].
  rewrite laneCodeOf_buildSpoofTxHash. congruence.
Qed.

Lemma spoof_handle_bound_to_its_lane_witness :
  checkLaneConfirmation true (fun _ => Fulfilled 0)
    {| eth_getTransactionReceipt := fun _ => Fulfilled None;
       eth_getBlockByNumber := fun _ => Fulfilled None |}
    1767225700000 normal
    (txHash (sendLaneTransactionSpoof flashblocks 1767225600000 [Byte.x07])) =
  Fulfilled {| confirmed := false; method := none; blockNumber := None |}.
Proof.
  apply spoof_handle_bound_to_its_lane. discriminate.
Defined.

(** X4.  In spoof mode the check never fails and never depends on the
    node, and for any handle whatsoever a confirmation is final: once the
    check has answered confirmed at some time, it gives the same answer at
    every later time. *)
Theorem spoof_confirmation_is_final :
  forall (hexToNumber hexToNumber' : Hex -> Outcome Z)
         (publicClient publicClient' : PublicClient)
         (lane : DemoLane) (txHash : Hex) (now later : Z),
    now <= later ->
    exists r r',
      checkLaneConfirmation true hexToNumber publicClient now lane txHash
        = Fulfilled r /\
      checkLaneConfirmation true hexToNumber' publicClient' later lane txHash
        = Fulfilled r' /\
      (confirmed r = true -> r' = r) /\
      (confirmed r = true ->
       method r = SPOOF_METHOD_BY_LANE lane /\ blockNumber r = None).
Proof.
  intros h h' pc pc' lane tx now later Hle.
  unfold checkLaneConfirmation.
  destruct (parseSpoofTxHash tx) as [sp |].
  - destruct (negb (DemoLane_eqb (spoofLane sp) lane)).
    + exists unconfirmed, unconfirmed. repeat split; discriminate.
    + destruct (Z.ltb_spec (now - spoofCreatedAtMs sp)
                  (SPOOF_CONFIRMATION_DELAY_MS_BY_LANE lane)) as [Hlt | Hge].
      * destruct (later - spoofCreatedAtMs sp
                  <? SPOOF_CONFIRMATION_DELAY_MS_BY_LANE lane);
          eexists unconfirmed, _; repeat split; discriminate.
      * destruct (Z.ltb_spec (later - spoofCreatedAtMs sp)
                    (SPOOF_CONFIRMATION_DELAY_MS_BY_LANE lane)); [lia |].
        eexists _, _. repeat split.
  - exists unconfirmed, unconfirmed. repeat split; discriminate.
Qed.

Lemma spoof_confirmation_is_final_witness :
  exists r r',
    checkLaneConfirmation true (fun _ => Fulfilled 0)
      {| eth_getTransactionReceipt := fun _ => Fulfilled None;
         eth_getBlockByNumber := fun _ => Fulfilled None |}
      5000 normal "0xF20000000003e8" = Fulfilled r /\
    checkLaneConfirmation true (fun _ => Rejected Primitive)
      {| eth_getTransactionReceipt := fun _ => Rejected Primitive;
         eth_getBlockByNumber := fun _ => Rejected Primitive |}
      9000 normal "0xF20000000003e8" = Fulfilled r' /\
    (confirmed r = true -> r' = r) /\
    (confirmed r = true ->
     method r = SPOOF_METHOD_BY_LANE normal /\ blockNumber r = None).
Proof.
  apply spoof_confirmation_is_final. lia.
Defined.

(** ** Further properties of the live check *)

(** X5.  In live mode the normal lane reports confirmed exactly when the
    block under the [latest] tag lists the transaction hash, compared
    without regard to letter case; it then reports the method [latest],
    and no receipt is queried: the answer does not depend on the receipt
    query. *)
Theorem checkLaneConfirmation_latest_scan :
  forall (hexToNumber : Hex -> Outcome Z) (publicClient : PublicClient)
         (now : Z) (txHash : Hex) (block : option RpcPendingBlock),
    eth_getBlockByNumber publicClient latest = Fulfilled block ->
    (forall r,
        checkLaneConfirmation false hexToNumber publicClient now normal txHash
          = Fulfilled r ->
        (confirmed r = true <->
         exists b candidate,
           block = Some b /\ In candidate (transactions b) /\
           JsString.toLowerCase candidate = JsString.toLowerCase txHash) /\
        method r = (if confirmed r then latest else none)) /\
    (forall receipts,
        checkLaneConfirmation false hexToNumber
          {| eth_getTransactionReceipt := receipts;
             eth_getBlockByNumber := eth_getBlockByNumber publicClient |}
          now normal txHash =
        checkLaneConfirmation false hexToNumber publicClient now normal txHash).
Proof.
  intros h pc now tx block Hq. split; [| reflexivity].
  intros r. unfold checkLaneConfirmation, NORMAL_BLOCK_TAG. rewrite Hq.
  set (inBlock := match block with
                  | Some b =>
                      existsb
                        (fun candidateTxHash =>
                           String.eqb (JsString.toLowerCase candidateTxHash)
                                      (JsString.toLowerCase tx))
                        (transactions b)
                  | None => false
                  end).
  assert (Hin : inBlock = true <->
                exists b candidate,
                  block = Some b /\ In candidate (transactions b) /\
                  JsString.toLowerCase candidate = JsString.toLowerCase tx).
  { unfold inBlock. destruct block as [b |].
    - rewrite existsb_exists. split.
      + intros (c & Hc & He). apply String.eqb_eq in He. now exists b, c.
      + intros (b' & c & Hb & Hc & He). injection Hb as <-.
        exists c. split; [exact Hc | now apply String.eqb_eq].
    - split; [discriminate | intros (b & c & Hb & _); discriminate]. }
  destruct inBlock.
  - unfold withBlockNumber.
    destruct (match block with Some b => number b | None => None end)
      as [n |]; [destruct (h n); [| discriminate] |];
      intros H; injection H as <-; (split; [| reflexivity]);
      split; auto; intros _; now apply Hin.
  - intros H; injection H as <-. split; [| reflexivity].
    split; [discriminate |]. intros He. apply Hin in He. discriminate.
Qed.

Lemma checkLaneConfirmation_latest_scan_witness :
  (confirmed {| confirmed := true; method := latest; blockNumber := Some 12 |}
     = true <->
   exists b candidate,
     Some {| number := Some "0xc"; transactions := ["0xAB"; "0xCD"] |}
       = Some b /\
     In candidate (transactions b) /\
     JsString.toLowerCase candidate = JsString.toLowerCase "0xcd") /\
  method {| confirmed := true; method := latest; blockNumber := Some 12 |}
  = (if confirmed {| confirmed := true; method := latest;
                     blockNumber := Some 12 |}
     then latest else none).
Proof.
  exact (proj1 (checkLaneConfirmation_latest_scan (fun _ => Fulfilled 12)
    {| eth_getTransactionReceipt := fun _ => Rejected Primitive;
       eth_getBlockByNumber :=
         fun _ => Fulfilled (Some {| number := Some "0xc";
                                     transactions := ["0xAB"; "0xCD"] |}) |}
    0 "0xcd" _ eq_refl)
    {| confirmed := true; method := latest; blockNumber := Some 12 |}
    eq_refl).
Defined.

(** X6.  In the first revision the receipt poll, which decided the normal
    lane, reports confirmed exactly when the receipt query returns a
    receipt whose block number is present and not empty; it then reports
    the method [receipt] with the decoded block number. *)
Theorem checkLaneConfirmationFirstRevision_receipt_poll :
  forall (tag : ConfirmationMethod) (hexToNumber : Hex -> Outcome Z)
         (publicClient : PublicClient) (txHash : Hex)
         (answer : option RpcTransactionReceipt) (r : ConfirmationResult),
    eth_getTransactionReceipt publicClient txHash = Fulfilled answer ->
    checkLaneConfirmationFirstRevision tag hexToNumber publicClient normal
      txHash = Fulfilled r ->
    (confirmed r = true <->
     exists rc h, answer = Some rc /\ receiptBlockNumber rc = Some h /\
                  h <> EmptyString) /\
    (confirmed r = true ->
     method r = receipt /\
     exists rc h n, answer = Some rc /\ receiptBlockNumber rc = Some h /\
                    hexToNumber h = Fulfilled n /\ blockNumber r = Some n).
Proof.
  intros tag h pc tx answer r Hq.
  cbn [checkLaneConfirmationFirstRevision].
  unfold receiptPollFirstRevision, truthyBlockNumber. rewrite Hq.
  destruct answer as [rc |].
  - destruct (receiptBlockNumber rc) as [b |] eqn:Hb.
    + destruct (String.eqb_spec b "") as [-> | Hne].
      * intros H; injection H as <-. split; [| discriminate].
        split; [discriminate |].
        intros (rc' & b' & Hrc & Hb' & Hne). injection Hrc as <-.
        rewrite Hb in Hb'. injection Hb' as <-. now destruct Hne.
      * destruct (h b) as [n |] eqn:Hn; [| discriminate].
        intros H; injection H as <-. split.
        -- split; [intros _; now exists rc, b | reflexivity].
        -- intros _. split; [reflexivity |]. now exists rc, b, n.
    + intros H; injection H as <-. split; [| discriminate].
      split; [discriminate |].
      intros (rc' & b' & Hrc & Hb' & _). injection Hrc as <-. congruence.
  - intros H; injection H as <-. split; [| discriminate].
    split; [discriminate | intros (rc & b & Hrc & _); discriminate].
Qed.

Lemma checkLaneConfirmationFirstRevision_receipt_poll_witness :
  (confirmed {| confirmed := true; method := receipt; blockNumber := Some 7 |}
     = true <->
   exists rc h, Some {| receiptBlockNumber := Some "0x7" |} = Some rc /\
                receiptBlockNumber rc = Some h /\ h <> EmptyString).
Proof.
  exact (proj1 (checkLaneConfirmationFirstRevision_receipt_poll pending
    (fun _ => Fulfilled 7)
    {| eth_getTransactionReceipt :=
         fun _ => Fulfilled (Some {| receiptBlockNumber := Some "0x7" |});
       eth_getBlockByNumber := fun _ => Fulfilled None |}
    "0xabc" (Some {| receiptBlockNumber := Some "0x7" |})
    {| confirmed := true; method := receipt; blockNumber := Some 7 |}
    eq_refl eq_refl)).
Defined.

(** ** The classification of failures *)

Section Classification.
Import JsString.

Lemma startsWith_iff p : forall s,
  startsWith p s = true <-> exists b, s = p ++ b.
Proof.
  induction p as [|c p IH]; intros s; cbn [startsWith].
  - split; [intros _; now exists s | reflexivity].
  - destruct s as [|d s].
    + split; [discriminate | intros (b & Hb); discriminate].
    + split.
      * intros H. apply andb_prop in H. destruct H as [Hc Hp].
        apply Ascii.eqb_eq in Hc. subst d. apply IH in Hp.
        destruct Hp as (b & ->). now exists b.
      * intros (b & Hb). cbn [append] in Hb. injection Hb as -> ->.
        rewrite Ascii.eqb_refl. cbn [andb]. apply IH. now exists b.
Qed.

Lemma includes_iff p : forall s, includes p s = true <-> occursIn p s.
Proof.
  induction s as [|c s IH]; cbn [includes].
  - rewrite orb_false_r, startsWith_iff. split.
    + intros (b & Hb). now exists EmptyString, b.
    + intros (a & b & H). destruct a; [now exists b | discriminate].
  - split.
    + intros H. apply orb_prop in H. destruct H as [H | H].
      * apply startsWith_iff in H. destruct H as (b & Hb).
        now exists EmptyString, b.
      * apply IH in H. destruct H as (a & b & ->). now exists (String c a), b.
    + intros (a & b & H). apply orb_true_iff. destruct a as [|d a].
      * left. apply startsWith_iff. now exists b.
      * right. cbn [append] in H. injection H as _ ->. apply IH.
        now exists a, b.
Qed.

Lemma toLowerCase_app3 a p b :
  toLowerCase (a ++ p ++ b) = toLowerCase a ++ toLowerCase p ++ toLowerCase b.
Proof. now rewrite !HexFacts.toLowerCase_append. Qed.

End Classification.

(** X7.  A thrown value is taken for a nonce that is out of step exactly
    when it is an instance of [Error] whose message, put in lower case,
    contains one of the three phrases; so the phrase is found anywhere in
    the message and in any letter case, and a thrown value that is not an
    [Error] is never so classified. *)
Theorem isNonceSyncError_by_phrase :
  (forall name message,
      isNonceSyncError (ErrorObject name message) = true <->
      exists p, In p nonceSyncPhrases /\
                occursIn p (JsString.toLowerCase message)) /\
  (forall name before phrase after p,
      In p nonceSyncPhrases -> JsString.toLowerCase phrase = p ->
      isNonceSyncError (ErrorObject name (before ++ phrase ++ after)) = true) /\
  (forall name, isNonceSyncError (PlainObject name) = false) /\
  isNonceSyncError Primitive = false.
Proof.
  assert (Hiff : forall name message,
      isNonceSyncError (ErrorObject name message) = true <->
      exists p, In p nonceSyncPhrases /\
                occursIn p (JsString.toLowerCase message)).
  { intros name message. cbn [isNonceSyncError].
    rewrite !orb_true_iff, !includes_iff. unfold nonceSyncPhrases. split.
    - intros [[H | H] | H]; eexists; (split; [| exact H]); cbn; auto.
    - intros (p & Hp & H). cbn in Hp.
      destruct Hp as [<- | [<- | [<- | []]]]; auto. }
  split; [exact Hiff |]. split; [| split; reflexivity].
  intros name before phrase after p Hp Hlow. apply Hiff. exists p.
  split; [exact Hp |]. rewrite toLowerCase_app3, Hlow.
  now exists (JsString.toLowerCase before), (JsString.toLowerCase after).
Qed.

Lemma isNonceSyncError_by_phrase_witness :
  isNonceSyncError
    (ErrorObject "TransactionExecutionError"
       ("RPC said: " ++ "Nonce Too Low" ++ " (next nonce 8)")) = true.
Proof.
  apply (proj1 (proj2 isNonceSyncError_by_phrase)
           "TransactionExecutionError" "RPC said: " "Nonce Too Low"
           " (next nonce 8)" "nonce too low").
  - cbn. auto.
  - reflexivity.
Defined.

(** X8.  A message is taken for a lack of funds exactly when, put in lower
    case, it contains one of the three phrases: the phrase is found
    anywhere in the message and in any letter case. *)
Theorem isInsufficientFundsError_by_phrase :
  (forall message,
      RaceDemo.isInsufficientFundsError message = true <->
      exists p, In p insufficientFundsPhrases /\
                occursIn p (JsString.toLowerCase message)) /\
  (forall before phrase after p,
      In p insufficientFundsPhrases -> JsString.toLowerCase phrase = p ->
      RaceDemo.isInsufficientFundsError (before ++ phrase ++ after) = true).
Proof.
  assert (Hiff : forall message,
      RaceDemo.isInsufficientFundsError message = true <->
      exists p, In p insufficientFundsPhrases /\
                occursIn p (JsString.toLowerCase message)).
  { intros message. unfold RaceDemo.isInsufficientFundsError.
    rewrite !orb_true_iff, !includes_iff. unfold insufficientFundsPhrases.
    split.
    - intros [[H | H] | H]; eexists; (split; [| exact H]); cbn; auto.
    - intros (p & Hp & H). cbn in Hp.
      destruct Hp as [<- | [<- | [<- | []]]]; auto. }
  split; [exact Hiff |].
  intros before phrase after p Hp Hlow. apply Hiff. exists p.
  split; [exact Hp |]. rewrite toLowerCase_app3, Hlow.
  now exists (JsString.toLowerCase before), (JsString.toLowerCase after).
Qed.

Lemma isInsufficientFundsError_by_phrase_witness :
  RaceDemo.isInsufficientFundsError
    ("The total cost " ++ "Exceeds The Balance Of The Account" ++ ".") = true.
Proof.
  apply (proj2 isInsufficientFundsError_by_phrase
           "The total cost " "Exceeds The Balance Of The Account" "."
           "exceeds the balance of the account").
  - cbn. auto.
  - reflexivity.
Defined.

(** ** The send queue after a failure *)

Section QueueProgress.
Import ListOps SendQueue.

Lemma inFlight_busy q d :
  queueShape q d true -> (d < List.length (entries q))%nat ->
  (1 <= inFlight q)%nat.
Proof.
  intros Hs Hd. unfold inFlight.
  destruct (nth_error (entries q) d) as [e |] eqn:He;
    [| apply nth_error_None in He; lia].
  destruct (Hs d e He) as (_ & _ & Hrun). specialize (Hrun eq_refl).
  assert (Hin : In e (filter (fun e => isRunning (opState e)) (entries q))).
  { apply filter_In. split; [eapply nth_error_In, He |].
    destruct Hrun as [-> | ->]; reflexivity. }
  destruct (filter _ (entries q)); [destruct Hin | cbn; lia].
Qed.

Lemma start_head q d source :
  chained q -> queueShape q d false ->
  (d < List.length (entries q))%nat ->
  snd (step source (Start d) q)
  = [SendIssued d (nextNonce (nonceState q))].
Proof.
  intros [Hch _] Hs Hd. cbn [step].
  destruct (nth_error (entries q) d) as [e |] eqn:He;
    [| apply nth_error_None in He; lia].
  destruct (Hs d e He) as (_ & _ & Hq). rewrite (Hq eq_refl).
  rewrite (Hch d e He).
  assert (Hp : promiseSettled q (match d with O => None | S j => Some j end)
               = true).
  { destruct d as [|j]; [reflexivity |]. cbn [promiseSettled].
    destruct (nth_error (entries q) j) as [e' |] eqn:He';
      [| apply nth_error_None in He'; lia].
    destruct (Hs j e' He') as (Hset & _). apply Hset. lia. }
  rewrite Hp. reflexivity.
Qed.

End QueueProgress.

(** X9.  The send queue never wedges: whatever has happened before,
    failures included, when no send is in flight and some call has not
    started yet, one of the calls can start, and starting it issues its
    send with the next nonce. *)
Theorem send_queue_makes_progress :
  forall (n0 : SendQueue.NonceState)
         (events : list (Z * SendQueue.QueueEvent)) (source : Z),
    let q := fst (SendQueue.run (SendQueue.emptyQueue n0) events) in
    SendQueue.inFlight q = 0%nat ->
    (exists j e, nth_error (SendQueue.entries q) j = Some e /\
                 SendQueue.opState e = SendQueue.Queued) ->
    exists i,
      snd (SendQueue.step source (SendQueue.Start i) q) =
      [SendQueue.SendIssued i
         (SendQueue.nextNonce (SendQueue.nonceState q))].
Proof.
  intros n0 events source q Hfree (j & e & Hj & Hq).
  destruct (agrees_run events _ _ (agrees_emptyQueue n0)) as (m & _ & Hag).
  fold q in Hag. destruct Hag as [Hch Hm].
  assert (Hhead : forall d, queueShape q d false ->
                            (d < List.length (SendQueue.entries q))%nat).
  { intros d Hs. destruct (Hs j e Hj) as (Hset & _ & _).
    assert (Hjl : (j < List.length (SendQueue.entries q))%nat)
      by (apply nth_error_Some; congruence).
    destruct (Nat.lt_ge_cases j d) as [Hlt | Hge]; [| lia].
    specialize (Hset Hlt). rewrite Hq in Hset. discriminate. }
  destruct m as [d ex | b n | b | b]; [| | | contradiction].
  - destruct Hm as (Hs & _). exists d.
    apply start_head; auto.
  - destruct Hm as (Hs & Hb & _).
    pose proof (inFlight_busy q b Hs Hb). lia.
  - destruct Hm as (Hs & _). exists (S b).
    apply start_head; auto.
Qed.

Lemma send_queue_makes_progress_witness :
  exists i,
    snd (SendQueue.step 9 (SendQueue.Start i)
           (fst (SendQueue.run
                   (SendQueue.emptyQueue {| SendQueue.nextNonce := 7 |})
                   [(7, SendQueue.Enqueue flashblocks);
                    (7, SendQueue.Enqueue normal);
                    (7, SendQueue.Start 0);
                    (7, SendQueue.Answer 0
                          (Rejected (ErrorObject "Error"
                                       "insufficient funds")))]))) =
    [SendQueue.SendIssued i
       (SendQueue.nextNonce
          (SendQueue.nonceState
             (fst (SendQueue.run
                     (SendQueue.emptyQueue {| SendQueue.nextNonce := 7 |})
                     [(7, SendQueue.Enqueue flashblocks);
                      (7, SendQueue.Enqueue normal);
                      (7, SendQueue.Start 0);
                      (7, SendQueue.Answer 0
                            (Rejected (ErrorObject "Error"
                                         "insufficient funds")))]))))].
Proof.
  apply (send_queue_makes_progress {| SendQueue.nextNonce := 7 |}
           [(7, SendQueue.Enqueue flashblocks); (7, SendQueue.Enqueue normal);
            (7, SendQueue.Start 0);
            (7, SendQueue.Answer 0
                  (Rejected (ErrorObject "Error" "insufficient funds")))] 9).
  - vm_compute. reflexivity.
  - exists 1%nat. eexists. split; vm_compute; reflexivity.
Defined.

(** ** The demo key *)

Section DemoKey.
Import DemoWallet.

Lemma isHex64_prefixed v :
  isHex64 v = true -> JsString.startsWith "0x" v = true.
Proof.
  unfold isHex64. intros H. apply andb_prop in H. destruct H as [H _].
  apply andb_prop in H. apply H.
Qed.

Lemma isHex64_of_bare v : isHex64 ("0x" ++ v) = isBareHex64 v.
Proof. reflexivity. Qed.

Lemma bare_not_prefixed v :
  isBareHex64 v = true -> JsString.startsWith "0x" v = false.
Proof.
  unfold isBareHex64. intros H. apply andb_prop in H. destruct H as [_ H].
  destruct v as [|a [|b v]];
    [reflexivity | cbn [JsString.startsWith]; apply andb_false_r |].
  cbn [allHexChars] in H. apply andb_prop in H. destruct H as [_ H].
  apply andb_prop in H. destruct H as [Hb _].
  cbn [JsString.startsWith].
  destruct (Ascii.eqb_spec "x" b) as [<- | _];
    [discriminate Hb | now rewrite andb_false_r].
Qed.

End DemoKey.

(** X10.  The demo key is read from the first of [DEMO_PRIVATE_KEY],
    [DEMO_FLASHBLOCKS_PRIVATE_KEY] and [DEMO_NORMAL_PRIVATE_KEY] that is
    set to a non-empty value, and from that one only: its value is
    returned as it is when it is [0x] and 64 hexadecimal digits, with [0x]
    put in front when it is 64 hexadecimal digits, and is otherwise
    refused with an error naming that variable, even when a later variable
    holds a good key.  Without any of the three the error names
    [DEMO_PRIVATE_KEY].  A key that is returned always has the prefixed
    form. *)
Theorem normalizePrivateKey_first_variable :
  forall (env : DemoWallet.Env),
    (forall name value,
        DemoWallet.resolvePrivateKeyFromEnv env = Fulfilled (name, value) ->
        DemoWallet.normalizePrivateKey env =
        if DemoWallet.isHex64 value then Fulfilled value
        else if isBareHex64 value then Fulfilled ("0x" ++ value)
        else Rejected (ErrorObject "Error"
                         ("Invalid private key format for " ++ name))) /\
    (forall value,
        DemoWallet.truthyEnv env "DEMO_PRIVATE_KEY" = Some value ->
        DemoWallet.resolvePrivateKeyFromEnv env
        = Fulfilled ("DEMO_PRIVATE_KEY", value)) /\
    (forall value,
        DemoWallet.truthyEnv env "DEMO_PRIVATE_KEY" = None ->
        DemoWallet.truthyEnv env "DEMO_FLASHBLOCKS_PRIVATE_KEY" = Some value ->
        DemoWallet.resolvePrivateKeyFromEnv env
        = Fulfilled ("DEMO_FLASHBLOCKS_PRIVATE_KEY", value)) /\
    (forall value,
        DemoWallet.truthyEnv env "DEMO_PRIVATE_KEY" = None ->
        DemoWallet.truthyEnv env "DEMO_FLASHBLOCKS_PRIVATE_KEY" = None ->
        DemoWallet.truthyEnv env "DEMO_NORMAL_PRIVATE_KEY" = Some value ->
        DemoWallet.resolvePrivateKeyFromEnv env
        = Fulfilled ("DEMO_NORMAL_PRIVATE_KEY", value)) /\
    (DemoWallet.truthyEnv env "DEMO_PRIVATE_KEY" = None ->
     DemoWallet.truthyEnv env "DEMO_FLASHBLOCKS_PRIVATE_KEY" = None ->
     DemoWallet.truthyEnv env "DEMO_NORMAL_PRIVATE_KEY" = None ->
     DemoWallet.normalizePrivateKey env =
     Rejected (ErrorObject "Error"
                 "Missing required env var: DEMO_PRIVATE_KEY")) /\
    (forall key,
        DemoWallet.normalizePrivateKey env = Fulfilled key ->
        DemoWallet.isHex64 key = true).
Proof.
  intros env.
  assert (Hnorm : forall name value,
    DemoWallet.resolvePrivateKeyFromEnv env = Fulfilled (name, value) ->
    DemoWallet.normalizePrivateKey env =
    if DemoWallet.isHex64 value then Fulfilled value
    else if isBareHex64 value then Fulfilled ("0x" ++ value)
    else Rejected (ErrorObject "Error"
                     ("Invalid private key format for " ++ name))).
  { intros name value Hres. unfold DemoWallet.normalizePrivateKey.
    rewrite Hres.
    destruct (DemoWallet.isHex64 value) eqn:Hfull.
    - rewrite (isHex64_prefixed value Hfull), Hfull. reflexivity.
    - destruct (JsString.startsWith "0x" value) eqn:Hpre.
      + rewrite Hfull. cbn [negb].
        destruct (isBareHex64 value) eqn:Hbare; [| reflexivity].
        apply bare_not_prefixed in Hbare. congruence.
      + rewrite isHex64_of_bare. now destruct (isBareHex64 value). }
  split; [exact Hnorm |].
  unfold DemoWallet.resolvePrivateKeyFromEnv,
    DemoWallet.DEMO_PRIVATE_KEY_ENV,
    DemoWallet.LEGACY_FLASHBLOCKS_PRIVATE_KEY_ENV,
    DemoWallet.LEGACY_NORMAL_PRIVATE_KEY_ENV.
  split; [intros value ->; reflexivity |].
  split; [intros value -> ->; reflexivity |].
  split; [intros value -> -> ->; reflexivity |].
  split.
  - intros H1 H2 H3. unfold DemoWallet.normalizePrivateKey,
      DemoWallet.resolvePrivateKeyFromEnv, DemoWallet.DEMO_PRIVATE_KEY_ENV,
      DemoWallet.LEGACY_FLASHBLOCKS_PRIVATE_KEY_ENV,
      DemoWallet.LEGACY_NORMAL_PRIVATE_KEY_ENV.
    now rewrite H1, H2, H3.
  - intros key. unfold DemoWallet.normalizePrivateKey.
    destruct (DemoWallet.resolvePrivateKeyFromEnv env) as [[name value] | e];
      [| discriminate].
    destruct (DemoWallet.isHex64
                (if JsString.startsWith "0x" value then value
                 else "0x" ++ value)) eqn:Hok; [| discriminate].
    cbn [negb]. intros H; injection H as <-. exact Hok.
Qed.

Lemma normalizePrivateKey_first_variable_witness :
  DemoWallet.normalizePrivateKey
    (fun name =>
       if String.eqb name "DEMO_PRIVATE_KEY" then Some "not-a-key"
       else if String.eqb name "DEMO_NORMAL_PRIVATE_KEY" then
         Some "00000000000000000000000000000000000000000000000000000000000000aa"
       else None) =
  Rejected (ErrorObject "Error"
              "Invalid private key format for DEMO_PRIVATE_KEY").
Proof.
  apply (proj1 (normalizePrivateKey_first_variable
    (fun name =>
       if String.eqb name "DEMO_PRIVATE_KEY" then Some "not-a-key"
       else if String.eqb name "DEMO_NORMAL_PRIVATE_KEY" then
         Some "00000000000000000000000000000000000000000000000000000000000000aa"
       else None))
    "DEMO_PRIVATE_KEY" "not-a-key").
  reflexivity.
Defined.

(** ** The wallet route *)

(** X11.  The wallet route answers with an error, of status 500, only when
    the balance query fails.  When the key is missing or malformed, or no
    account can be derived from it, the answer is a snapshot marked
    unavailable, with null address and balances, and the balance is not
    queried; otherwise the snapshot carries the address of the account and
    its balance in wei, in decimal digits. *)
Theorem wallet_route_answers :
  forall (env : DemoWallet.Env) (spoof : bool)
         (privateKeyToAccount : Hex -> Outcome Hex)
         (formatEther : Z -> string) (getBalance : Hex -> Outcome Z),
    (forall e,
        DemoWallet.getDemoAccount env privateKeyToAccount = Rejected e ->
        forall getBalance',
          DemoWallet.GET env spoof privateKeyToAccount formatEther getBalance'
          = DemoWallet.SnapshotJson
              {| DemoWallet.address := None;
                 DemoWallet.balanceWei := None;
                 DemoWallet.balanceEth := None;
                 DemoWallet.spoofMode := spoof;
                 DemoWallet.available := false |}) /\
    (forall account wei,
        DemoWallet.getDemoAccount env privateKeyToAccount = Fulfilled account ->
        getBalance account = Fulfilled wei ->
        DemoWallet.GET env spoof privateKeyToAccount formatEther getBalance
        = DemoWallet.SnapshotJson
            {| DemoWallet.address := Some account;
               DemoWallet.balanceWei :=
                 Some (NilZero.string_of_int (Z.to_int wei));
               DemoWallet.balanceEth := Some (formatEther wei);
               DemoWallet.spoofMode := spoof;
               DemoWallet.available := true |}) /\
    (forall message status,
        DemoWallet.GET env spoof privateKeyToAccount formatEther getBalance
        = DemoWallet.WalletError message status ->
        status = 500 /\
        exists account e,
          DemoWallet.getDemoAccount env privateKeyToAccount
          = Fulfilled account /\
          getBalance account = Rejected e).
Proof.
  intros env spoof toAccount formatEther getBalance.
  unfold DemoWallet.GET, DemoWallet.getDemoWalletSnapshot,
    DemoWallet.getDemoAccountOrNull.
  split; [| split].
  - intros e -> getBalance'. reflexivity.
  - intros account wei -> Hb. now rewrite Hb.
  - intros message status.
    destruct (DemoWallet.getDemoAccount env toAccount) as [account | e];
      [| discriminate].
    destruct (getBalance account) as [wei | e] eqn:Hb; [discriminate |].
    intros H. injection H as _ <-. split; [reflexivity |].
    now exists account, e.
Qed.

Lemma wallet_route_answers_witness :
  DemoWallet.GET (fun _ => None) true (fun _ => Fulfilled "0xaa")
    (fun _ => "0.0") (fun _ => Rejected Primitive)
  = DemoWallet.SnapshotJson
      {| DemoWallet.address := None;
         DemoWallet.balanceWei := None;
         DemoWallet.balanceEth := None;
         DemoWallet.spoofMode := true;
         DemoWallet.available := false |}.
Proof.
  apply (proj1 (wallet_route_answers (fun _ => None) true
                  (fun _ => Fulfilled "0xaa") (fun _ => "0.0")
                  (fun _ => Fulfilled 0))
           (ErrorObject "Error" "Missing required env var: DEMO_PRIVATE_KEY")).
  reflexivity.
Defined.

(** ** The confirm and send routes *)

Section Routes.
Import StartRoute DemoRoutes.

Lemma toDemoLane_laneName lane :
  toDemoLane (JsString (RaceDemo.laneName lane)) = Some lane.
Proof. now destruct lane. Qed.

Lemma lookupField_lane v rest :
  lookupField "lane" (("lane", v) :: rest) = v.
Proof. reflexivity. Qed.

Lemma lookupField_txHash v w rest :
  lookupField "txHash" (("lane", v) :: ("txHash", w) :: rest) = w.
Proof. reflexivity. Qed.

End Routes.

(** X12.  The confirm route calls [checkLaneConfirmation] only with a lane
    and a well-formed transaction hash taken from the body: a payload is
    the result of such a call; an error answer has status 400, or status
    500 when such a call has failed; and an exception leaves the handler
    only when the body is [null]. *)
Theorem confirm_route_validates :
  forall (check : DemoLane -> Hex -> Outcome ConfirmationResult)
         (json : Outcome StartRoute.JsValue),
    match DemoRoutes.confirmPOST check json with
    | DemoRoutes.Json result =>
        exists body lane hash,
          json = Fulfilled body /\
          DemoRoutes.getField "lane" body
          = Fulfilled (StartRoute.JsString (RaceDemo.laneName lane)) /\
          DemoRoutes.getField "txHash" body
          = Fulfilled (StartRoute.JsString hash) /\
          DemoRoutes.isHash hash = true /\
          check lane hash = Fulfilled result
    | DemoRoutes.ErrorJson _ status =>
        status = 400 \/
        (status = 500 /\
         exists lane hash e,
           DemoRoutes.isHash hash = true /\ check lane hash = Rejected e)
    | DemoRoutes.Throws _ =>
        json = Fulfilled StartRoute.JsNull \/
        json = Fulfilled StartRoute.JsUndefined
    end.
Proof.
  intros check json. unfold DemoRoutes.confirmPOST.
  destruct json as [body | e]; [| now left].
  destruct (DemoRoutes.getField "lane" body) as [lane | e] eqn:Hlane.
  - destruct (DemoRoutes.getField "txHash" body) as [tx | e] eqn:Htx.
    + destruct (DemoRoutes.toDemoLane lane) as [l |] eqn:Hl; [| now left].
      destruct tx as [| | b | n | hash | items | fields];
        cbn [DemoRoutes.isTransactionHash negb]; try (now left).
      destruct (DemoRoutes.isHash hash) eqn:Hh; cbn [negb]; [| now left].
      assert (Hname : lane = StartRoute.JsString (RaceDemo.laneName l)).
      { destruct lane as [| | b | n | s | items | fields];
          try discriminate Hl. cbn [DemoRoutes.toDemoLane] in Hl.
        destruct (String.eqb_spec s "flashblocks") as [-> | _];
          [injection Hl as <-; reflexivity |].
        destruct (String.eqb_spec s "normal") as [-> | _];
          [injection Hl as <-; reflexivity | discriminate]. }
      destruct (check l hash) as [result | e] eqn:Hc.
      * exists body, l, hash. rewrite <- Hname. auto.
      * right. split; [reflexivity |]. now exists l, hash, e.
    + destruct body; try discriminate Htx; auto.
  - destruct body; try discriminate Hlane; auto.
Qed.

(** X13.  In spoof mode the two routes fit together: the send route
    answers a request for a lane with a handle, and the confirm route,
    asked about that handle for the same lane, accepts it and answers by
    the delay of the lane, for a creation time [0 <= t < 2^48] and 25
    random bytes. *)
Theorem spoof_send_then_confirm :
  forall (hexToNumber : Hex -> Outcome Z) (publicClient : PublicClient)
         (live : Outcome SendResult) (lane : DemoLane) (t now : Z)
         (randomBytes : list Byte.byte),
    0 <= t < 2 ^ 48 ->
    List.length randomBytes = 25%nat ->
    exists sent,
      DemoRoutes.sendPOST
        (DemoRoutes.sendLaneTransaction true t randomBytes live)
        (Fulfilled (StartRoute.JsObject
           [("lane", StartRoute.JsString (RaceDemo.laneName lane))]))
      = DemoRoutes.Json sent /\
      from sent = SPOOF_FROM_BY_LANE lane /\
      DemoRoutes.confirmPOST
        (checkLaneConfirmation true hexToNumber publicClient now)
        (Fulfilled (StartRoute.JsObject
           [("lane", StartRoute.JsString (RaceDemo.laneName lane));
            ("txHash", StartRoute.JsString (txHash sent))]))
      = DemoRoutes.Json
          (if now - t <? SPOOF_CONFIRMATION_DELAY_MS_BY_LANE lane
           then unconfirmed
           else {| confirmed := true; method := SPOOF_METHOD_BY_LANE lane;
                   blockNumber := None |}).
Proof.
  intros h pc live lane t now rnd Ht Hrnd.
  exists (sendLaneTransactionSpoof lane t rnd).
  split; [| split; [reflexivity |]].
  - unfold DemoRoutes.sendPOST. cbn [DemoRoutes.getField].
    now rewrite lookupField_lane, toDemoLane_laneName.
  - unfold DemoRoutes.confirmPOST. cbn [DemoRoutes.getField].
    rewrite lookupField_lane, lookupField_txHash.
    rewrite toDemoLane_laneName.
    unfold sendLaneTransactionSpoof at 1. cbn [txHash].
    cbn [DemoRoutes.isTransactionHash]. unfold DemoRoutes.isHash.
    rewrite spoof_handle_is_hex64
      by (rewrite ?Qfloor_Z; (lia || exact Hrnd)).
    cbn [negb].
    now rewrite checkLaneConfirmation_spoof_own_handle.
Qed.

Lemma spoof_send_then_confirm_witness :
  exists sent,
    DemoRoutes.sendPOST
      (DemoRoutes.sendLaneTransaction true 1767225600000
         (List.repeat Byte.x5a 25) (Rejected Primitive))
      (Fulfilled (StartRoute.JsObject
         [("lane", StartRoute.JsString (RaceDemo.laneName flashblocks))]))
    = DemoRoutes.Json sent /\
    from sent = SPOOF_FROM_BY_LANE flashblocks /\
    DemoRoutes.confirmPOST
      (checkLaneConfirmation true (fun _ => Fulfilled 0)
         {| eth_getTransactionReceipt := fun _ => Fulfilled None;
            eth_getBlockByNumber := fun _ => Fulfilled None |}
         1767225600800)
      (Fulfilled (StartRoute.JsObject
         [("lane", StartRoute.JsString (RaceDemo.laneName flashblocks));
          ("txHash", StartRoute.JsString (txHash sent))]))
    = DemoRoutes.Json
        (if 1767225600800 - 1767225600000
            <? SPOOF_CONFIRMATION_DELAY_MS_BY_LANE flashblocks
         then unconfirmed
         else {| confirmed := true;
                 method := SPOOF_METHOD_BY_LANE flashblocks;
                 blockNumber := None |}).
Proof.
  apply (spoof_send_then_confirm (fun _ => Fulfilled 0)
           {| eth_getTransactionReceipt := fun _ => Fulfilled None;
              eth_getBlockByNumber := fun _ => Fulfilled None |}
           (Rejected Primitive) flashblocks 1767225600000 1767225600800
           (List.repeat Byte.x5a 25)).
  - vm_compute. split; congruence.
  - reflexivity.
Defined.

(** X14.  Whenever the start route starts the run core, the duration it
    hands over lies between 1000 and 60000 milliseconds. *)
Theorem POST_duration_bounds :
  forall (json : Outcome StartRoute.JsValue) (durationMs : Z),
    StartRoute.POST json = StartRoute.RaceStream durationMs ->
    1000 <= durationMs <= 60000.
Proof.
  intros json d. unfold StartRoute.POST.
  destruct json as [body | e]; [| discriminate].
  destruct (StartRoute.getDurationSeconds body) as [value | e];
    [| discriminate].
  destruct (StartRoute.parseDurationSeconds value) as [n |] eqn:Hp;
    [| discriminate].
  apply parseDurationSeconds_Some in Hp.
  destruct Hp as (q & -> & _ & H1 & H60).
  intros H.
  assert (Hd : d = Qfloor (q * inject_Z 1000 + (1 # 2))).
  { change (Qfloor (q * inject_Z 1000 + (1 # 2)))
      with (StartRoute.mathRound
              (StartRoute.jsTimes1000 (StartRoute.JsFinite q))).
    congruence. }
  rewrite Hd. clear H Hd.
  split.
  - apply Z.le_trans with (Qfloor (1 * inject_Z 1000 + (1 # 2)));
      [vm_compute; discriminate |].
    apply Qfloor_resp_le.
    apply Qplus_le_compat; [| apply Qle_refl].
    apply Qmult_le_compat_r; [exact H1 | discriminate].
  - apply Z.le_trans with (Qfloor (60 * inject_Z 1000 + (1 # 2)));
      [| vm_compute; discriminate].
    apply Qfloor_resp_le.
    apply Qplus_le_compat; [| apply Qle_refl].
    apply Qmult_le_compat_r; [exact H60 | discriminate].
Qed.

Lemma POST_duration_bounds_witness :
  1000 <= 2500 <= 60000.
Proof.
  apply (POST_duration_bounds
    (Fulfilled (StartRoute.JsObject
       [("durationSeconds", StartRoute.JsNum (StartRoute.JsFinite (5 # 2)))]))
    2500).
  reflexivity.
Defined.

(** ** The stream of the start route *)

Section StreamFacts.
Import StartStream.

(** The calls the controller has received: events, then at most one close,
    which is there exactly when the handler holds the stream closed. *)
Lemma act_log s a events :
  controllerLog s = (map Enqueue events
                     ++ if closed s then [Close] else [])%list ->
  exists events',
    controllerLog (act s a)
    = (map Enqueue events' ++ if closed (act s a) then [Close] else [])%list /\
    (closed s = true -> act s a = match a with
                                  | RequestAborted | Cancelled => abortRun s
                                  | _ => s
                                  end).
Proof.
  intros Hlog.
  destruct a as [event | | now | |]; cbn [act];
    unfold close, pushEvent, abortRun; cbn [closed controllerLog];
    destruct (closed s) eqn:Hc; cbn [closed controllerLog];
    rewrite ?Hc; cbn [closed controllerLog];
    try (exists events; split; [rewrite Hlog, ?app_nil_r; reflexivity
                               | intros; reflexivity || discriminate]).
  - exists (events ++ [event])%list. split; [| discriminate].
    rewrite Hlog, map_app, !app_nil_r. reflexivity.
  - exists (events ++ [EndError now])%list. split; [| discriminate].
    rewrite Hlog, map_app, !app_nil_r. reflexivity.
Qed.

End StreamFacts.

(** X15.  Whatever happens to the stream of the start route, and in
    whatever order, the handler hands events to the controller and then
    closes it at most once: no event is enqueued after the close, and the
    close is there exactly when the handler holds the stream closed.  An
    abort of the request always closes the stream and aborts the run
    core. *)
Theorem start_stream_closes_once :
  forall (actions : list StartStream.StreamAction),
    let s := fold_left StartStream.act actions StartStream.started in
    (exists events,
        StartStream.controllerLog s
        = (map StartStream.Enqueue events
           ++ if StartStream.closed s then [StartStream.Close] else [])%list) /\
    (forall more,
        StartStream.closed s = true ->
        StartStream.controllerLog (fold_left StartStream.act more s)
        = StartStream.controllerLog s) /\
    (In StartStream.RequestAborted actions ->
     StartStream.closed s = true /\ StartStream.runAborted s = true).
Proof.
  intros actions s.
  assert (Hall : forall acts s0 events,
    StartStream.controllerLog s0
    = (map StartStream.Enqueue events
       ++ if StartStream.closed s0 then [StartStream.Close] else [])%list ->
    exists events',
      StartStream.controllerLog (fold_left StartStream.act acts s0)
      = (map StartStream.Enqueue events'
         ++ if StartStream.closed (fold_left StartStream.act acts s0)
            then [StartStream.Close] else [])%list).
  { induction acts as [|a acts IH]; intros s0 events H0; [now exists events |].
    cbn [fold_left]. destruct (act_log s0 a events H0) as (events' & H1 & _).
    now apply (IH _ events'). }
  assert (Hclosed : forall acts s0,
    StartStream.closed s0 = true ->
    StartStream.closed (fold_left StartStream.act acts s0) = true /\
    StartStream.controllerLog (fold_left StartStream.act acts s0)
    = StartStream.controllerLog s0 /\
    (StartStream.runAborted s0 = true ->
     StartStream.runAborted (fold_left StartStream.act acts s0) = true)).
  { induction acts as [|a acts IH]; intros s0 Hc; [auto |].
    cbn [fold_left].
    assert (Hstep : StartStream.closed (StartStream.act s0 a) = true /\
                    StartStream.controllerLog (StartStream.act s0 a)
                    = StartStream.controllerLog s0 /\
                    (StartStream.runAborted s0 = true ->
                     StartStream.runAborted (StartStream.act s0 a) = true)).
    { destruct a; cbn [StartStream.act];
        unfold StartStream.close, StartStream.pushEvent, StartStream.abortRun;
        cbn [StartStream.closed StartStream.controllerLog
             StartStream.runAborted];
        rewrite ?Hc; cbn [StartStream.closed StartStream.controllerLog
                          StartStream.runAborted]; auto. }
    destruct Hstep as (H1 & H2 & H3).
    destruct (IH _ H1) as (K1 & K2 & K3).
    split; [exact K1 |]. split; [congruence | auto]. }
  split; [apply (Hall actions StartStream.started []); reflexivity |].
  split; [intros more Hc; apply (Hclosed more s Hc) |].
  intros Hin. unfold s. clear s.
  generalize StartStream.started as s0.
  induction actions as [|a actions IH]; intros s0; [destruct Hin |].
  cbn [fold_left]. destruct Hin as [-> | Hin]; [| now apply IH].
  assert (Hc : StartStream.closed
                 (StartStream.act s0 StartStream.RequestAborted) = true /\
               StartStream.runAborted
                 (StartStream.act s0 StartStream.RequestAborted) = true).
  { cbn [StartStream.act].
    unfold StartStream.close, StartStream.abortRun.
    cbn [StartStream.closed]. destruct (StartStream.closed s0); auto. }
  destruct Hc as [Hc Ha].
  destruct (Hclosed actions _ Hc) as (K1 & _ & K3). auto.
Qed.

(** ** Sends and the requests behind them *)

Section SendCounting.
Import ListOps RaceDemo.

Lemma sendRequests_app lane token a b :
  sendRequests lane token (a ++ b)
  = sendRequests lane token a + sendRequests lane token b.
Proof. unfold sendRequests. rewrite filter_app, length_app. lia. Qed.

Lemma sendRequests_older lane token token' calls :
  Forall (fun call => callToken call <= token) calls ->
  token < token' ->
  sendRequests lane token' calls = 0.
Proof.
  intros Hall Hlt. unfold sendRequests.
  induction Hall as [|call calls Hc Hall IH]; [reflexivity |].
  cbn [filter].
  assert (Hf : isSendOf lane token' call = false).
  { destruct call as [l t | l t tx]; [| reflexivity]. cbn [callToken] in Hc.
    cbn [isSendOf]. destruct (Z.eqb_spec t token'); [lia |].
    apply andb_false_r. }
  now rewrite Hf.
Qed.

Ltac split_tests' :=
  repeat match goal with
         | |- context [if ?b then _ else _] => destruct b eqn:?
         | |- context [match ?r with Fulfilled _ => _ | Rejected _ => _ end] =>
             destruct r
         end.

(** A resumption counts one send for each send request it issues. *)
Lemma resume_sends clk lane token point w c c' point' calls :
  resume clk lane token point w c = Some (c', point', calls) ->
  (forall lane',
      sendsAttempted (getLane lane' (lanes c'))
      = sendsAttempted (getLane lane' (lanes c))
        + sendRequests lane' token calls) /\
  (runDeadlineRef c' <> None ->
   runTokenRef c' = runTokenRef c /\ runDeadlineRef c' = runDeadlineRef c).
Proof.
  intros H.
  destruct point, w; try discriminate H; cbn [resume] in H;
    injection H; clear H;
    unfold afterSend, afterConfirm, afterAttempt, pollHead, afterPoll,
      loopHead;
    split_tests'; intros H; injection H as <- <- <-;
    (split;
     [ intros lane'; unfold sendRequests; cbn [filter isSendOf];
       rewrite ?Z.eqb_refl; destruct lane, lane'; cbn; lia
     | cbn; intros Hd; first [now split | now destruct Hd] ]).
Qed.

Lemma step_sendsCounted clk e s token calls :
  sendsCounted token (component s) calls ->
  exists token',
    sendsCounted token' (component (fst (step clk e s)))
      (calls ++ snd (step clk e s)).
Proof.
  intros (HA & Hle & HC & HB).
  assert (Hsame : exists token',
            sendsCounted token' (component s) (calls ++ [])).
  { exists token. rewrite app_nil_r. repeat split; assumption. }
  assert (Hstop : exists token',
            sendsCounted token' (stopRun (component s)) (calls ++ [])).
  { exists token. rewrite app_nil_r. split; [exact HA |].
    split; [cbn; lia |]. split; [cbn; congruence |].
    intros lane. rewrite <- HB. now destruct lane. }
  destruct e as [| | | i w | k]; cbn [step].
  - destruct (isRunning (component s)) eqn:Hrun.
    + unfold startRun. rewrite Hrun. exact Hsame.
    + rewrite (startRun_fresh clk s Hrun). cbn [fst snd component].
      exists (runTokenRef (component s) + 1).
      split; [| split; [| split]].
      * apply Forall_app. split.
        -- eapply Forall_impl; [| exact HA]. cbn. intros; lia.
        -- repeat constructor; cbn [callToken]; lia.
      * cbn. lia.
      * reflexivity.
      * intros lane. rewrite sendRequests_app.
        rewrite (sendRequests_older lane token) by (assumption || lia).
        unfold sendRequests. cbn [filter isSendOf]. rewrite Z.eqb_refl.
        destruct lane; reflexivity.
  - exact Hstop.
  - destruct (stopTimerRef (component s)); assumption.
  - destruct (nth_error (loops s) i) as [l |]; [| exact Hsame].
    destruct (resume clk (loopLane l) (loopToken l) (loopPoint l) w
                (component s)) as [[[c' p'] calls'] |] eqn:Hr;
      [| exact Hsame].
    cbn [fst snd component].
    destruct (isActiveRun (component s) clk (loopToken l)) eqn:Hact.
    + pose proof (isActiveRun_token _ _ _ Hact) as Htok.
      assert (Hd : runDeadlineRef (component s) <> None).
      { intros Hn. rewrite (isActiveRun_no_deadline _ _ _ Hn) in Hact.
        discriminate. }
      specialize (HC Hd).
      destruct (resume_sends _ _ _ _ _ _ _ _ _ Hr) as [Hs Hk].
      pose proof (resume_token_mono _ _ _ _ _ _ _ _ _ Hr) as Hmono.
      pose proof (resume_calls _ _ _ _ _ _ _ _ _ Hr) as Hcalls.
      exists token. split; [| split; [| split]].
      * apply Forall_app. split; [exact HA |].
        eapply Forall_impl; [| exact Hcalls]. cbn. intros; lia.
      * lia.
      * intros Hd'. destruct (Hk Hd') as [Ht _]. lia.
      * intros lane. rewrite sendRequests_app, Hs, HB.
        replace (loopToken l) with token by lia. reflexivity.
    + apply (resume_inactive _ _ _ _ _ _ _ Hact) in Hr.
      injection Hr as -> -> ->. exact Hsame.
  - destruct (nth_error (animationTimersRef (component s)) k) as [t |];
      [| exact Hsame].
    cbn [fst snd component]. exists token. rewrite app_nil_r.
    unfold animationTimerCallback.
    destruct (negb _); (split; [exact HA |]); (split; [exact Hle |]);
      (split; [exact HC |]); [exact HB |].
    intros lane. rewrite <- HB. now destruct (timerLane t), lane.
Qed.

Lemma run_sendsCounted events : forall s token calls,
  sendsCounted token (component s) calls ->
  exists token',
    sendsCounted token' (component (fst (run s events)))
      (calls ++ snd (run s events)).
Proof.
  induction events as [|[clk e] rest IH]; intros s token calls H.
  - exists token. cbn [run fst snd]. now rewrite app_nil_r.
  - rewrite run_cons. cbn [fst snd].
    destruct (step_sendsCounted clk e s token calls H) as [token1 H1].
    destruct (IH _ _ _ H1) as [token2 H2].
    exists token2. now rewrite app_assoc.
Qed.

End SendCounting.

(** X16.  The counter of sends of a lane counts the send requests issued
    for it: whatever events the component has gone through, there is a
    token, the one of the run begun last (no request carries a larger one,
    and it is the current token as long as the deadline is set), such that
    [sendsAttempted] of each lane is the number of send requests issued
    for that lane with that token. *)
Theorem sendsAttempted_counts_send_requests :
  forall (events : list (RaceDemo.Clock * RaceDemo.Event)),
    let s := fst (RaceDemo.run RaceDemo.initialSystem events) in
    let calls := snd (RaceDemo.run RaceDemo.initialSystem events) in
    exists token,
      Forall (fun call => RaceDemo.callToken call <= token) calls /\
      (RaceDemo.runDeadlineRef (RaceDemo.component s) <> None ->
       token = RaceDemo.runTokenRef (RaceDemo.component s)) /\
      forall lane,
        RaceDemo.sendsAttempted
          (RaceDemo.getLane lane (RaceDemo.lanes (RaceDemo.component s)))
        = sendRequests lane token calls.
Proof.
  intros events s calls.
  assert (H0 : sendsCounted 0 (RaceDemo.component RaceDemo.initialSystem) []).
  { split; [constructor |]. split; [cbn; lia |].
    split; [intros Hd; now destruct Hd |].
    intros lane. now destruct lane. }
  destruct (run_sendsCounted events _ _ _ H0) as (token & HA & _ & HC & HB).
  exists token. cbn [app] in *. fold s in HC, HB.
  split; [exact HA |]. split; [exact HC | exact HB].
Qed.
(** ** Confirmations and sends *)

Section CycleCounting.
Import ListOps RaceDemo.

Lemma countIf_setNth_gen {A} (f : A -> bool) i (x y : A) l :
  nth_error l i = Some x ->
  countIf f (setNth i y l)
  = countIf f l - (if f x then 1 else 0) + (if f y then 1 else 0).
Proof.
  intros H. apply nth_error_split in H as (l1 & l2 & -> & <-).
  rewrite setNth_split, !countIf_app, !countIf_cons. lia.
Qed.

(** A resumption records a confirmation only for a cycle that was open,
    and opens a cycle only with a send. *)
Lemma resume_cycle clk lane token point w c c' point' calls :
  resume clk lane token point w c = Some (c', point', calls) ->
  forall lane',
    confirmationsObserved (getLane lane' (lanes c))
    <= confirmationsObserved (getLane lane' (lanes c')) /\
    confirmationsObserved (getLane lane' (lanes c'))
    - confirmationsObserved (getLane lane' (lanes c))
    + (if DemoLane_eqb lane lane'
       then (if inCycle point' then 1 else 0) - (if inCycle point then 1 else 0)
       else 0)
    <= sendsAttempted (getLane lane' (lanes c'))
       - sendsAttempted (getLane lane' (lanes c)).
Proof.
  intros H.
  destruct point, w as [r | r |]; try discriminate H; cbn [resume] in H;
    try destruct r;
    unfold afterSend, afterConfirm, afterAttempt, pollHead, afterPoll,
      loopHead in H;
    repeat match type of H with
           | context [if ?b then _ else _] => destruct b eqn:?
           end;
    injection H as <- <- <-;
    intros lane'; destruct lane, lane'; cbn; lia.
Qed.

Lemma step_cyclesCounted clk e s token :
  cyclesCounted token s ->
  exists token', cyclesCounted token' (fst (step clk e s)).
Proof.
  intros (Hle & HC & HL & HB).
  assert (Hsame : exists token', cyclesCounted token' s)
    by (exists token; repeat split; auto; apply HB).
  assert (Hstop : exists token',
            cyclesCounted token'
              {| component := stopRun (component s); loops := loops s |}).
  { exists token. split; [cbn; lia |]. split; [cbn; congruence |].
    split; [eapply Forall_impl; [| exact HL]; cbn; intros; lia |].
    intros lane. specialize (HB lane). cbn [component loops].
    now destruct lane. }
  destruct e as [| | | i w | k]; cbn [step].
  - destruct (isRunning (component s)) eqn:Hrun.
    + unfold startRun. rewrite Hrun. exact Hsame.
    + rewrite (startRun_fresh clk s Hrun). cbn [fst].
      exists (runTokenRef (component s) + 1).
      split; [cbn; lia |]. split; [reflexivity |].
      cbn [component loops runTokenRef updateLane withLanes].
      split.
      * apply Forall_app. split.
        -- eapply Forall_impl; [| exact HL]. cbn. intros; lia.
        -- repeat constructor; cbn [loopToken]; lia.
      * intros lane. cbn zeta.
        rewrite countIf_app, countIf_none.
        -- rewrite !countIf_cons. unfold openCycle.
           cbn [loopLane loopToken loopPoint inCycle]. rewrite Z.eqb_refl.
           destruct lane; unfold countIf; cbn; lia.
        -- eapply Forall_impl; [| exact HL]. cbn. intros l Hl.
           unfold openCycle.
           destruct (Z.eqb_spec (loopToken l) (runTokenRef (component s) + 1));
             [lia |].
           now rewrite andb_false_r.
  - exact Hstop.
  - destruct (stopTimerRef (component s)); assumption.
  - destruct (nth_error (loops s) i) as [l |] eqn:Hl; [| exact Hsame].
    destruct (resume clk (loopLane l) (loopToken l) (loopPoint l) w
                (component s)) as [[[c' p'] calls'] |] eqn:Hr;
      [| exact Hsame].
    cbn [fst].
    pose proof (resume_token_mono _ _ _ _ _ _ _ _ _ Hr) as Hmono.
    destruct (resume_sends _ _ _ _ _ _ _ _ _ Hr) as [_ Hk].
    pose proof (resume_cycle _ _ _ _ _ _ _ _ _ Hr) as Hcyc.
    assert (Hin : loopToken l <= runTokenRef (component s)).
    { rewrite Forall_forall in HL. eapply HL, nth_error_In, Hl. }
    exists token. split; [cbn [component]; lia |].
    cbn [component loops].
    split; [intros Hd'; destruct (Hk Hd') as [Ht Hd]; rewrite Ht;
            apply HC; congruence |].
    split.
    + apply Forall_setNth; [cbn [loopToken]; lia |].
      eapply Forall_impl; [| exact HL]. cbn. intros; lia.
    + intros lane. cbn zeta. specialize (HB lane). cbn zeta in HB.
      specialize (Hcyc lane).
      rewrite (countIf_setNth_gen _ _ l) by exact Hl.
      unfold openCycle at 2 3. cbn [loopLane loopToken loopPoint].
      destruct (isActiveRun (component s) clk (loopToken l)) eqn:Hact.
      * destruct (Z.eqb_spec (loopToken l) token) as [Heq | Hne].
        -- rewrite andb_true_r.
           destruct (DemoLane_eqb (loopLane l) lane),
             (inCycle (loopPoint l)), (inCycle p'); cbn [andb]; lia.
        -- exfalso. apply Hne.
           pose proof (isActiveRun_token _ _ _ Hact) as Htok.
           assert (Hd : runDeadlineRef (component s) <> None).
           { intros Hn. rewrite (isActiveRun_no_deadline _ _ _ Hn) in Hact.
             discriminate. }
           specialize (HC Hd). lia.
      * apply (resume_inactive _ _ _ _ _ _ _ Hact) in Hr.
        injection Hr as -> -> ->. cbn [inCycle].
        rewrite !andb_false_r.
        destruct (DemoLane_eqb (loopLane l) lane && (loopToken l =? token)
                  && inCycle (loopPoint l)); lia.
  - destruct (nth_error (animationTimersRef (component s)) k) as [t |];
      [| exact Hsame].
    cbn [fst]. exists token. unfold animationTimerCallback.
    destruct (negb _); cbn [component loops];
      (split; [exact Hle |]); (split; [exact HC |]); (split; [exact HL |]);
      intros lane; specialize (HB lane); [exact HB |].
    cbn zeta in *. now destruct (timerLane t), lane.
Qed.

Lemma run_cyclesCounted events : forall s token,
  cyclesCounted token s ->
  exists token', cyclesCounted token' (fst (run s events)).
Proof.
  induction events as [|[clk e] rest IH]; intros s token H.
  - now exists token.
  - rewrite run_cons. cbn [fst].
    destruct (step_cyclesCounted clk e s token H) as [token1 H1].
    apply (IH _ _ H1).
Qed.

End CycleCounting.

(** X17.  Whatever events the component has gone through, no lane shows
    more confirmations than sends: a confirmation is only recorded for a
    cycle that a send has begun, and a cycle is confirmed at most once. *)
Theorem confirmations_within_sends :
  forall (events : list (RaceDemo.Clock * RaceDemo.Event))
         (lane : DemoLane),
    let st :=
      RaceDemo.getLane lane
        (RaceDemo.lanes
           (RaceDemo.component
              (fst (RaceDemo.run RaceDemo.initialSystem events)))) in
    0 <= RaceDemo.confirmationsObserved st <= RaceDemo.sendsAttempted st.
Proof.
  intros events lane st.
  assert (H0 : cyclesCounted 0 RaceDemo.initialSystem).
  { split; [cbn; lia |]. split; [intros Hd; now destruct Hd |].
    split; [constructor |].
    intros l. unfold countIf. now destruct l. }
  destruct (run_cyclesCounted events _ _ H0) as (token & _ & _ & _ & HB).
  specialize (HB lane). cbn zeta in HB. fold st in HB.
  pose proof (countIf_nonneg (openCycle lane token)
                (RaceDemo.loops
                   (fst (RaceDemo.run RaceDemo.initialSystem events)))).
  lia.
Qed.
(** ** After the deadline *)

Section PastDeadline.
Import ListOps RaceDemo.

Lemma isActiveRun_past c clk token d :
  (runDeadlineRef c = Some d \/ runDeadlineRef c = None) ->
  d <= dateNow clk ->
  isActiveRun c clk token = false.
Proof.
  unfold isActiveRun. intros [-> | ->] Hd; [| reflexivity].
  destruct (Z.ltb_spec (dateNow clk) d); [lia | apply andb_false_r].
Qed.

(** Past the deadline an event other than a start issues no request and
    changes at most the status of the lanes, to [stopped]. *)
Lemma step_pastDeadline clk e s d lanes0 :
  (runDeadlineRef (component s) = Some d \/
   runDeadlineRef (component s) = None) ->
  (forall lane,
      getLane lane (lanes (component s)) = getLane lane lanes0 \/
      getLane lane (lanes (component s))
      = withStatus stopped (getLane lane lanes0)) ->
  d <= dateNow clk ->
  e <> StartClicked ->
  snd (step clk e s) = [] /\
  (runDeadlineRef (component (fst (step clk e s))) = Some d \/
   runDeadlineRef (component (fst (step clk e s))) = None) /\
  (forall lane,
      getLane lane (lanes (component (fst (step clk e s))))
      = getLane lane lanes0 \/
      getLane lane (lanes (component (fst (step clk e s))))
      = withStatus stopped (getLane lane lanes0)).
Proof.
  intros Hd Hl Hpast He.
  assert (Hsame : snd (s, @nil Call) = [] /\
    (runDeadlineRef (component (fst (s, @nil Call))) = Some d \/
     runDeadlineRef (component (fst (s, @nil Call))) = None) /\
    (forall lane,
        getLane lane (lanes (component (fst (s, @nil Call))))
        = getLane lane lanes0 \/
        getLane lane (lanes (component (fst (s, @nil Call))))
        = withStatus stopped (getLane lane lanes0)))
    by (cbn [fst snd]; auto).
  assert (Hstop : forall loops0,
    snd ({| component := stopRun (component s); loops := loops0 |},
         @nil Call) = [] /\
    (runDeadlineRef (component (fst
       ({| component := stopRun (component s); loops := loops0 |},
        @nil Call))) = Some d \/
     runDeadlineRef (component (fst
       ({| component := stopRun (component s); loops := loops0 |},
        @nil Call))) = None) /\
    (forall lane,
        getLane lane (lanes (component (fst
          ({| component := stopRun (component s); loops := loops0 |},
           @nil Call)))) = getLane lane lanes0 \/
        getLane lane (lanes (component (fst
          ({| component := stopRun (component s); loops := loops0 |},
           @nil Call))))
        = withStatus stopped (getLane lane lanes0))).
  { intros loops0. cbn [fst snd component]. split; [reflexivity |].
    split; [now right |].
    intros lane. right.
    replace (getLane lane (lanes (stopRun (component s))))
      with (withStatus stopped (getLane lane (lanes (component s))))
      by now destruct lane.
    destruct (Hl lane) as [-> | ->]; reflexivity. }
  destruct e as [| | | i w | k]; cbn [step]; [contradiction | | | |].
  - apply Hstop.
  - destruct (stopTimerRef (component s)); [apply Hstop | exact Hsame].
  - destruct (nth_error (loops s) i) as [l |]; [| exact Hsame].
    destruct (resume clk (loopLane l) (loopToken l) (loopPoint l) w
                (component s)) as [r |] eqn:Hr; [| exact Hsame].
    apply resume_inactive in Hr; [| now apply (isActiveRun_past _ _ _ d)].
    subst r. cbn [fst snd component]. auto.
  - destruct (nth_error (animationTimersRef (component s)) k) as [t |];
      [| exact Hsame].
    cbn [fst snd component]. unfold animationTimerCallback.
    rewrite (isActiveRun_past _ _ _ d) by assumption. cbn [negb].
    auto.
Qed.

Lemma run_pastDeadline events : forall s d lanes0,
  (runDeadlineRef (component s) = Some d \/
   runDeadlineRef (component s) = None) ->
  (forall lane,
      getLane lane (lanes (component s)) = getLane lane lanes0 \/
      getLane lane (lanes (component s))
      = withStatus stopped (getLane lane lanes0)) ->
  pastDeadline d events ->
  snd (run s events) = [] /\
  (forall lane,
      getLane lane (lanes (component (fst (run s events))))
      = getLane lane lanes0 \/
      getLane lane (lanes (component (fst (run s events))))
      = withStatus stopped (getLane lane lanes0)).
Proof.
  induction events as [|[clk e] rest IH]; intros s d lanes0 Hd Hl Hp;
    [cbn [run fst snd]; auto |].
  rewrite run_cons. cbn [fst snd].
  inversion Hp as [| ? ? [Hpast He] Hrest]; subst. cbn [fst snd] in Hpast, He.
  destruct (step_pastDeadline clk e s d lanes0 Hd Hl Hpast He)
    as (Hc & Hd' & Hl').
  destruct (IH _ d lanes0 Hd' Hl' Hrest) as (Hc2 & Hl2).
  rewrite Hc, Hc2. auto.
Qed.

End PastDeadline.

(** X18.  Once the clock has reached the deadline of a run the run is
    inert, whether or not the auto-stop timer has fired yet: as long as no
    new run is started, whatever answers and timers arrive, no send or
    confirm request is issued and each lane keeps its state, but for the
    status, which [stopRun] sets to [stopped]. *)
Theorem run_inert_past_deadline :
  forall (s : RaceDemo.System) (deadline : Z)
         (events : list (RaceDemo.Clock * RaceDemo.Event)),
    RaceDemo.runDeadlineRef (RaceDemo.component s) = Some deadline ->
    pastDeadline deadline events ->
    snd (RaceDemo.run s events) = [] /\
    forall lane,
      let before := RaceDemo.getLane lane (RaceDemo.lanes (RaceDemo.component s)) in
      let after :=
        RaceDemo.getLane lane
          (RaceDemo.lanes (RaceDemo.component (fst (RaceDemo.run s events)))) in
      after = before \/ after = RaceDemo.withStatus RaceDemo.stopped before.
Proof.
  intros s deadline events Hd Hp.
  destruct (run_pastDeadline events s deadline
              (RaceDemo.lanes (RaceDemo.component s)))
    as [Hc Hl]; [now left | now left | exact Hp |].
  split; [exact Hc |]. intros lane before after. apply Hl.
Qed.

Lemma run_inert_past_deadline_witness :
  snd (RaceDemo.run
         (fst (RaceDemo.run RaceDemo.initialSystem
                 [({| RaceDemo.dateNow := 1000; RaceDemo.performanceNow := 0 |},
                   RaceDemo.StartClicked)]))
         [({| RaceDemo.dateNow := 9000; RaceDemo.performanceNow := 8000 |},
           RaceDemo.LoopWakes 0
             (RaceDemo.SendSettled
                (Fulfilled {| txHash := "0xf1"; from := "0xaa" |})));
          ({| RaceDemo.dateNow := 9001; RaceDemo.performanceNow := 8001 |},
           RaceDemo.StopTimerFired);
          ({| RaceDemo.dateNow := 9100; RaceDemo.performanceNow := 8100 |},
           RaceDemo.LoopWakes 1 RaceDemo.SleepElapsed)]) = [].
Proof.
  refine (proj1 (run_inert_past_deadline
    (fst (RaceDemo.run RaceDemo.initialSystem
            [({| RaceDemo.dateNow := 1000; RaceDemo.performanceNow := 0 |},
              RaceDemo.StartClicked)]))
    9000
    [({| RaceDemo.dateNow := 9000; RaceDemo.performanceNow := 8000 |},
      RaceDemo.LoopWakes 0
        (RaceDemo.SendSettled
           (Fulfilled {| txHash := "0xf1"; from := "0xaa" |})));
     ({| RaceDemo.dateNow := 9001; RaceDemo.performanceNow := 8001 |},
      RaceDemo.StopTimerFired);
     ({| RaceDemo.dateNow := 9100; RaceDemo.performanceNow := 8100 |},
      RaceDemo.LoopWakes 1 RaceDemo.SleepElapsed)] _ _)).
  - reflexivity.
  - repeat constructor; cbn; (lia || discriminate).
Defined.

(** ** What the lanes show *)

Section Shown.
Import RaceDemo.

Lemma metricsShown_applyUpdate st u :
  metricsShown st -> metricsShown (applyUpdate st u).
Proof.
  intros (H0 & Ha & Hl & Hm).
  destruct u as [| s | message | | latencyMs m]; try (repeat split; tauto).
  unfold metricsShown. cbn [applyUpdate toConfirmed confirmationsObserved
    averageLatencyMs latestLatencyMs lastConfirmationMethod].
  split; [lia |].
  split; [split; [lia | discriminate] |].
  split; [split; [lia | discriminate] |].
  destruct m; discriminate.
Qed.

End Shown.

(** X19.  Whatever events the component has gone through, each lane shows
    a latest and an average latency exactly when it has counted at least
    one confirmation, and the confirmation method it shows is never
    [none]. *)
Theorem lanes_show_latencies_once_confirmed :
  forall (events : list (RaceDemo.Clock * RaceDemo.Event))
         (lane : DemoLane),
    let st :=
      RaceDemo.getLane lane
        (RaceDemo.lanes
           (RaceDemo.component
              (fst (RaceDemo.run RaceDemo.initialSystem events)))) in
    0 <= RaceDemo.confirmationsObserved st /\
    (RaceDemo.confirmationsObserved st = 0 <->
     RaceDemo.averageLatencyMs st = None) /\
    (RaceDemo.confirmationsObserved st = 0 <->
     RaceDemo.latestLatencyMs st = None) /\
    RaceDemo.lastConfirmationMethod st <> Some none.
Proof.
  intros events lane st.
  pose proof (run_fromFresh events RaceDemo.initialSystem
                fromFresh_INITIAL_LANES lane) as Hfresh.
  fold st in Hfresh. destruct Hfresh as [updates Hst]. rewrite Hst.
  clear st Hst.
  assert (H : forall st0, metricsShown st0 ->
                          metricsShown (fold_left applyUpdate updates st0)).
  { induction updates as [|u updates IH]; intros st0 H0; [exact H0 |].
    cbn [fold_left]. apply IH, metricsShown_applyUpdate, H0. }
  apply H. unfold metricsShown. cbn. repeat split; (lia || discriminate).
Qed.
